(** * Dolby Atmos scanner: the scan-and-cache pipeline

    A shallow embedding of [Dolby_Atmos_scanner.py]: the cache store
    ([load_cache], [save_cache], [file_signature]), the per-file scan
    ([scan_video]) with its inline classifier, and the folder scan
    ([scan_folders]) with its recursive folder walk.

    Python values are modelled dynamically ([pyval]); operations that raise in
    Python return [Raise].  The outside world (file metadata, the directory
    tree, the ffprobe executable) is an environment of oracles, fixed for the
    duration of a scan; the cache file and the observable calls (stat, probe,
    progress callback) form the mutable state.

    Conventions of the model:
    - characters are the 256 code points U+0000..U+00FF (Rocq's [ascii]); a
      JSON text with a [\u] escape above U+00FF is outside this alphabet, and
      the decoder refuses it where [json.loads] reads it;
    - a float is carried as the text that denotes it, no arithmetic is done
      on it (the program does none); a float read from a file is written
      back with the text it was read with, where [json.dump] writes the
      [repr] of the float;
    - a root folder is given the way [pathlib] prints it (no [.] part, no
      doubled or trailing separator, the separator of the platform), so that
      [str(Path(folder) / ...)] is the parts joined by the separator;
    - [json.loads] and [json.dumps] are written out ([Module Json]); the
      decoder takes fuel, and [loads_fuel] shows it never runs out;
    - writing the cache file does not fail.

    The last part of the file covers the handlers of the window that compute
    on the program's data ([Module ScannerGUI]). *)

From Stdlib Require Import String Ascii List ZArith NArith Arith Bool Lia.
From Stdlib Require Import DecimalString.
From Stdlib Require DecimalFacts DecimalZ.
Import ListNotations.
Open Scope string_scope.

(* ================================================================== *)
(** ** Python strings *)
(* ================================================================== *)

Module PyStr.

(** [str.lower()] on one character of the Latin-1 range: A..Z and the
    upper-case letters U+00C0..U+00DE (U+00D7, the multiplication sign, apart)
    move up by 32. *)
Definition lower_char (c : ascii) : ascii :=
  let n := nat_of_ascii c in
  if (((65 <=? n) && (n <=? 90))
      || ((192 <=? n) && (n <=? 222) && negb (n =? 215)))%nat
  then ascii_of_nat (n + 32)
  else c.

Fixpoint lower (s : string) : string :=
  match s with
  | EmptyString => EmptyString
  | String c r => String (lower_char c) (lower r)
  end.

(** [needle in hay] for two strings: substring test. *)
Fixpoint contains (needle hay : string) : bool :=
  if prefix needle hay then true
  else match hay with
       | EmptyString => false
       | String _ r => contains needle r
       end.

(** [sep.join(parts)]. *)
Fixpoint join (sep : string) (parts : list string) : string :=
  match parts with
  | [] => ""
  | [p] => p
  | p :: ps => p ++ sep ++ join sep ps
  end.

(** [name.rfind(c)]: index of the last occurrence, if any. *)
Fixpoint rfind (c : ascii) (s : string) : option nat :=
  match s with
  | EmptyString => None
  | String a r =>
      match rfind c r with
      | Some i => Some (S i)
      | None => if Ascii.eqb a c then Some 0 else None
      end
  end.

(** [str(n)] for an integer. *)
Definition of_Z (z : Z) : string := NilZero.string_of_int (Z.to_int z).

End PyStr.

(* ================================================================== *)
(** ** The classifier (the [if]/[elif] chain of [scan_video]) *)
(* ================================================================== *)

Inductive format_label := DolbyAtmos | DTSX.

(** The label strings the code appends to a track. *)
Definition label_text (l : format_label) : string :=
  match l with
  | DolbyAtmos => "Dolby Atmos"
  | DTSX => "DTS:X"
  end.

(** The chain of conditions, on the already lower-cased [codec] and
    [profile]; [None] when no branch appends a track. *)
Definition classify (codec profile : string) : option format_label :=
  if PyStr.contains "atmos" profile
     || ((codec =? "truehd") && PyStr.contains "atmos" profile)
  then Some DolbyAtmos
  else if ((codec =? "eac3") || (codec =? "e-ac-3")) && PyStr.contains "joc" profile
  then Some DolbyAtmos
  else if (codec =? "dts") && PyStr.contains "x" profile
  then Some DTSX
  else None.

(** The classifier as it sees a stream: both strings are lower-cased first. *)
Definition classify_stream (codec_name profile : string) : option format_label :=
  classify (PyStr.lower codec_name) (PyStr.lower profile).

(* ================================================================== *)
(** ** Python values *)
(* ================================================================== *)

(** The values the pipeline handles: what [json.load] returns, plus the tuples
    [scan_video] builds.  A [dict] keeps insertion order, so it is an
    association list; every dictionary of this program has string keys.  A
    float is carried as the text that denotes it. *)
Unset Elimination Schemes.
Inductive pyval :=
| PNone
| PBool (b : bool)
| PInt (z : Z)
| PFloat (text : string)
| PStr (s : string)
| PList (l : list pyval)
| PTuple (l : list pyval)
| PDict (d : list (string * pyval)).
Set Elimination Schemes.

Section Dict.
Context {A : Type}.

(** [d.get(k)] *)
Fixpoint dict_get (k : string) (d : list (string * A)) : option A :=
  match d with
  | [] => None
  | (k', v) :: r => if k' =? k then Some v else dict_get k r
  end.

(** [d[k] = v]: an existing key keeps its position, a new key goes last. *)
Fixpoint dict_set (k : string) (v : A) (d : list (string * A)) : list (string * A) :=
  match d with
  | [] => [(k, v)]
  | (k', v') :: r => if k' =? k then (k', v) :: r else (k', v') :: dict_set k v r
  end.

(** [dict(pairs)] *)
Definition dict_of_pairs (pairs : list (string * A)) : list (string * A) :=
  fold_left (fun d kv => dict_set (fst kv) (snd kv) d) pairs [].

Definition dict_keys (d : list (string * A)) : list string := map fst d.
End Dict.

(** Python exceptions raised on the paths modelled here. *)
Inductive exn := OSError | JSONDecodeError | TypeError | KeyError | AttributeError.

Inductive result (A : Type) :=
| Ok (a : A)
| Raise (e : exn).
Arguments Ok {A} a.
Arguments Raise {A} e.

(* ================================================================== *)
(** ** The [json] module: [json.loads] and [json.dumps(..., indent=2)] *)
(* ================================================================== *)

Module Json.

Definition dquote : ascii := "034"%char.
Definition backslash : ascii := "092"%char.
Definition char_nl : ascii := "010"%char.
Definition char_cr : ascii := "013"%char.
Definition char_tab : ascii := "009"%char.
Definition char_bs : ascii := "008"%char.
Definition char_ff : ascii := "012"%char.

Definition is_ws (c : ascii) : bool :=
  Ascii.eqb c " " || Ascii.eqb c char_tab || Ascii.eqb c char_nl || Ascii.eqb c char_cr.

Fixpoint skip_ws (s : string) : string :=
  match s with
  | EmptyString => s
  | String c r => if is_ws c then skip_ws r else s
  end.

Definition is_digit (c : ascii) : bool :=
  ((48 <=? nat_of_ascii c) && (nat_of_ascii c <=? 57))%nat.

Definition hex_val (c : ascii) : option nat :=
  let n := nat_of_ascii c in
  if ((48 <=? n) && (n <=? 57))%nat then Some (n - 48)
  else if ((97 <=? n) && (n <=? 102))%nat then Some (n - 87)
  else if ((65 <=? n) && (n <=? 70))%nat then Some (n - 55)
  else None.

Definition hex4 (a b c d : ascii) : option nat :=
  match hex_val a, hex_val b, hex_val c, hex_val d with
  | Some x, Some y, Some z, Some w => Some (((x * 16 + y) * 16 + z) * 16 + w)
  | _, _, _, _ => None
  end.

(** The one-letter escapes of a JSON string. *)
Definition unescape (e : ascii) : option ascii :=
  if Ascii.eqb e dquote then Some dquote
  else if Ascii.eqb e backslash then Some backslash
  else if Ascii.eqb e "/" then Some "/"%char
  else if Ascii.eqb e "b" then Some char_bs
  else if Ascii.eqb e "f" then Some char_ff
  else if Ascii.eqb e "n" then Some char_nl
  else if Ascii.eqb e "r" then Some char_cr
  else if Ascii.eqb e "t" then Some char_tab
  else None.

(** [scanstring], strict mode, from just after the opening quote: the decoded
    string and what follows the closing quote.  An escape above U+00FF is
    outside the modelled alphabet and is refused. *)
Fixpoint scan_string (s : string) : option (string * string) :=
  match s with
  | EmptyString => None
  | String c r =>
      if Ascii.eqb c dquote then Some (EmptyString, r)
      else if Ascii.eqb c backslash then
        match r with
        | EmptyString => None
        | String e r1 =>
            if Ascii.eqb e "u" then
              match r1 with
              | String h1 (String h2 (String h3 (String h4 r2))) =>
                  match hex4 h1 h2 h3 h4 with
                  | Some n =>
                      if (n <? 256)%nat then
                        match scan_string r2 with
                        | Some (t, rest) => Some (String (ascii_of_nat n) t, rest)
                        | None => None
                        end
                      else None
                  | None => None
                  end
              | _ => None
              end
            else
              match unescape e with
              | Some a =>
                  match scan_string r1 with
                  | Some (t, rest) => Some (String a t, rest)
                  | None => None
                  end
              | None => None
              end
        end
      else if (nat_of_ascii c <? 32)%nat then None
      else
        match scan_string r with
        | Some (t, rest) => Some (String c t, rest)
        | None => None
        end
  end.

(** [eat c s]: what follows [c] when [s] starts with [c]. *)
Definition eat (c : ascii) (s : string) : option string :=
  match s with
  | String a r => if Ascii.eqb a c then Some r else None
  | EmptyString => None
  end.

Fixpoint span_digits (s : string) : string * string :=
  match s with
  | EmptyString => (EmptyString, EmptyString)
  | String c r =>
      if is_digit c then let (d, t) := span_digits r in (String c d, t)
      else (EmptyString, s)
  end.

Fixpoint drop (n : nat) (s : string) : string :=
  match n, s with
  | S m, String _ r => drop m r
  | _, _ => s
  end.

(** The number pattern: an optional minus sign, then 0 or a digit string that
    does not start with 0; an optional fraction (a point and digits); an
    optional exponent (e or E, an optional sign, digits). *)
Definition scan_digits (s : string) : option (string * string) :=
  match s with
  | EmptyString => None
  | String c r =>
      if Ascii.eqb c "0" then Some ("0", r)
      else if is_digit c then Some (span_digits s)
      else None
  end.

Definition scan_int (s : string) : option (string * string) :=
  match eat "-" s with
  | Some r =>
      match scan_digits r with
      | Some (d, t) => Some (String "-" d, t)
      | None => None
      end
  | None => scan_digits s
  end.

Definition scan_frac (s : string) : string * string :=
  match eat "." s with
  | Some r =>
      let (d, t) := span_digits r in
      if d =? "" then ("", s) else (String "." d, t)
  | None => ("", s)
  end.

Definition scan_exp (s : string) : string * string :=
  match s with
  | String e r =>
      if Ascii.eqb e "e" || Ascii.eqb e "E" then
        let (sign, r1) := match eat "+" r, eat "-" r with
                          | Some r', _ => ("+", r')
                          | None, Some r' => ("-", r')
                          | None, None => ("", r)
                          end in
        let (d, t) := span_digits r1 in
        if d =? "" then ("", s) else (String e (sign ++ d), t)
      else ("", s)
  | EmptyString => ("", s)
  end.

Definition int_of_text (t : string) : Z :=
  match NilZero.int_of_string t with
  | Some d => Z.of_int d
  | None => 0%Z
  end.

Definition scan_number (s : string) : option (pyval * string) :=
  match scan_int s with
  | None => None
  | Some (i, r) =>
      let (fr, r1) := scan_frac r in
      let (ex, r2) := scan_exp r1 in
      if (fr =? "") && (ex =? "") then Some (PInt (int_of_text i), r2)
      else Some (PFloat (i ++ fr ++ ex), r2)
  end.

(** Literals and numbers, in the scanner's order. *)
Definition scan_atom (s : string) : option (pyval * string) :=
  if prefix "null" s then Some (PNone, drop 4 s)
  else if prefix "true" s then Some (PBool true, drop 4 s)
  else if prefix "false" s then Some (PBool false, drop 5 s)
  else match scan_number s with
       | Some r => Some r
       | None =>
           if prefix "NaN" s then Some (PFloat "NaN", drop 3 s)
           else if prefix "Infinity" s then Some (PFloat "Infinity", drop 8 s)
           else if prefix "-Infinity" s then Some (PFloat "-Infinity", drop 9 s)
           else None
       end.

Inductive parsed (A : Type) :=
| Parsed (a : A) (rest : string)
| Malformed
| OutOfFuel.
Arguments Parsed {A} a rest.
Arguments Malformed {A}.
Arguments OutOfFuel {A}.

(** [scan_once], [JSONArray] and [JSONObject].  [parse_elems] and
    [parse_members] start at the first character of an element, resp. of a
    key, and run to the closing bracket. *)
Fixpoint parse_value (fuel : nat) (s : string) : parsed pyval :=
  match fuel with
  | O => OutOfFuel
  | S f =>
      match s with
      | EmptyString => Malformed
      | String c r =>
          if Ascii.eqb c dquote then
            match scan_string r with
            | Some (t, rest) => Parsed (PStr t) rest
            | None => Malformed
            end
          else if Ascii.eqb c "{" then
            match eat "}" (skip_ws r) with
            | Some rest => Parsed (PDict []) rest
            | None =>
                match parse_members f (skip_ws r) with
                | Parsed kvs rest => Parsed (PDict (dict_of_pairs kvs)) rest
                | Malformed => Malformed
                | OutOfFuel => OutOfFuel
                end
            end
          else if Ascii.eqb c "[" then
            match eat "]" (skip_ws r) with
            | Some rest => Parsed (PList []) rest
            | None =>
                match parse_elems f (skip_ws r) with
                | Parsed vs rest => Parsed (PList vs) rest
                | Malformed => Malformed
                | OutOfFuel => OutOfFuel
                end
            end
          else
            match scan_atom s with
            | Some (v, rest) => Parsed v rest
            | None => Malformed
            end
      end
  end
with parse_elems (fuel : nat) (s : string) : parsed (list pyval) :=
  match fuel with
  | O => OutOfFuel
  | S f =>
      match parse_value f s with
      | Parsed v rest =>
          match eat "," (skip_ws rest) with
          | Some r =>
              match parse_elems f (skip_ws r) with
              | Parsed vs rest' => Parsed (v :: vs) rest'
              | Malformed => Malformed
              | OutOfFuel => OutOfFuel
              end
          | None =>
              match eat "]" (skip_ws rest) with
              | Some r => Parsed [v] r
              | None => Malformed
              end
          end
      | Malformed => Malformed
      | OutOfFuel => OutOfFuel
      end
  end
with parse_members (fuel : nat) (s : string) : parsed (list (string * pyval)) :=
  match fuel with
  | O => OutOfFuel
  | S f =>
      match eat dquote s with
      | Some r =>
          match scan_string r with
          | Some (k, rest) =>
              match eat ":" (skip_ws rest) with
              | Some r1 =>
                  match parse_value f (skip_ws r1) with
                  | Parsed v rest1 =>
                      match eat "," (skip_ws rest1) with
                      | Some r2 =>
                          match parse_members f (skip_ws r2) with
                          | Parsed kvs rest' => Parsed ((k, v) :: kvs) rest'
                          | Malformed => Malformed
                          | OutOfFuel => OutOfFuel
                          end
                      | None =>
                          match eat "}" (skip_ws rest1) with
                          | Some r2 => Parsed [(k, v)] r2
                          | None => Malformed
                          end
                      end
                  | Malformed => Malformed
                  | OutOfFuel => OutOfFuel
                  end
              | None => Malformed
              end
          | None => Malformed
          end
      | None => Malformed
      end
  end.

(** One layer of each of the three functions, over the functions it calls
    with the fuel that is left. *)
Definition value_step (pe : string -> parsed (list pyval))
    (pm : string -> parsed (list (string * pyval))) (s : string) : parsed pyval :=
  match s with
  | EmptyString => Malformed
  | String c r =>
      if Ascii.eqb c dquote then
        match scan_string r with
        | Some (t, rest) => Parsed (PStr t) rest
        | None => Malformed
        end
      else if Ascii.eqb c "{" then
        match eat "}" (skip_ws r) with
        | Some rest => Parsed (PDict []) rest
        | None =>
            match pm (skip_ws r) with
            | Parsed kvs rest => Parsed (PDict (dict_of_pairs kvs)) rest
            | Malformed => Malformed
            | OutOfFuel => OutOfFuel
            end
        end
      else if Ascii.eqb c "[" then
        match eat "]" (skip_ws r) with
        | Some rest => Parsed (PList []) rest
        | None =>
            match pe (skip_ws r) with
            | Parsed vs rest => Parsed (PList vs) rest
            | Malformed => Malformed
            | OutOfFuel => OutOfFuel
            end
        end
      else
        match scan_atom s with
        | Some (v, rest) => Parsed v rest
        | None => Malformed
        end
  end.

Definition elems_step (pv : string -> parsed pyval)
    (pe : string -> parsed (list pyval)) (s : string) : parsed (list pyval) :=
  match pv s with
  | Parsed v rest =>
      match eat "," (skip_ws rest) with
      | Some r =>
          match pe (skip_ws r) with
          | Parsed vs rest' => Parsed (v :: vs) rest'
          | Malformed => Malformed
          | OutOfFuel => OutOfFuel
          end
      | None =>
          match eat "]" (skip_ws rest) with
          | Some r => Parsed [v] r
          | None => Malformed
          end
      end
  | Malformed => Malformed
  | OutOfFuel => OutOfFuel
  end.

Definition members_step (pv : string -> parsed pyval)
    (pm : string -> parsed (list (string * pyval))) (s : string)
  : parsed (list (string * pyval)) :=
  match eat dquote s with
  | Some r =>
      match scan_string r with
      | Some (k, rest) =>
          match eat ":" (skip_ws rest) with
          | Some r1 =>
              match pv (skip_ws r1) with
              | Parsed v rest1 =>
                  match eat "," (skip_ws rest1) with
                  | Some r2 =>
                      match pm (skip_ws r2) with
                      | Parsed kvs rest' => Parsed ((k, v) :: kvs) rest'
                      | Malformed => Malformed
                      | OutOfFuel => OutOfFuel
                      end
                  | None =>
                      match eat "}" (skip_ws rest1) with
                      | Some r2 => Parsed [(k, v)] r2
                      | None => Malformed
                      end
                  end
              | Malformed => Malformed
              | OutOfFuel => OutOfFuel
              end
          | None => Malformed
          end
      | None => Malformed
      end
  | None => Malformed
  end.

(** [p'] gives what [p] gives wherever [p] does not run out of fuel. *)
Definition agrees {A : Type} (p p' : string -> parsed A) : Prop :=
  forall s, p s <> OutOfFuel -> p' s = p s.

(** [p] leaves less text than it is given. *)
Definition consumes {A : Type} (p : string -> parsed A) : Prop :=
  forall s a rest, p s = Parsed a rest -> String.length rest < String.length s.

(** [json.loads(s)]: one value, white space around it, nothing else.  [None]
    stands for [JSONDecodeError]. *)
Definition loads (s : string) : option pyval :=
  match parse_value (2 * String.length s + 1) (skip_ws s) with
  | Parsed v rest =>
      match skip_ws rest with
      | EmptyString => Some v
      | _ => None
      end
  | _ => None
  end.

(** *** Encoder *)

Definition hex_digit (n : nat) : ascii :=
  if (n <? 10)%nat then ascii_of_nat (48 + n) else ascii_of_nat (87 + n).

(** [ESCAPE_DCT] with [ensure_ascii]: everything outside [' '..'~'], the quote
    and the backslash is escaped. *)
Definition escape_char (c : ascii) : string :=
  let n := nat_of_ascii c in
  if Ascii.eqb c dquote then String backslash (String dquote "")
  else if Ascii.eqb c backslash then String backslash (String backslash "")
  else if Ascii.eqb c char_nl then String backslash "n"
  else if Ascii.eqb c char_cr then String backslash "r"
  else if Ascii.eqb c char_tab then String backslash "t"
  else if Ascii.eqb c char_bs then String backslash "b"
  else if Ascii.eqb c char_ff then String backslash "f"
  else if ((n <? 32) || (126 <? n))%nat then
    String backslash
      (String "u" (String "0" (String "0"
         (String (hex_digit (n / 16)) (String (hex_digit (n mod 16)) "")))))
  else String c "".

Fixpoint escape (s : string) : string :=
  match s with
  | EmptyString => EmptyString
  | String c r => escape_char c ++ escape r
  end.

Definition encode_string (s : string) : string :=
  String dquote (escape s ++ String dquote "").

Fixpoint spaces (n : nat) : string :=
  match n with
  | O => ""
  | S m => String " " (spaces m)
  end.

(** The newline and indentation written before an item at [level]. *)
Definition newline_indent (level : nat) : string :=
  String char_nl (spaces (2 * level)).

(** [json.dumps(v, indent=2)] at nesting depth [level]: the first item of a
    container follows the opening bracket, each later one a comma. *)
Fixpoint encode (level : nat) (v : pyval) : string :=
  let array l :=
    match l with
    | [] => "[]"
    | x :: xs =>
        "[" ++ newline_indent (S level) ++ encode (S level) x
            ++ fold_right
                 (fun y acc => "," ++ newline_indent (S level) ++ encode (S level) y ++ acc)
                 "" xs
            ++ newline_indent level ++ "]"
    end in
  match v with
  | PNone => "null"
  | PBool true => "true"
  | PBool false => "false"
  | PInt z => PyStr.of_Z z
  | PFloat t => t
  | PStr s => encode_string s
  | PList l => array l
  | PTuple l => array l
  | PDict d =>
      match d with
      | [] => "{}"
      | kx :: xs =>
          "{" ++ newline_indent (S level) ++ encode_string (fst kx) ++ ": "
              ++ encode (S level) (snd kx)
              ++ fold_right
                   (fun kv acc => "," ++ newline_indent (S level) ++ encode_string (fst kv)
                                      ++ ": " ++ encode (S level) (snd kv) ++ acc)
                   "" xs
              ++ newline_indent level ++ "}"
      end
  end.

Definition dumps (v : pyval) : string := encode 0 v.

(** What a value becomes in JSON: a tuple is written as an array. *)
Fixpoint jsonify (v : pyval) : pyval :=
  match v with
  | PList l => PList (map jsonify l)
  | PTuple l => PList (map jsonify l)
  | PDict d => PDict (map (fun kv => (fst kv, jsonify (snd kv))) d)
  | _ => v
  end.

End Json.

(* ================================================================== *)
(** ** Dynamic operations on Python values *)
(* ================================================================== *)

Definition rbind {A B : Type} (r : result A) (k : A -> result B) : result B :=
  match r with
  | Ok a => k a
  | Raise e => Raise e
  end.

Notation "x <~ c ;; k" := (rbind c (fun x => k))
  (at level 61, c at next level, right associativity).

Module Py.

(** [d.get(k, default)]: only a dict has [get]. *)
Definition get (d : pyval) (k : string) (default : pyval) : result pyval :=
  match d with
  | PDict l => Ok (match dict_get k l with Some v => v | None => default end)
  | _ => Raise AttributeError
  end.

(** [v.lower()]: only a str has [lower]. *)
Definition lower (v : pyval) : result string :=
  match v with
  | PStr s => Ok (PyStr.lower s)
  | _ => Raise AttributeError
  end.

Fixpoint chars (s : string) : list pyval :=
  match s with
  | EmptyString => []
  | String c r => PStr (String c "") :: chars r
  end.

(** [for x in v]: the items of a list or tuple, the characters of a str, the
    keys of a dict; nothing else is iterable. *)
Definition iter (v : pyval) : result (list pyval) :=
  match v with
  | PList l => Ok l
  | PTuple l => Ok l
  | PStr s => Ok (chars s)
  | PDict d => Ok (map (fun kv => PStr (fst kv)) d)
  | _ => Raise TypeError
  end.

(** [v == s] for a str [s]. *)
Definition eq_str (v : pyval) (s : string) : bool :=
  match v with
  | PStr t => t =? s
  | _ => false
  end.

(** [key in v] for a str [key]. *)
Definition contains (v : pyval) (key : string) : result bool :=
  match v with
  | PDict d => Ok (match dict_get key d with Some _ => true | None => false end)
  | PList l => Ok (existsb (fun x => eq_str x key) l)
  | PTuple l => Ok (existsb (fun x => eq_str x key) l)
  | PStr s => Ok (PyStr.contains key s)
  | _ => Raise TypeError
  end.

(** [v[key]] for a str [key]: a dict looks the key up, every other value
    refuses a str index. *)
Definition getitem (v : pyval) (key : string) : result pyval :=
  match v with
  | PDict d => match dict_get key d with
               | Some x => Ok x
               | None => Raise KeyError
               end
  | _ => Raise TypeError
  end.

(** [v[key] = x] for a str [key]. *)
Definition setitem (v : pyval) (key : string) (x : pyval) : result pyval :=
  match v with
  | PDict d => Ok (PDict (dict_set key x d))
  | _ => Raise TypeError
  end.

End Py.

(* ================================================================== *)
(** ** The outside world and the state of a run *)
(* ================================================================== *)

(** A directory tree, as [rglob] sees it. *)
Unset Elimination Schemes.
Inductive node :=
| File
| Dir (entries : list (string * node)).
Set Elimination Schemes.

(** A [pathlib.Path] is its sequence of parts; the root folder, as the caller
    wrote it, is the first part. *)
Definition Path := list string.

(** What [os.stat] gives: the size, and the modification time as [str]
    prints that float. *)
Record stat_result := { st_size : Z; st_mtime : string }.

(** The oracles a run consults.  [os_stat] gives [None] where [os.stat] raises
    [OSError]; [run_ffprobe] gives the standard output of the child process,
    [None] where [subprocess.run] raises; [fs_dir] gives the entries of a
    root folder, [None] where there is no such directory. *)
Record Env := {
  path_sep : string;
  os_stat : string -> option stat_result;
  run_ffprobe : string -> option string;
  fs_dir : string -> option (list (string * node))
}.

(** What an observer of a run sees. *)
Inductive event :=
| EvStat (p : string)
| EvProbe (p : string)
| EvProgress (cur total : nat).

(** The mutable state: the content of the file [scan_cache.json] ([None] when
    there is no such file) and the calls made so far. *)
Record State := { cache_file : option string; events : list event }.

Definition M (A : Type) : Type := State -> result A * State.

Definition ret {A : Type} (a : A) : M A := fun st => (Ok a, st).

Definition raise {A : Type} (e : exn) : M A := fun st => (Raise e, st).

Definition bind {A B : Type} (m : M A) (k : A -> M B) : M B :=
  fun st =>
    match m st with
    | (Ok a, st') => k a st'
    | (Raise e, st') => (Raise e, st')
    end.

Definition lift {A : Type} (r : result A) : M A := fun st => (r, st).

(** The state once [e] has been observed. *)
Definition log (st : State) (e : event) : State :=
  {| cache_file := cache_file st; events := (events st ++ [e])%list |}.

Definition emit (e : event) : M unit := fun st => (Ok tt, log st e).

Notation "x <- c ;; k" := (bind c (fun x => k))
  (at level 61, c at next level, right associativity).
Notation "c ;;; k" := (bind c (fun _ => k))
  (at level 61, right associativity).

(* ================================================================== *)
(** ** Cache store *)
(* ================================================================== *)

(** [load_cache()]: the parsed file when it exists, [{}] otherwise. *)
Definition load_cache : M pyval :=
  fun st =>
    match cache_file st with
    | Some text =>
        match Json.loads text with
        | Some v => (Ok v, st)
        | None => (Raise JSONDecodeError, st)
        end
    | None => (Ok (PDict []), st)
    end.

(** [save_cache(cache)]: the file is overwritten with [json.dump(cache, f,
    indent=2)]. *)
Definition save_cache (cache : pyval) : M unit :=
  fun st => (Ok tt, {| cache_file := Some (Json.dumps cache); events := events st |}).

(** [str(path)]: the parts joined by the separator, the root folder being in
    the form [pathlib] prints. *)
Definition path_str (env : Env) (p : Path) : string :=
  PyStr.join (path_sep env) p.

(** The f-string ["{st.st_size}_{st.st_mtime}"]. *)
Definition signature_of (s : stat_result) : string :=
  PyStr.of_Z (st_size s) ++ "_" ++ st_mtime s.

(** [file_signature(path)] *)
Definition file_signature (env : Env) (path : Path) : M string :=
  emit (EvStat (path_str env path)) ;;;
  match os_stat env (path_str env path) with
  | Some s => ret (signature_of s)
  | None => raise OSError
  end.

(* ================================================================== *)
(** ** Audio scan *)
(* ================================================================== *)

(** The tuple [(label, lang, codec, profile)] appended for a stream with label
    [l]. *)
Definition track_of (l : format_label) (lang : pyval) (codec profile : string) : pyval :=
  PTuple [PStr (label_text l); lang; PStr codec; PStr profile].

(** The body of the loop over streams: the track appended for stream [s], if
    any. *)
Definition scan_stream (s : pyval) : result (option pyval) :=
  c <~ Py.get s "codec_name" (PStr "") ;;
  codec <~ Py.lower c ;;
  p <~ Py.get s "profile" (PStr "") ;;
  profile <~ Py.lower p ;;
  tags <~ Py.get s "tags" (PDict []) ;;
  lang <~ Py.get tags "language" (PStr "unknown") ;;
  Ok (match classify codec profile with
      | Some l => Some (track_of l lang codec profile)
      | None => None
      end).

Fixpoint scan_streams (ss : list pyval) : result (list pyval) :=
  match ss with
  | [] => Ok []
  | s :: r =>
      t <~ scan_stream s ;;
      ts <~ scan_streams r ;;
      Ok (match t with Some x => x :: ts | None => ts end)
  end.

(** What the [try] block leaves in [data]: the parsed output of the child
    process, [None] when [subprocess.run] or [json.loads] raises. *)
Definition probe_output (env : Env) (key : string) : option pyval :=
  match run_ffprobe env key with
  | Some out => Json.loads out
  | None => None
  end.

(** The [try] block. *)
Definition probe (env : Env) (key : string) : M (option pyval) :=
  emit (EvProbe key) ;;;
  ret (probe_output env key).

(** The test [key in cache and cache[key]["sig"] == sig]. *)
Definition cache_hit (cache : pyval) (key sig : string) : result bool :=
  present <~ Py.contains cache key ;;
  if present then
    entry <~ Py.getitem cache key ;;
    s <~ Py.getitem entry "sig" ;;
    Ok (Py.eq_str s sig)
  else Ok false.

(** The entry [{"sig": sig, "tracks": tracks}]. *)
Definition entry_of (sig : string) (tracks : list pyval) : pyval :=
  PDict [("sig", PStr sig); ("tracks", PList tracks)].

(** [scan_video(path, cache)]: the tracks returned and the cache dictionary
    as the call leaves it. *)
Definition scan_video (env : Env) (path : Path) (cache : pyval) : M (pyval * pyval) :=
  sig <- file_signature env path ;;
  let key := path_str env path in
  hit <- lift (cache_hit cache key sig) ;;
  if hit then
    entry <- lift (Py.getitem cache key) ;;
    tracks <- lift (Py.getitem entry "tracks") ;;
    ret (tracks, cache)
  else
    out <- probe env key ;;
    match out with
    | None => ret (PList [], cache)
    | Some data =>
        streams <- lift (Py.get data "streams" (PList [])) ;;
        ss <- lift (Py.iter streams) ;;
        tracks <- lift (scan_streams ss) ;;
        cache' <- lift (Py.setitem cache key (entry_of sig tracks)) ;;
        ret (PList tracks, cache')
    end.

(* ================================================================== *)
(** ** Folder scan *)
(* ================================================================== *)

Definition VIDEO_EXTENSIONS : list string :=
  [".mkv"; ".mp4"; ".avi"; ".mov"; ".ts"; ".m2ts"].

(** [Path.name] *)
Definition name (p : Path) : string := last p "".

(** [Path.suffix]: the name from its last dot on, when that dot is neither the
    first nor the last character of the name. *)
Definition suffix (p : Path) : string :=
  let n := name p in
  match PyStr.rfind "." n with
  | Some i =>
      if ((0 <? i) && (i <? String.length n - 1))%nat
      then substring i (String.length n - i) n
      else ""
  | None => ""
  end.

(** The filter of the generator: [f.suffix.lower() in VIDEO_EXTENSIONS]. *)
Definition is_video (p : Path) : bool :=
  existsb (String.eqb (PyStr.lower (suffix p))) VIDEO_EXTENSIONS.

(** The directories of a subtree, the root first, each with its path. *)
Fixpoint dirs_of (p : Path) (n : node) : list (Path * list (string * node)) :=
  match n with
  | File => []
  | Dir es =>
      (p, es) ::
      (fix go (l : list (string * node)) : list (Path * list (string * node)) :=
         match l with
         | [] => []
         | (nm, c) :: r => (dirs_of (p ++ [nm]) c ++ go r)%list
         end) es
  end.

(** [Path(root).rglob("*")]: every entry of every directory of the subtree,
    files and directories alike; the root itself is not yielded. *)
Definition rglob (root : Path) (es : list (string * node)) : list Path :=
  flat_map (fun d => map (fun e => (fst d ++ [fst e])%list) (snd d)) (dirs_of root (Dir es)).

(** The list [files] of [scan_folders]. *)
Definition collect_files (env : Env) (folders : list string) : list Path :=
  flat_map (fun folder =>
              match fs_dir env folder with
              | Some es => filter is_video (rglob [folder] es)
              | None => []
              end) folders.

(** The rows appended to [results] for one file: [(str(file), *t)] for each
    [t] of [tracks]. *)
Fixpoint rows_of (file : string) (ts : list pyval) : result (list pyval) :=
  match ts with
  | [] => Ok []
  | t :: r =>
      fields <~ Py.iter t ;;
      rows <~ rows_of file r ;;
      Ok (PTuple (PStr file :: fields) :: rows)
  end.

(** The loop [for i, file in enumerate(files, 1)], from index [i] on. *)
Fixpoint scan_loop (env : Env) (total i : nat) (files : list Path)
    (cache : pyval) (results : list pyval) : M (pyval * list pyval) :=
  match files with
  | [] => ret (cache, results)
  | file :: rest =>
      tc <- scan_video env file cache ;;
      ts <- lift (Py.iter (fst tc)) ;;
      rows <- lift (rows_of (path_str env file) ts) ;;
      emit (EvProgress i total) ;;;
      scan_loop env total (S i) rest (snd tc) (results ++ rows)%list
  end.

(** [scan_folders(folders, progress_cb)]; each call of [progress_cb] is an
    [EvProgress] event. *)
Definition scan_folders (env : Env) (folders : list string) : M (list pyval) :=
  cache <- load_cache ;;
  let files := collect_files env folders in
  cr <- scan_loop env (List.length files) 1 files cache [] ;;
  save_cache (fst cr) ;;;
  ret (snd cr).

(* ================================================================== *)
(** ** The decision table of the specification *)
(* ================================================================== *)

(** The classifier as the specification words it: four rules in priority
    order, on lower-cased strings. *)
Definition classify_spec (codec profile : string) : option format_label :=
  if PyStr.contains "atmos" profile then Some DolbyAtmos
  else if existsb (String.eqb codec) ["eac3"; "e-ac-3"] && PyStr.contains "joc" profile
  then Some DolbyAtmos
  else if (codec =? "dts") && PyStr.contains "x" profile then Some DTSX
  else None.

(* ================================================================== *)
(** ** Observations on a run *)
(* ================================================================== *)

(** The calls of the progress callback among the events, as pairs
    [(current, total)]. *)
Fixpoint progress_of (evs : list event) : list (nat * nat) :=
  match evs with
  | [] => []
  | EvProgress c t :: r => (c, t) :: progress_of r
  | _ :: r => progress_of r
  end.

Definition is_ok {A : Type} (r : result A) : bool :=
  match r with
  | Ok _ => true
  | Raise _ => false
  end.

(** [descendant es rel n]: following the names [rel] down from a directory
    with entries [es] leads to the entry [n], a file or a directory. *)
Inductive descendant : list (string * node) -> list string -> node -> Prop :=
| desc_child es nm n :
    In (nm, n) es -> descendant es [nm] n
| desc_deeper es nm es' rel n :
    In (nm, Dir es') es -> descendant es' rel n -> descendant es (nm :: rel) n.

(** The two branches of [scan_video] as results: what the cache-hit branch
    returns, and what the probing branch returns from the outcome of the
    [try] block. *)
Definition hit_result (cache : pyval) (key : string) : result (pyval * pyval) :=
  entry <~ Py.getitem cache key ;;
  tracks <~ Py.getitem entry "tracks" ;;
  Ok (tracks, cache).

(** The probing branch. *)
Definition miss_result (out : option pyval) (cache : pyval) (key sig : string)
  : result (pyval * pyval) :=
  match out with
  | None => Ok (PList [], cache)
  | Some data =>
      streams <~ Py.get data "streams" (PList []) ;;
      ss <~ Py.iter streams ;;
      tracks <~ scan_streams ss ;;
      cache' <~ Py.setitem cache key (entry_of sig tracks) ;;
      Ok (PList tracks, cache')
  end.

(** The tracks [scan_video] computes from the parsed output [data]. *)
Definition tracks_of_data (data : pyval) : result (list pyval) :=
  streams <~ Py.get data "streams" (PList []) ;;
  ss <~ Py.iter streams ;;
  scan_streams ss.

(* ================================================================== *)
(** ** Values the codec carries *)
(* ================================================================== *)

(** The items of an array after the first, and the members of an object
    after the first, as the encoder writes them at [level]. *)
Definition encode_items (level : nat) (l : list pyval) : string :=
  fold_right
    (fun y acc => "," ++ Json.newline_indent level ++ Json.encode level y ++ acc) "" l.

Definition encode_members (level : nat) (l : list (string * pyval)) : string :=
  fold_right
    (fun kv acc => "," ++ Json.newline_indent level ++ Json.encode_string (fst kv)
                       ++ ": " ++ Json.encode level (snd kv) ++ acc) "" l.

(** What may follow a number in a JSON text without being read as part of
    it. *)
Definition value_end (rest : string) : bool :=
  match rest with
  | EmptyString => true
  | String c _ =>
      negb (Json.is_digit c || Ascii.eqb c "." || Ascii.eqb c "e" || Ascii.eqb c "E")
  end.

(** [c] may start a JSON value: it is neither white space nor punctuation
    that closes or separates. *)
Definition value_start (c : ascii) : bool :=
  negb (Json.is_ws c || Ascii.eqb c "]" || Ascii.eqb c "}" || Ascii.eqb c ","
        || Ascii.eqb c ":").

(** A text that does not start with a digit. *)
Definition nondigit_start (rest : string) : bool :=
  match rest with
  | EmptyString => true
  | String c _ => negb (Json.is_digit c)
  end.

Fixpoint digits_only (d : string) : bool :=
  match d with
  | EmptyString => true
  | String c r => Json.is_digit c && digits_only r
  end.

(** The text of a float: what the scanner reads back as that very float. *)
Definition float_text (t : string) : Prop :=
  forall rest, value_end rest = true -> Json.scan_atom (t ++ rest) = Some (PFloat t, rest).

(** The values [json.dump] writes and [json.load] gives back: a dict has no
    key twice, a float is denoted by a number text. *)
Unset Elimination Schemes.
Inductive storable : pyval -> Prop :=
| storable_none : storable PNone
| storable_bool b : storable (PBool b)
| storable_int z : storable (PInt z)
| storable_float t : float_text t -> storable (PFloat t)
| storable_str s : storable (PStr s)
| storable_list l : Forall storable l -> storable (PList l)
| storable_tuple l : Forall storable l -> storable (PTuple l)
| storable_dict d :
    NoDup (map fst d) -> Forall (fun kv => storable (snd kv)) d -> storable (PDict d).
Set Elimination Schemes.

(** What [json.load] returns: a storable value without tuples. *)
Definition json_value (v : pyval) : Prop := storable v /\ Json.jsonify v = v.

(** [v] is read back: with enough fuel, decoding the text written for [v],
    whatever follows it, gives [v] with its tuples turned into lists. *)
Definition reads_back (v : pyval) : Prop :=
  exists n, forall fuel level rest,
    n <= fuel -> value_end rest = true ->
    Json.parse_value fuel (Json.encode level v ++ rest)
    = Json.Parsed (Json.jsonify v) rest.

(* ================================================================== *)
(** ** The cache as the data model describes it *)
(* ================================================================== *)

Record TrackRecord := {
  format : format_label;
  language : string;
  codec : string;
  profile : string
}.

Record CacheEntry := {
  entry_sig : string;
  entry_tracks : list TrackRecord
}.

(** A cache mapping, in key order. *)
Definition CacheMap := list (string * CacheEntry).

(** The Python values [scan_video] builds for them. *)
Definition track_value (t : TrackRecord) : pyval :=
  track_of (format t) (PStr (language t)) (codec t) (profile t).

Definition entry_value (e : CacheEntry) : pyval :=
  entry_of (entry_sig e) (map track_value (entry_tracks e)).

Definition cache_value (m : CacheMap) : pyval :=
  PDict (map (fun ke => (fst ke, entry_value (snd ke))) m).

(** Reading a Python value as a cache mapping; a track may be a tuple, as
    built, or a list, as loaded. *)
Definition label_of_text (s : string) : option format_label :=
  if s =? "Dolby Atmos" then Some DolbyAtmos
  else if s =? "DTS:X" then Some DTSX
  else None.

Definition track_fields (fields : list pyval) : option TrackRecord :=
  match fields with
  | [PStr l; PStr lang; PStr c; PStr p] =>
      match label_of_text l with
      | Some f => Some {| format := f; language := lang; codec := c; profile := p |}
      | None => None
      end
  | _ => None
  end.

Definition track_record (v : pyval) : option TrackRecord :=
  match v with
  | PList fields => track_fields fields
  | PTuple fields => track_fields fields
  | _ => None
  end.

Fixpoint all_some {A : Type} (l : list (option A)) : option (list A) :=
  match l with
  | [] => Some []
  | Some x :: r =>
      match all_some r with
      | Some xs => Some (x :: xs)
      | None => None
      end
  | None :: _ => None
  end.

Definition cache_entry (v : pyval) : option CacheEntry :=
  match v with
  | PDict d =>
      match dict_get "sig" d, dict_get "tracks" d with
      | Some (PStr s), Some (PList ts) =>
          match all_some (map track_record ts) with
          | Some trs => Some {| entry_sig := s; entry_tracks := trs |}
          | None => None
          end
      | _, _ => None
      end
  | _ => None
  end.

Definition cache_entries (v : pyval) : option CacheMap :=
  match v with
  | PDict d =>
      all_some (map (fun kv =>
                       match cache_entry (snd kv) with
                       | Some e => Some (fst kv, e)
                       | None => None
                       end) d)
  | _ => None
  end.

(** A cache of two files, one with an Atmos and a DTS:X track. *)
Definition sample_map : CacheMap :=
  [("M/a.mkv",
    {| entry_sig := "10_1.5";
       entry_tracks :=
         [{| format := DolbyAtmos; language := "eng"; codec := "truehd";
             profile := "dolby truehd + dolby atmos" |};
          {| format := DTSX; language := "fre"; codec := "dts";
             profile := "dts-hd ma + dts:x" |}] |});
   ("M/b.mkv", {| entry_sig := "7_0.25"; entry_tracks := [] |})].

(* ================================================================== *)
(** ** Induction principles for the nested types *)
(* ================================================================== *)

Definition node_induction (P : node -> Prop) (HF : P File)
    (HD : forall es, Forall (fun e => P (snd e)) es -> P (Dir es)) : forall n, P n :=
  fix go (n : node) : P n :=
    match n with
    | File => HF
    | Dir es =>
        HD es ((fix all (l : list (string * node)) : Forall (fun e => P (snd e)) l :=
                  match l with
                  | [] => Forall_nil _
                  | e :: r => Forall_cons e (go (snd e)) (all r)
                  end) es)
    end.

Definition pyval_induction (P : pyval -> Prop)
    (HNone : P PNone) (HBool : forall b, P (PBool b)) (HInt : forall z, P (PInt z))
    (HFloat : forall t, P (PFloat t)) (HStr : forall s, P (PStr s))
    (HList : forall l, Forall P l -> P (PList l))
    (HTuple : forall l, Forall P l -> P (PTuple l))
    (HDict : forall d, Forall (fun kv => P (snd kv)) d -> P (PDict d))
  : forall v, P v :=
  fix go (v : pyval) : P v :=
    let all :=
      fix all (l : list pyval) : Forall P l :=
        match l with
        | [] => Forall_nil _
        | x :: r => Forall_cons x (go x) (all r)
        end in
    match v with
    | PNone => HNone
    | PBool b => HBool b
    | PInt z => HInt z
    | PFloat t => HFloat t
    | PStr s => HStr s
    | PList l => HList l (all l)
    | PTuple l => HTuple l (all l)
    | PDict d =>
        HDict d ((fix alld (l : list (string * pyval)) : Forall (fun kv => P (snd kv)) l :=
                    match l with
                    | [] => Forall_nil _
                    | kv :: r => Forall_cons kv (go (snd kv)) (alld r)
                    end) d)
    end.

(* ================================================================== *)
(** ** Sample worlds *)
(* ================================================================== *)

Definition sample_stat : stat_result := {| st_size := 10; st_mtime := "1.5" |}.

Definition st0 : State := {| cache_file := None; events := [] |}.

(** What ffprobe prints for a file with one TrueHD/Atmos stream and one AAC
    stream. *)
Definition atmos_output : string :=
  Json.dumps
    (PDict [("streams",
             PList [PDict [("codec_name", PStr "truehd");
                           ("profile", PStr "Dolby TrueHD + Dolby Atmos");
                           ("tags", PDict [("language", PStr "eng")])];
                    PDict [("codec_name", PStr "aac"); ("profile", PStr "LC")]])]).

(** Folder [M] holds three videos and a text file; [M/b.mkv] has vanished by
    the time it is stat-ed; ffprobe finds no stream anywhere. *)
Definition env_gone : Env :=
  {| path_sep := "/";
     os_stat := fun p => if p =? "M/b.mkv" then None else Some sample_stat;
     run_ffprobe := fun _ => Some "{}";
     fs_dir := fun f =>
       if f =? "M"
       then Some [("a.mkv", File); ("b.mkv", File); ("notes.txt", File); ("c.mkv", File)]
       else None |}.

(** Folder [M] holds one video; the ffprobe executable is missing. *)
Definition env_noprobe : Env :=
  {| path_sep := "/";
     os_stat := fun _ => Some sample_stat;
     run_ffprobe := fun _ => None;
     fs_dir := fun f => if f =? "M" then Some [("a.mkv", File)] else None |}.

(** Folder [M] holds an Atmos video, a text file, a directory named like a
    video and, below it, an upper-case [.MP4]. *)
Definition env_atmos : Env :=
  {| path_sep := "/";
     os_stat := fun _ => Some sample_stat;
     run_ffprobe := fun p => if p =? "M/a.mkv" then Some atmos_output else Some "{}";
     fs_dir := fun f =>
       if f =? "M"
       then Some [("a.mkv", File); ("notes.txt", File);
                  ("x.mkv", Dir [("B.MP4", File)])]
       else None |}.

Definition atmos_track : pyval :=
  track_of DolbyAtmos (PStr "eng") "truehd" "dolby truehd + dolby atmos".

(** A cache whose entry for [M/a.mkv] was made when the file had another
    signature. *)
Definition stale_cache : list (string * pyval) :=
  [("M/a.mkv", entry_of "9_1.0" [atmos_track])].

(** A cache whose entry for [M/a.mkv] carries the signature of
    [sample_stat], next to an entry for a file that is no longer scanned. *)
Definition fresh_cache : list (string * pyval) :=
  [("M/a.mkv", entry_of "10_1.5" [atmos_track]);
   ("Z/old.mkv", entry_of "1_2.0" [])].

(* ================================================================== *)
(** ** Further observations on a run *)
(* ================================================================== *)

(** The paths [os.stat] was called on, in order. *)
Fixpoint stats_of (evs : list event) : list string :=
  match evs with
  | [] => []
  | EvStat k :: r => k :: stats_of r
  | _ :: r => stats_of r
  end.

(** How many times the prober was run on [k]. *)
Fixpoint count_probes (k : string) (evs : list event) : nat :=
  match evs with
  | [] => 0
  | EvProbe p :: r => (if p =? k then 1 else 0) + count_probes k r
  | _ :: r => count_probes k r
  end.

(** A result row of file [k]: a tuple whose first field is [k]. *)
Definition row_of_file (k : string) (row : pyval) : Prop :=
  exists fields, row = PTuple (PStr k :: fields).


(** The events of one completed iteration of the loop of [scan_folders] on
    the file [k]: the stat, the probe when there was one, the progress call. *)
Definition file_events (k : string) (probed : bool) (i total : nat) : list event :=
  (EvStat k :: (if probed then [EvProbe k] else []) ++ [EvProgress i total])%list.

(** The events of the completed iterations on the first files of [keys], one
    per element of [probed], counted from [i]. *)
Fixpoint loop_events (keys : list string) (probed : list bool) (i total : nat)
  : list event :=
  match keys, probed with
  | k :: ks, b :: bs => (file_events k b i total ++ loop_events ks bs (S i) total)%list
  | _, _ => []
  end.

(** The events of an iteration on [k] that raised: the stat and, when the
    exception came later, the probe. *)
Definition aborted_events (k : string) (probed : bool) : list event :=
  EvStat k :: (if probed then [EvProbe k] else []).

(** The progress calls of a trace, each with the paths [os.stat] had been
    called on when the call was made, [seen] being those of before. *)
Fixpoint progress_after (seen : list string) (evs : list event)
  : list (nat * nat * list string) :=
  match evs with
  | [] => []
  | EvStat p :: r => progress_after (seen ++ [p])%list r
  | EvProbe _ :: r => progress_after seen r
  | EvProgress c t :: r => (c, t, seen) :: progress_after seen r
  end.

(** Every enumerated file can be stat-ed, and a probe output that parses
    holds streams the loop over streams goes through; a probe may fail. *)
Definition scannable (env : Env) (files : list Path) : Prop :=
  forall f, In f files ->
    os_stat env (path_str env f) <> None
    /\ forall data, probe_output env (path_str env f) = Some data ->
                    is_ok (tracks_of_data data) = true.

(** A track as [scan_video] appends it, or as it comes back from the cache
    file, where the tuple has become a list. *)
Definition track_shape (t : pyval) : Prop :=
  exists l lang codec profile,
    t = PTuple [PStr (label_text l); lang; PStr codec; PStr profile]
    \/ t = PList [PStr (label_text l); lang; PStr codec; PStr profile].

Definition entry_shape (v : pyval) : Prop :=
  exists sig tracks, v = entry_of sig tracks /\ Forall track_shape tracks.

(** A cache all of whose entries were made by [scan_video]. *)
Definition cache_shape (c : pyval) : Prop :=
  exists d, c = PDict d /\ Forall (fun kv => entry_shape (snd kv)) d.

(** A result row: the path, the label, the language as the prober gave it, the
    codec and the profile. *)
Definition row_shape (r : pyval) : Prop :=
  exists k l lang codec profile,
    r = PTuple [PStr k; PStr (label_text l); lang; PStr codec; PStr profile].

(** A text with no dot in it. *)
Fixpoint dotless (s : string) : bool :=
  match s with
  | EmptyString => true
  | String c r => negb (Ascii.eqb c ".") && dotless r
  end.

(** A dot followed by at least one character, none of them a dot. *)
Definition extension_shape (s : string) : bool :=
  match s with
  | EmptyString => false
  | String c e => Ascii.eqb c "." && dotless e && negb (e =? "")
  end.

(** A text made of decimal digits and minus signs only, as [str] prints an
    integer. *)
Definition number_char (c : ascii) : bool :=
  Json.is_digit c || Ascii.eqb c "-".

Fixpoint number_text (s : string) : bool :=
  match s with
  | EmptyString => true
  | String c r => number_char c && number_text r
  end.

(* ================================================================== *)
(** ** The window: folder list, result table, durations *)
(* ================================================================== *)

(** The handlers of [ScannerGUI] that compute on the program's data.  The
    widgets are the data they hold: the [Listbox] of folders and the
    [Treeview] of results are lists of rows, a dialog is the answer it
    returns. *)
Module ScannerGUI.

(** [self.tr(key)], with [self.trans] passed in. *)
Definition tr (trans : pyval) (key : string) : result pyval :=
  Py.get trans key (PStr key).

(** The exceptions of the handlers: those of the pipeline, and the
    [IndexError] of an index out of range. *)
Inductive error := PyExn (e : exn) | IndexError.

Inductive outcome := Returned | Raised (e : error).

(** *** The folder list *)

(** [self.folders] and the rows of the list box [self.folder_list]. *)
Record Folders := { folders : list string; folder_list : list string }.

(** The state [__init__] builds. *)
Definition no_folders : Folders := {| folders := []; folder_list := [] |}.

(** [add_folder()], [choice] being what the directory dialog returned (the
    empty string when it was cancelled). *)
Definition add_folder (choice : string) (g : Folders) : Folders :=
  if negb (choice =? "") && negb (existsb (String.eqb choice) (folders g))
  then {| folders := (folders g ++ [choice])%list;
          folder_list := (folder_list g ++ [choice])%list |}
  else g.

(** [Listbox.delete(idx)]: the row at [idx] goes; no row goes when there is
    none at [idx]. *)
Fixpoint delete {A : Type} (idx : nat) (l : list A) : list A :=
  match l, idx with
  | [], _ => []
  | _ :: r, 0 => r
  | x :: r, S i => x :: delete i r
  end.

(** [remove_folder()], [sel] being what [curselection()] returned.  The list
    box loses its row first; [del self.folders[idx]] raises [IndexError]
    when [self.folders] has no element at [idx]. *)
Definition remove_folder (sel : list nat) (g : Folders) : outcome * Folders :=
  match sel with
  | [] => (Returned, g)
  | idx :: _ =>
      if (idx <? List.length (folders g))%nat
      then (Returned, {| folders := delete idx (folders g);
                         folder_list := delete idx (folder_list g) |})
      else (Raised IndexError, {| folders := folders g;
                                  folder_list := delete idx (folder_list g) |})
  end.

(** [curselection()] returns indices of rows of the list box. *)
Definition selection_of (sel : list nat) (g : Folders) : Prop :=
  Forall (fun i => i < List.length (folder_list g)) sel.

(** The states the two buttons lead to. *)
Inductive reachable : Folders -> Prop :=
| reach_init : reachable no_folders
| reach_add choice g : reachable g -> reachable (add_folder choice g)
| reach_remove sel g :
    reachable g -> selection_of sel g -> reachable (snd (remove_folder sel g)).

(** *** The result table *)

(** [str.isspace] on the code points up to U+00FF. *)
Definition is_space (c : ascii) : bool :=
  let n := nat_of_ascii c in
  (((9 <=? n) && (n <=? 13)) || ((28 <=? n) && (n <=? 32)) || (n =? 133) || (n =? 160))%nat.

Fixpoint lstrip (s : string) : string :=
  match s with
  | EmptyString => EmptyString
  | String c r => if is_space c then lstrip r else s
  end.

Fixpoint rstrip (s : string) : string :=
  match s with
  | EmptyString => EmptyString
  | String c r =>
      match rstrip r with
      | EmptyString => if is_space c then EmptyString else String c EmptyString
      | r' => String c r'
      end
  end.

(** [s.strip()] *)
Definition strip (s : string) : string := rstrip (lstrip s).

(** [r[i]] for an index [i] that is not negative. *)
Definition index (r : pyval) (i : nat) : pyval + error :=
  match r with
  | PList l | PTuple l =>
      match nth_error l i with
      | Some x => inl x
      | None => inr IndexError
      end
  | PStr s =>
      match String.get i s with
      | Some c => inl (PStr (String c EmptyString))
      | None => inr IndexError
      end
  | PDict _ => inr (PyExn KeyError)
  | _ => inr (PyExn TypeError)
  end.

(** [r[2].lower()] *)
Definition language_of (r : pyval) : string + error :=
  match index r 2 with
  | inl x =>
      match Py.lower x with
      | Ok s => inl s
      | Raise e => inr (PyExn e)
      end
  | inr e => inr e
  end.

(** The loop of [populate] from the rows [rs] on: the rows of the tree view
    and the count as the loop leaves them. *)
Fixpoint populate_rows (lf : string) (rs : list pyval) (tree : list pyval) (count : nat)
  : outcome * (list pyval * nat) :=
  match rs with
  | [] => (Returned, (tree, count))
  | r :: rest =>
      if lf =? "" then populate_rows lf rest (tree ++ [r])%list (S count)
      else
        match language_of r with
        | inl l =>
            if negb (l =? lf) then populate_rows lf rest tree count
            else populate_rows lf rest (tree ++ [r])%list (S count)
        | inr e => (Raised e, (tree, count))
        end
  end.

(** What the status bar shows: a translated label, or the label of
    [populate] with the count after its dash. *)
Inductive status_text :=
| Label (text : pyval)
| LabelCount (text : pyval) (count : nat).

Record Table := { tree : list pyval; status : status_text }.

(** [populate()], with [self.trans], the text of the filter entry and
    [self.results] passed in. *)
Definition populate (trans : pyval) (lang_filter : string) (results : list pyval)
    (w : Table) : outcome * Table :=
  let lf := strip (PyStr.lower lang_filter) in
  match populate_rows lf results (tree w) 0 with
  | (Returned, (t, count)) =>
      match tr trans "done" with
      | Ok done => (Returned, {| tree := t; status := LabelCount done count |})
      | Raise e => (Raised (PyExn e), {| tree := t; status := status w |})
      end
  | (Raised e, (t, _)) => (Raised e, {| tree := t; status := status w |})
  end.

(** Whether [populate] inserts the row [r] under the filter [lf], where it
    does not raise on it. *)
Definition row_shown (lf : string) (r : pyval) : bool :=
  (lf =? "")
  || match language_of r with
     | inl l => l =? lf
     | inr _ => false
     end.

(** *** Durations *)

(** [format_time(seconds)] for a whole number of seconds, be it an [int] or a
    float without fractional part. *)
Definition format_time (seconds : Z) : string :=
  if (seconds <? 60)%Z then PyStr.of_Z seconds ++ "s"
  else if (seconds <? 3600)%Z
  then PyStr.of_Z (seconds / 60) ++ "m " ++ PyStr.of_Z (seconds mod 60) ++ "s"
  else PyStr.of_Z (seconds / 3600) ++ "h " ++ PyStr.of_Z ((seconds mod 3600) / 60) ++ "m".

End ScannerGUI.

(* ================================================================== *)
(** * Properties *)
(* ================================================================== *)

(** ** Strings *)

Lemma lower_char_idem (c : ascii) :
  PyStr.lower_char (PyStr.lower_char c) = PyStr.lower_char c.
Proof. destruct c as [[] [] [] [] [] [] [] []]; reflexivity. Qed.

Lemma lower_idem (s : string) : PyStr.lower (PyStr.lower s) = PyStr.lower s.
Proof.
  induction s as [|c s IH]; simpl.
  - reflexivity.
  - now rewrite lower_char_idem, IH.
Qed.

Lemma str_app_assoc (a b c : string) : (a ++ b) ++ c = a ++ (b ++ c).
Proof. induction a as [|x a IH]; simpl; [reflexivity|now rewrite IH]. Qed.

Lemma str_app_nil_r (a : string) : a ++ "" = a.
Proof. induction a as [|x a IH]; simpl; [reflexivity|now rewrite IH]. Qed.

Lemma str_length_app (a b : string) :
  String.length (a ++ b) = String.length a + String.length b.
Proof. induction a as [|x a IH]; simpl; [reflexivity|now rewrite IH]. Qed.

(** ** Classifier *)

Lemma classify_eq_spec (codec profile : string) :
  classify codec profile = classify_spec codec profile.
Proof.
  unfold classify, classify_spec; simpl.
  destruct (PyStr.contains "atmos" profile); simpl.
  - reflexivity.
  - rewrite andb_false_r, orb_false_r. reflexivity.
Qed.

Lemma scan_stream_classifies (d : list (string * pyval))
    (codec_name profile : string) (tags lang : pyval) :
  dict_get "codec_name" d = Some (PStr codec_name) ->
  dict_get "profile" d = Some (PStr profile) ->
  Py.get (PDict d) "tags" (PDict []) = Ok tags ->
  Py.get tags "language" (PStr "unknown") = Ok lang ->
  scan_stream (PDict d) =
    Ok (match classify_stream codec_name profile with
        | Some l => Some (track_of l lang (PyStr.lower codec_name) (PyStr.lower profile))
        | None => None
        end).
Proof.
  intros Hc Hp Ht Hl. unfold scan_stream.
  cbn [Py.get rbind] in *. rewrite Hc, Hp. cbn [Py.lower rbind].
  injection Ht as ->. rewrite Hl. reflexivity.
Qed.

(** C1. Whatever the case of the codec and profile strings, the label given to
    a stream follows the four rules in priority order: a profile containing
    "atmos" gives Dolby Atmos; else codec "eac3" or "e-ac-3" with a profile
    containing "joc" gives Dolby Atmos; else codec "dts" with a profile
    containing "x" gives DTS:X; else the stream gets no track.  The loop body
    of [scan_video] appends a track exactly when the table gives a label, and
    the four examples of the specification come out as stated. *)
Theorem classify_first_match_wins :
  (forall codec_name profile,
      classify_stream codec_name profile
      = classify_spec (PyStr.lower codec_name) (PyStr.lower profile))
  /\ (forall codec_name profile,
         classify_stream (PyStr.lower codec_name) (PyStr.lower profile)
         = classify_stream codec_name profile)
  /\ (forall d codec_name profile tags lang,
         dict_get "codec_name" d = Some (PStr codec_name) ->
         dict_get "profile" d = Some (PStr profile) ->
         Py.get (PDict d) "tags" (PDict []) = Ok tags ->
         Py.get tags "language" (PStr "unknown") = Ok lang ->
         scan_stream (PDict d) =
           Ok (match classify_spec (PyStr.lower codec_name) (PyStr.lower profile) with
               | Some l =>
                   Some (track_of l lang (PyStr.lower codec_name) (PyStr.lower profile))
               | None => None
               end))
  /\ classify_stream "truehd" "dolby truehd atmos" = Some DolbyAtmos
  /\ classify_stream "eac3" "ddp joc" = Some DolbyAtmos
  /\ classify_stream "dts" "dts-x" = Some DTSX
  /\ classify_stream "aac" "lc" = None
  /\ classify_stream "TrueHD" "Dolby TrueHD ATMOS" = Some DolbyAtmos.
Proof.
  split; [|split; [|split]].
  - intros. unfold classify_stream. apply classify_eq_spec.
  - intros. unfold classify_stream. now rewrite !lower_idem.
  - intros d c p tags lang Hc Hp Ht Hl.
    rewrite (scan_stream_classifies d c p tags lang Hc Hp Ht Hl).
    unfold classify_stream. now rewrite classify_eq_spec.
  - repeat split; reflexivity.
Qed.

(** ** Cache store: loading *)

Lemma load_cache_state (st : State) : snd (load_cache st) = st.
Proof.
  unfold load_cache.
  destruct (cache_file st) as [text|]; [destruct (Json.loads text)|]; reflexivity.
Qed.

(** C4, as stated, fails: a cache file that does not parse makes [load_cache]
    raise, and a file that parses to something else than a mapping of entries
    is returned as it is. *)
Lemma load_cache_raises_on_unparseable_file :
  load_cache {| cache_file := Some "{"; events := [] |}
  = (Raise JSONDecodeError, {| cache_file := Some "{"; events := [] |})
  /\ load_cache {| cache_file := Some "[null]"; events := [] |}
     = (Ok (PList [PNone]), {| cache_file := Some "[null]"; events := [] |}).
Proof. split; reflexivity. Qed.

(** C4, amended. [load_cache] returns the empty mapping when there is no cache
    file; when the file parses it returns the parsed document whatever its
    shape; when the file does not parse the decoder's error propagates.  The
    state is left as it was in every case. *)
Theorem load_cache_cases (st : State) :
  snd (load_cache st) = st
  /\ (cache_file st = None -> fst (load_cache st) = Ok (PDict []))
  /\ (forall text v,
         cache_file st = Some text -> Json.loads text = Some v ->
         fst (load_cache st) = Ok v)
  /\ (forall text,
         cache_file st = Some text -> Json.loads text = None ->
         fst (load_cache st) = Raise JSONDecodeError).
Proof.
  split; [apply load_cache_state|]. unfold load_cache. repeat split.
  - intros ->. reflexivity.
  - intros text v -> ->. reflexivity.
  - intros text -> ->. reflexivity.
Qed.

(** ** Per-file scan: run equations *)

Lemma file_signature_run (env : Env) (p : Path) (st : State) :
  file_signature env p st =
    (match os_stat env (path_str env p) with
     | Some s => Ok (signature_of s)
     | None => Raise OSError
     end, log st (EvStat (path_str env p))).
Proof.
  unfold file_signature, bind, emit, ret, raise.
  destruct (os_stat env (path_str env p)); reflexivity.
Qed.

Lemma scan_video_stat_fails (env : Env) (p : Path) (c : pyval) (st : State) :
  os_stat env (path_str env p) = None ->
  scan_video env p c st = (Raise OSError, log st (EvStat (path_str env p))).
Proof.
  intros H. unfold scan_video, bind at 1. rewrite file_signature_run, H. reflexivity.
Qed.

Lemma scan_video_run (env : Env) (p : Path) (c : pyval) (st : State) (s : stat_result) :
  os_stat env (path_str env p) = Some s ->
  let key := path_str env p in
  scan_video env p c st =
    match cache_hit c key (signature_of s) with
    | Raise e => (Raise e, log st (EvStat key))
    | Ok true => (hit_result c key, log st (EvStat key))
    | Ok false =>
        (miss_result (probe_output env key) c key (signature_of s),
         log (log st (EvStat key)) (EvProbe key))
    end.
Proof.
  intros H key. unfold scan_video, bind at 1. rewrite file_signature_run, H.
  fold key. unfold bind at 1, lift at 1.
  destruct (cache_hit c key (signature_of s)) as [[|]|e]; [| |reflexivity].
  - unfold hit_result, bind, lift, ret.
    destruct (Py.getitem c key) as [entry|e]; [|reflexivity]. simpl.
    destruct (Py.getitem entry "tracks"); reflexivity.
  - unfold miss_result, probe, bind, lift, ret, emit.
    destruct (probe_output env key) as [data|]; [|reflexivity].
    destruct (Py.get data "streams" (PList [])) as [streams|e]; [|reflexivity]. simpl.
    destruct (Py.iter streams) as [ss|e]; [|reflexivity]. simpl.
    destruct (scan_streams ss) as [tracks|e]; [|reflexivity]. simpl.
    destruct (Py.setitem c key (entry_of (signature_of s) tracks)); reflexivity.
Qed.

Lemma hit_result_cache (c : pyval) (key : string) (t c' : pyval) :
  hit_result c key = Ok (t, c') -> c' = c.
Proof.
  unfold hit_result. destruct (Py.getitem c key) as [entry|]; simpl; [|discriminate].
  destruct (Py.getitem entry "tracks"); simpl; [|discriminate].
  now intros [= _ <-].
Qed.

Lemma miss_result_cache (out : option pyval) (c : pyval) (key sig : string) (t c' : pyval) :
  miss_result out c key sig = Ok (t, c') ->
  c' = c \/ exists e, Py.setitem c key e = Ok c'.
Proof.
  unfold miss_result. destruct out as [data|].
  - destruct (Py.get data "streams" (PList [])) as [streams|]; simpl; [|discriminate].
    destruct (Py.iter streams) as [ss|]; simpl; [|discriminate].
    destruct (scan_streams ss) as [tracks|]; simpl; [|discriminate].
    destruct (Py.setitem c key (entry_of sig tracks)) as [c2|] eqn:E; simpl; [|discriminate].
    intros [= _ <-]. right. now exists (entry_of sig tracks).
  - intros [= _ <-]. now left.
Qed.

(** What any call of [scan_video] does to the state and to the cache: the
    cache file is not touched, the call stats the file and perhaps probes it,
    and the dictionary is either left alone or assigned at the file's key. *)
Lemma scan_video_shape (env : Env) (p : Path) (c : pyval) (st : State) :
  let key := path_str env p in
  let r := scan_video env p c st in
  cache_file (snd r) = cache_file st
  /\ (events (snd r) = (events st ++ [EvStat key])%list
      \/ events (snd r) = (events st ++ [EvStat key; EvProbe key])%list)
  /\ (forall t c', fst r = Ok (t, c') ->
        c' = c \/ exists e, Py.setitem c key e = Ok c').
Proof.
  intros key r. subst r.
  destruct (os_stat env (path_str env p)) as [s|] eqn:Hs.
  - rewrite (scan_video_run env p c st s Hs). fold key.
    destruct (cache_hit c key (signature_of s)) as [[|]|e]; simpl.
    + split; [reflexivity|]. split; [now left|].
      intros t c' H. left. eapply hit_result_cache; eauto.
    + split; [reflexivity|]. split.
      * right. now rewrite <- app_assoc.
      * intros t c' H. eapply miss_result_cache; eauto.
    + split; [reflexivity|]. split; [now left|]. discriminate.
  - rewrite (scan_video_stat_fails env p c st Hs). simpl.
    split; [reflexivity|]. split; [now left|]. discriminate.
Qed.

(** ** The loop of [scan_folders] *)

Lemma scan_loop_cons (env : Env) (total i : nat) (file : Path) (rest : list Path)
    (cache : pyval) (results : list pyval) (st : State) :
  scan_loop env total i (file :: rest) cache results st =
    match scan_video env file cache st with
    | (Ok tc, st1) =>
        match (ts <~ Py.iter (fst tc) ;; rows_of (path_str env file) ts) with
        | Ok rows =>
            scan_loop env total (S i) rest (snd tc) (results ++ rows)%list
              (log st1 (EvProgress i total))
        | Raise e => (Raise e, st1)
        end
    | (Raise e, st1) => (Raise e, st1)
    end.
Proof.
  cbn [scan_loop]. unfold bind at 1.
  destruct (scan_video env file cache st) as [[tc|e] st1]; [|reflexivity].
  unfold bind at 1, lift at 1.
  destruct (Py.iter (fst tc)) as [ts|e]; [|reflexivity]. simpl rbind.
  unfold bind at 1, lift at 1.
  destruct (rows_of (path_str env file) ts) as [rows|e]; reflexivity.
Qed.

Lemma scan_loop_app (env : Env) (total : nat) (pre post : list Path) :
  forall (i : nat) (cache : pyval) (results : list pyval) (st : State),
  scan_loop env total i (pre ++ post) cache results st =
    match scan_loop env total i pre cache results st with
    | (Ok cr, st1) => scan_loop env total (i + List.length pre) post (fst cr) (snd cr) st1
    | (Raise e, st1) => (Raise e, st1)
    end.
Proof.
  induction pre as [|f pre IH]; intros i cache results st.
  - simpl. unfold ret. now rewrite Nat.add_0_r.
  - rewrite <- app_comm_cons, !scan_loop_cons.
    destruct (scan_video env f cache st) as [[tc|e] st1]; [|reflexivity].
    destruct (ts <~ Py.iter (fst tc);; rows_of (path_str env f) ts) as [rows|e];
      [|reflexivity].
    rewrite IH. simpl List.length. now rewrite Nat.add_succ_r.
Qed.

Lemma progress_of_app (a b : list event) :
  progress_of (a ++ b) = (progress_of a ++ progress_of b)%list.
Proof.
  induction a as [|e a IH]; simpl; [reflexivity|].
  destruct e; simpl; now rewrite IH.
Qed.

Lemma scan_video_progress (env : Env) (p : Path) (c : pyval) (st : State) :
  progress_of (events (snd (scan_video env p c st))) = progress_of (events st).
Proof.
  destruct (scan_video_shape env p c st) as (_ & [H|H] & _);
    rewrite H, progress_of_app; simpl; now rewrite app_nil_r.
Qed.

(** The loop calls the callback with [(i, total)], [(i+1, total)], ... once
    per file it gets through, and gets through all of them unless a file
    raises; it never writes the cache file. *)
Lemma scan_loop_progress (env : Env) (total : nat) (files : list Path) :
  forall (i : nat) (cache : pyval) (results : list pyval) (st : State),
  let r := scan_loop env total i files cache results st in
  cache_file (snd r) = cache_file st
  /\ exists k, k <= List.length files
       /\ progress_of (events (snd r))
          = (progress_of (events st) ++ map (fun j => (j, total)) (seq i k))%list
       /\ (is_ok (fst r) = true -> k = List.length files).
Proof.
  induction files as [|f files IH]; intros i cache results st r; subst r.
  - simpl. split; [reflexivity|]. exists 0. simpl. rewrite app_nil_r. auto.
  - rewrite scan_loop_cons.
    pose proof (scan_video_shape env f cache st) as (Hcf & _ & _).
    pose proof (scan_video_progress env f cache st) as Hpr.
    destruct (scan_video env f cache st) as [[tc|e] st1]; simpl in Hcf, Hpr.
    + destruct (ts <~ Py.iter (fst tc);; rows_of (path_str env f) ts) as [rows|e].
      * specialize (IH (S i) (snd tc) (results ++ rows)%list (log st1 (EvProgress i total))).
        destruct IH as (IHc & k & Hk & Hev & Hok).
        split; [now rewrite IHc|].
        exists (S k). split; [simpl; lia|]. split.
        -- rewrite Hev. simpl events. rewrite progress_of_app, Hpr. simpl.
           now rewrite <- app_assoc.
        -- intros H. simpl. f_equal. auto.
      * simpl. split; [assumption|]. exists 0. simpl.
        rewrite app_nil_r. repeat split; [lia|assumption|discriminate].
    + simpl. split; [assumption|]. exists 0. simpl.
      rewrite app_nil_r. repeat split; [lia|assumption|discriminate].
Qed.

Lemma scan_folders_run (env : Env) (folders : list string) (st : State) :
  scan_folders env folders st =
    match fst (load_cache st) with
    | Ok cache =>
        let files := collect_files env folders in
        match scan_loop env (List.length files) 1 files cache [] st with
        | (Ok cr, st1) =>
            (Ok (snd cr),
             {| cache_file := Some (Json.dumps (fst cr)); events := events st1 |})
        | (Raise e, st1) => (Raise e, st1)
        end
    | Raise e => (Raise e, st)
    end.
Proof.
  unfold scan_folders, bind at 1.
  pose proof (load_cache_state st) as Hst.
  destruct (load_cache st) as [[cache|e] st']; simpl in Hst; subst st'; simpl fst;
    [|reflexivity].
  cbv zeta. unfold bind at 1.
  destruct (scan_loop env _ 1 _ cache [] st) as [[cr|e] st1]; reflexivity.
Qed.

(** ** Progress callback *)

Lemma seq_count_last (n : nat) :
  count_occ Nat.eq_dec (seq 1 n) n = if (n =? 0)%nat then 0 else 1.
Proof.
  destruct n as [|n]; [reflexivity|]. cbn [Nat.eqb].
  assert (Hin : In (S n) (seq 1 (S n))) by (apply in_seq; lia).
  pose proof (seq_NoDup (S n) 1) as Hnd.
  rewrite (NoDup_count_occ Nat.eq_dec) in Hnd. specialize (Hnd (S n)).
  apply (count_occ_In Nat.eq_dec) in Hin. lia.
Qed.

(** ** File-access errors *)

(** C5, as stated, fails: [M/b.mkv] cannot be stat-ed, and the scan of [M]
    stops there with [OSError]: [M/c.mkv] is never looked at, no result is
    returned and no cache file is written. *)
Lemma vanished_file_aborts_the_scan :
  collect_files env_gone ["M"] = [["M"; "a.mkv"]; ["M"; "b.mkv"]; ["M"; "c.mkv"]]
  /\ scan_folders env_gone ["M"] st0
     = (Raise OSError,
        {| cache_file := None;
           events := [EvStat "M/a.mkv"; EvProbe "M/a.mkv"; EvProgress 1 3;
                      EvStat "M/b.mkv"] |}).
Proof. split; reflexivity. Qed.

(** C5, amended. If computing the signature of a file fails with a
    file-access error, the error leaves [scan_folders]: the scan stops at that
    file, after the files before it; the files after it are not processed;
    no result is returned; the cache file stays as it was before the scan, so
    no entry is written for this file or for any other. *)
Theorem stat_failure_aborts_scan (env : Env) (folders : list string) (st : State)
    (cache : pyval) (pre post : list Path) (f : Path)
    (cr : pyval * list pyval) (st1 : State) :
  fst (load_cache st) = Ok cache ->
  collect_files env folders = (pre ++ f :: post)%list ->
  scan_loop env (List.length (collect_files env folders)) 1 pre cache [] st = (Ok cr, st1) ->
  os_stat env (path_str env f) = None ->
  scan_folders env folders st = (Raise OSError, log st1 (EvStat (path_str env f)))
  /\ cache_file (log st1 (EvStat (path_str env f))) = cache_file st.
Proof.
  intros Hload Hfiles Hpre Hstat.
  rewrite scan_folders_run, Hload. cbv zeta.
  pose proof (scan_loop_progress env (List.length (collect_files env folders))
                pre 1 cache [] st) as (Hcf & _).
  rewrite Hpre in Hcf. simpl in Hcf.
  rewrite Hfiles at 2. rewrite scan_loop_app, Hpre, scan_loop_cons.
  rewrite scan_video_stat_fails by assumption.
  split; [reflexivity|assumption].
Qed.

Lemma stat_failure_aborts_scan_witness :
  fst (load_cache st0) = Ok (PDict [])
  /\ collect_files env_gone ["M"] = ([["M"; "a.mkv"]] ++ ["M"; "b.mkv"] :: [["M"; "c.mkv"]])%list
  /\ scan_loop env_gone (List.length (collect_files env_gone ["M"])) 1
       [["M"; "a.mkv"]] (PDict []) [] st0
     = (Ok (PDict [("M/a.mkv", entry_of "10_1.5" [])], []),
        {| cache_file := None;
           events := [EvStat "M/a.mkv"; EvProbe "M/a.mkv"; EvProgress 1 3] |})
  /\ os_stat env_gone (path_str env_gone ["M"; "b.mkv"]) = None
  /\ scan_folders env_gone ["M"] st0
     = (Raise OSError,
        {| cache_file := None;
           events := [EvStat "M/a.mkv"; EvProbe "M/a.mkv"; EvProgress 1 3;
                      EvStat "M/b.mkv"] |}).
Proof.
  split; [reflexivity|]. split; [reflexivity|]. split; [reflexivity|].
  split; [reflexivity|].
  exact (proj1 (stat_failure_aborts_scan env_gone ["M"] st0 (PDict [])
                  [["M"; "a.mkv"]] [["M"; "c.mkv"]] ["M"; "b.mkv"] _ _
                  eq_refl eq_refl eq_refl eq_refl)).
Defined.

(** ** Dictionaries *)

Lemma dict_get_set_same {A : Type} (k : string) (v : A) (d : list (string * A)) :
  dict_get k (dict_set k v d) = Some v.
Proof.
  induction d as [|[k' v'] d IH]; simpl.
  - now rewrite String.eqb_refl.
  - destruct (k' =? k) eqn:E; simpl; rewrite E; [reflexivity|assumption].
Qed.

Lemma dict_get_set_other {A : Type} (k k' : string) (v : A) (d : list (string * A)) :
  k' <> k -> dict_get k (dict_set k' v d) = dict_get k d.
Proof.
  intros Hne. induction d as [|[k1 v1] d IH]; simpl.
  - apply String.eqb_neq in Hne. now rewrite Hne.
  - destruct (k1 =? k') eqn:E; simpl.
    + destruct (k1 =? k) eqn:E'; [|reflexivity].
      apply String.eqb_eq in E, E'. congruence.
    + now rewrite IH.
Qed.

(** ** Cache hits and misses *)

Lemma cache_hit_same_sig (d e : list (string * pyval)) (key sig : string) :
  dict_get key d = Some (PDict e) ->
  dict_get "sig" e = Some (PStr sig) ->
  cache_hit (PDict d) key sig = Ok true.
Proof.
  intros Hd He. unfold cache_hit. simpl. rewrite Hd. simpl. rewrite He. simpl.
  now rewrite String.eqb_refl.
Qed.


Lemma cache_hit_absent (d : list (string * pyval)) (key sig : string) :
  dict_get key d = None -> cache_hit (PDict d) key sig = Ok false.
Proof. intros Hd. unfold cache_hit. simpl. now rewrite Hd. Qed.

Lemma miss_result_parsed (data : pyval) (d : list (string * pyval)) (key sig : string)
    (tracks : list pyval) :
  tracks_of_data data = Ok tracks ->
  miss_result (Some data) (PDict d) key sig
  = Ok (PList tracks, PDict (dict_set key (entry_of sig tracks) d)).
Proof.
  unfold tracks_of_data, miss_result.
  destruct (Py.get data "streams" (PList [])) as [streams|]; simpl; [|discriminate].
  destruct (Py.iter streams) as [ss|]; simpl; [|discriminate].
  now intros ->.
Qed.

Lemma probe_output_none (env : Env) (key : string) :
  (run_ffprobe env key = None
   \/ exists out, run_ffprobe env key = Some out /\ Json.loads out = None) ->
  probe_output env key = None.
Proof.
  unfold probe_output. intros [->|(out & -> & ->)]; reflexivity.
Qed.

(** ** Probe failures *)

(** C3, as stated, fails: with the ffprobe executable missing, the scan of a
    folder holding one video finds no track and saves a cache without any
    entry for the video, and the next scan probes the same unchanged file
    again. *)
Lemma failed_probe_leaves_no_entry :
  let r1 := scan_folders env_noprobe ["M"] st0 in
  let r2 := scan_folders env_noprobe ["M"]
              {| cache_file := cache_file (snd r1); events := [] |} in
  fst r1 = Ok []
  /\ cache_file (snd r1) = Some "{}"
  /\ Json.loads "{}" = Some (PDict [])
  /\ events (snd r2) = [EvStat "M/a.mkv"; EvProbe "M/a.mkv"; EvProgress 1 1].
Proof. repeat split; reflexivity. Qed.

(** C3, amended. For every file that is not served from the cache and whose
    probe fails (the child process cannot be run, or its output does not
    parse), [scan_video] returns the empty track list and leaves the cache
    dictionary as it was: no entry is written, so a later scan of the file
    with the same signature probes it again. *)
Theorem failed_probe_is_not_cached (env : Env) (p : Path) (c : pyval) (st : State)
    (s : stat_result) :
  let key := path_str env p in
  os_stat env key = Some s ->
  cache_hit c key (signature_of s) = Ok false ->
  (run_ffprobe env key = None
   \/ exists out, run_ffprobe env key = Some out /\ Json.loads out = None) ->
  scan_video env p c st
  = (Ok (PList [], c), log (log st (EvStat key)) (EvProbe key))
  /\ forall st', In (EvProbe key) (events (snd (scan_video env p c st'))).
Proof.
  intros key Hs Hmiss Hfail.
  apply probe_output_none in Hfail.
  assert (H : forall st', scan_video env p c st'
                          = (Ok (PList [], c), log (log st' (EvStat key)) (EvProbe key))).
  { intros st'. rewrite (scan_video_run env p c st' s Hs). fold key.
    rewrite Hmiss, Hfail. reflexivity. }
  split; [apply H|].
  intros st'. rewrite H. simpl. apply in_or_app. right. now left.
Qed.

Lemma failed_probe_is_not_cached_witness :
  os_stat env_noprobe "M/a.mkv" = Some sample_stat
  /\ cache_hit (PDict stale_cache) "M/a.mkv" (signature_of sample_stat) = Ok false
  /\ run_ffprobe env_noprobe "M/a.mkv" = None
  /\ scan_video env_noprobe ["M"; "a.mkv"] (PDict stale_cache) st0
     = (Ok (PList [], PDict stale_cache),
        {| cache_file := None; events := [EvStat "M/a.mkv"; EvProbe "M/a.mkv"] |}).
Proof.
  split; [reflexivity|]. split; [reflexivity|]. split; [reflexivity|].
  exact (proj1 (failed_probe_is_not_cached env_noprobe ["M"; "a.mkv"]
                  (PDict stale_cache) st0 sample_stat
                  eq_refl eq_refl (or_introl eq_refl))).
Defined.

Lemma scan_video_hit (env : Env) (p : Path) (d e : list (string * pyval))
    (st : State) (s : stat_result) :
  let key := path_str env p in
  os_stat env key = Some s ->
  dict_get key d = Some (PDict e) ->
  dict_get "sig" e = Some (PStr (signature_of s)) ->
  scan_video env p (PDict d) st = (hit_result (PDict d) key, log st (EvStat key)).
Proof.
  intros key Hs Hd He. rewrite (scan_video_run env p (PDict d) st s Hs). fold key.
  now rewrite (cache_hit_same_sig d e key _ Hd He).
Qed.

Lemma not_in_snoc {A : Type} (x y : A) (l : list A) :
  ~ In x l -> y <> x -> ~ In x (l ++ [y]).
Proof.
  intros Hl Hy Hin. apply in_app_or in Hin. destruct Hin as [H|[H|[]]]; auto.
Qed.

(** One call of [scan_video] keeps the entry stored under another key, and
    also the entry of its own key when that entry carries the file's current
    signature; in both cases key [k] is not probed. *)
Lemma scan_video_keeps_entry (env : Env) (f : Path) (d : list (string * pyval))
    (st : State) (k : string) (v : pyval) :
  dict_get k d = Some v ->
  (path_str env f = k ->
   exists s e, os_stat env k = Some s /\ v = PDict e
               /\ dict_get "sig" e = Some (PStr (signature_of s))) ->
  let r := scan_video env f (PDict d) st in
  (forall t c', fst r = Ok (t, c') -> exists d', c' = PDict d' /\ dict_get k d' = Some v)
  /\ (~ In (EvProbe k) (events st) -> ~ In (EvProbe k) (events (snd r))).
Proof.
  intros Hd Hsame r. subst r.
  destruct (String.eqb_spec (path_str env f) k) as [Heq|Hne].
  - destruct (Hsame Heq) as (s & e & Hs & -> & He).
    rewrite <- Heq in Hs, Hd.
    rewrite (scan_video_hit env f d e st s Hs Hd He). simpl. split.
    + intros t c' H. apply hit_result_cache in H. subst c'.
      exists d. now rewrite <- Heq.
    + intros Hno. apply not_in_snoc; [assumption|discriminate].
  - pose proof (scan_video_shape env f (PDict d) st) as (_ & Hev & Hc).
    cbv zeta in Hev, Hc. split.
    + intros t c' H. destruct (Hc t c' H) as [->|(e & He)].
      * now exists d.
      * simpl in He. injection He as <-.
        exists (dict_set (path_str env f) e d).
        split; [reflexivity|]. now rewrite dict_get_set_other.
    + intros Hno. destruct Hev as [-> | ->].
      * apply not_in_snoc; [assumption|discriminate].
      * change [EvStat (path_str env f); EvProbe (path_str env f)]
          with ([EvStat (path_str env f)] ++ [EvProbe (path_str env f)])%list.
        rewrite app_assoc. apply not_in_snoc.
        -- apply not_in_snoc; [assumption|discriminate].
        -- intros [= H]. contradiction.
Qed.

Lemma scan_loop_keeps_entry (env : Env) (total : nat) (k : string) (v : pyval)
    (files : list Path) :
  (forall f, In f files -> path_str env f = k ->
             exists s e, os_stat env k = Some s /\ v = PDict e
                         /\ dict_get "sig" e = Some (PStr (signature_of s))) ->
  forall (i : nat) (d : list (string * pyval)) (results : list pyval) (st : State),
  dict_get k d = Some v ->
  let r := scan_loop env total i files (PDict d) results st in
  (forall c' res, fst r = Ok (c', res) ->
                  exists d', c' = PDict d' /\ dict_get k d' = Some v)
  /\ (~ In (EvProbe k) (events st) -> ~ In (EvProbe k) (events (snd r))).
Proof.
  induction files as [|f files IH]; intros Hfiles i d results st Hd r; subst r.
  - simpl. split; [|auto]. intros c' res [= <- _]. now exists d.
  - rewrite scan_loop_cons.
    pose proof (scan_video_keeps_entry env f d st k v Hd
                  (Hfiles f (or_introl eq_refl))) as (Hc & Hev).
    cbv zeta in Hc, Hev.
    destruct (scan_video env f (PDict d) st) as [[[t c1]|e] st1]; simpl in Hc, Hev |- *;
      [|split; [discriminate|assumption]].
    destruct (ts <~ Py.iter t;; rows_of (path_str env f) ts) as [rows|e];
      [|split; [discriminate|assumption]].
    destruct (Hc t c1 eq_refl) as (d1 & -> & Hd1).
    assert (Hrest : forall f0, In f0 files -> path_str env f0 = k ->
              exists s e, os_stat env k = Some s /\ v = PDict e
                          /\ dict_get "sig" e = Some (PStr (signature_of s))).
    { intros f0 Hin. apply Hfiles. now right. }
    destruct (IH Hrest (S i) d1 (results ++ rows)%list
                (log st1 (EvProgress i total)) Hd1) as (IHc & IHev).
    split; [exact IHc|].
    intros Hno. apply IHev. simpl.
    apply not_in_snoc; [auto|discriminate].
Qed.

(** ** Reuse and refresh of cache entries *)


(** A file whose entry in the loaded cache carries the file's current
    signature is not probed by the scan, and the scan saves the entry as it
    was. *)
Lemma scan_folders_hit_no_probe (env : Env) (folders : list string) (st : State)
    (d e : list (string * pyval)) (k : string) (s : stat_result) :
  let r := scan_folders env folders st in
  fst (load_cache st) = Ok (PDict d) ->
  dict_get k d = Some (PDict e) ->
  os_stat env k = Some s ->
  dict_get "sig" e = Some (PStr (signature_of s)) ->
  ~ In (EvProbe k) (events st) ->
  ~ In (EvProbe k) (events (snd r))
  /\ (is_ok (fst r) = true ->
      exists d', cache_file (snd r) = Some (Json.dumps (PDict d'))
                 /\ dict_get k d' = Some (PDict e)).
Proof.
  intros r Hload Hd Hs He Hno. subst r.
  rewrite scan_folders_run, Hload. cbv zeta.
  pose proof (scan_loop_keeps_entry env (List.length (collect_files env folders))
                k (PDict e) (collect_files env folders)) as H.
  destruct (H (fun _ _ _ => ex_intro _ s (ex_intro _ e (conj Hs (conj eq_refl He))))
              1 d [] st Hd) as (Hc & Hev).
  destruct (scan_loop env _ 1 _ (PDict d) [] st) as [[[c' res]|ex] st1];
    simpl in Hc, Hev |- *.
  - split; [auto|]. intros _. destruct (Hc c' res eq_refl) as (d' & -> & Hd').
    now exists d'.
  - split; [auto|discriminate].
Qed.



(** ** Folder walk *)

Lemma dirs_of_Dir (p : Path) (es : list (string * node)) :
  dirs_of p (Dir es)
  = (p, es) :: flat_map (fun e => dirs_of (p ++ [fst e])%list (snd e)) es.
Proof.
  cbn [dirs_of]. f_equal.
  induction es as [|[nm c] es IH]; [reflexivity|].
  cbn [flat_map fst snd]. now rewrite <- IH.
Qed.

Lemma descendant_snoc (es es' : list (string * node)) (rel : list string)
    (nm : string) (n : node) :
  descendant es rel (Dir es') -> In (nm, n) es' -> descendant es (rel ++ [nm])%list n.
Proof.
  intros H. remember (Dir es') as m eqn:Hm. revert Hm.
  induction H as [es nm0 n0 Hin | es nm0 es0 rel n0 Hin Hd IH]; intros -> Hn.
  - simpl. eapply desc_deeper; [exact Hin|]. now apply desc_child.
  - simpl. eapply desc_deeper; [exact Hin|]. now apply IH.
Qed.

Lemma descendant_last (es : list (string * node)) (rel : list string) (n : node) :
  descendant es rel n ->
  (exists nm, rel = [nm] /\ In (nm, n) es)
  \/ (exists rel' es' nm, rel = (rel' ++ [nm])%list
                          /\ descendant es rel' (Dir es') /\ In (nm, n) es').
Proof.
  induction 1 as [es nm n Hin | es nm es0 rel n Hin Hd IH].
  - left. now exists nm.
  - right. destruct IH as [(nm' & -> & Hin') | (rel' & es' & nm' & -> & Hd' & Hin')].
    + exists [nm], es0, nm'. repeat split; [now apply desc_child|assumption].
    + exists (nm :: rel'), es', nm'. repeat split; [|assumption].
      eapply desc_deeper; eauto.
Qed.

(** The directories [dirs_of] lists are the root and the directories below
    it. *)
Lemma in_dirs_of (n : node) :
  forall (p q : Path) (es' : list (string * node)),
  In (q, es') (dirs_of p n) <->
  exists es, n = Dir es
             /\ ((q = p /\ es' = es)
                 \/ exists rel, descendant es rel (Dir es') /\ q = (p ++ rel)%list).
Proof.
  induction n as [|es IH] using node_induction; intros p q es'.
  - simpl. split; [intros []|]. intros (es & H & _). discriminate.
  - rewrite dirs_of_Dir. rewrite Forall_forall in IH. split.
    + intros [H|H].
      * injection H as <- <-. exists es. split; [reflexivity|]. now left.
      * exists es. split; [reflexivity|]. right.
        apply in_flat_map in H. destruct H as ([nm c] & Hin & H). simpl in H.
        apply (IH (nm, c) Hin) in H. simpl in H.
        destruct H as (es1 & -> & [[-> ->] | (rel & Hd & ->)]).
        -- exists [nm]. split; [now apply desc_child|reflexivity].
        -- exists (nm :: rel). split; [eapply desc_deeper; eauto|].
           now rewrite <- app_assoc.
    + intros (es0 & [= <-] & [[-> ->] | (rel & Hd & ->)]); [now left|]. right.
      apply in_flat_map. inversion Hd as [? nm ? Hin | ? nm es1 rel' ? Hin Hd']; subst.
      * exists (nm, Dir es'). split; [assumption|]. simpl.
        apply (IH (nm, Dir es') Hin). simpl.
        exists es'. split; [reflexivity|]. now left.
      * exists (nm, Dir es1). split; [assumption|]. simpl.
        apply (IH (nm, Dir es1) Hin). simpl.
        exists es1. split; [reflexivity|]. right.
        exists rel'. split; [assumption|]. now rewrite <- app_assoc.
Qed.

(** [rglob] yields a path exactly for each file or directory below the
    root. *)
Lemma in_rglob (root : Path) (es : list (string * node)) (p : Path) :
  In p (rglob root es) <->
  exists rel n, descendant es rel n /\ p = (root ++ rel)%list.
Proof.
  unfold rglob. rewrite in_flat_map. split.
  - intros ([q es'] & Hd & Hp). simpl in Hp.
    apply in_map_iff in Hp. destruct Hp as ([nm n] & <- & Hin). simpl.
    apply in_dirs_of in Hd.
    destruct Hd as (es0 & [= <-] & [[-> ->] | (rel & Hd & ->)]).
    + exists [nm], n. split; [now apply desc_child|reflexivity].
    + exists (rel ++ [nm])%list, n.
      split; [eapply descendant_snoc; eauto|now rewrite app_assoc].
  - intros (rel & n & Hd & ->).
    apply descendant_last in Hd.
    destruct Hd as [(nm & -> & Hin) | (rel' & es' & nm & -> & Hd & Hin)].
    + exists (root, es). split.
      * apply in_dirs_of. exists es. split; [reflexivity|]. now left.
      * simpl. apply in_map_iff. now exists (nm, n).
    + exists ((root ++ rel')%list, es'). split.
      * apply in_dirs_of. exists es. split; [reflexivity|]. right. now exists rel'.
      * simpl. apply in_map_iff. exists (nm, n). simpl.
        split; [now rewrite app_assoc|assumption].
Qed.

Lemma is_video_iff (p : Path) :
  is_video p = true <-> In (PyStr.lower (suffix p)) VIDEO_EXTENSIONS.
Proof.
  unfold is_video. rewrite existsb_exists. split.
  - intros (x & Hin & Heq). apply String.eqb_eq in Heq. now subst x.
  - intros Hin. exists (PyStr.lower (suffix p)). split; [assumption|apply String.eqb_refl].
Qed.

Lemma in_collect_files (env : Env) (folders : list string) (p : Path) :
  In p (collect_files env folders) <->
  exists folder es rel n,
    In folder folders /\ fs_dir env folder = Some es
    /\ descendant es rel n /\ p = folder :: rel
    /\ In (PyStr.lower (suffix p)) VIDEO_EXTENSIONS.
Proof.
  unfold collect_files. rewrite in_flat_map. split.
  - intros (folder & Hin & Hp).
    destruct (fs_dir env folder) as [es|] eqn:Hdir; [|destruct Hp].
    apply filter_In in Hp. destruct Hp as (Hp & Hv).
    apply in_rglob in Hp. destruct Hp as (rel & n & Hd & ->).
    exists folder, es, rel, n. rewrite <- is_video_iff. auto.
  - intros (folder & es & rel & n & Hin & Hdir & Hd & -> & Hv).
    exists folder. split; [assumption|]. rewrite Hdir.
    apply filter_In. split; [|now apply is_video_iff].
    apply in_rglob. now exists rel, n.
Qed.

Lemma collect_files_app (env : Env) (fs1 fs2 : list string) :
  collect_files env (fs1 ++ fs2)
  = (collect_files env fs1 ++ collect_files env fs2)%list.
Proof. unfold collect_files. apply flat_map_app. Qed.

Lemma descendant_nonempty (es : list (string * node)) (rel : list string) (n : node) :
  descendant es rel n -> rel <> [].
Proof. destruct 1; discriminate. Qed.

Lemma descendant_app (es es' : list (string * node)) (rel rel' : list string)
    (n : node) :
  descendant es rel (Dir es') -> descendant es' rel' n ->
  descendant es (rel ++ rel')%list n.
Proof.
  intros H. remember (Dir es') as m eqn:Hm. revert Hm.
  induction H as [es nm n0 Hin | es nm es0 rel n0 Hin Hd IH]; intros -> H'.
  - simpl. eapply desc_deeper; eauto.
  - simpl. eapply desc_deeper; [exact Hin|]. now apply IH.
Qed.

Lemma join_app (sep a : string) (l l' : list string) :
  l' <> [] ->
  PyStr.join sep ((a :: l) ++ l') = PyStr.join sep (a :: l) ++ sep ++ PyStr.join sep l'.
Proof.
  intros Hne. revert a. induction l as [|b l IH]; intros a.
  - destruct l' as [|c l']; [contradiction|]. reflexivity.
  - assert (Hcons : forall x y r, PyStr.join sep (x :: y :: r)
                                  = x ++ sep ++ PyStr.join sep (y :: r))
      by reflexivity.
    change ((a :: b :: l) ++ l')%list with (a :: b :: (l ++ l'))%list.
    rewrite !Hcons. change (b :: (l ++ l'))%list with ((b :: l) ++ l')%list.
    rewrite IH. now rewrite !str_app_assoc.
Qed.

Lemma name_app (p rel : list string) : rel <> [] -> name (p ++ rel)%list = name rel.
Proof.
  intros Hne. unfold name. induction p as [|a p IH]; [reflexivity|].
  simpl. destruct (p ++ rel)%list eqn:E; [|exact IH].
  apply app_eq_nil in E. destruct E as (_ & E). contradiction.
Qed.

Lemma is_video_name (p q : Path) : name p = name q -> is_video p = is_video q.
Proof. intros H. unfold is_video, suffix. now rewrite H. Qed.

(** A file below a root folder that is itself given as a root is enumerated
    once for each of the two roots. *)
Lemma overlapping_folders_duplicate (env : Env) (root : string) (rel rel' : list string)
    (es es' : list (string * node)) (n : node) :
  let sub := path_str env (root :: rel) in
  fs_dir env root = Some es ->
  descendant es rel (Dir es') ->
  fs_dir env sub = Some es' ->
  descendant es' rel' n ->
  is_video (root :: rel ++ rel') = true ->
  2 <= count_occ string_dec
         (map (path_str env) (collect_files env [root; sub]))
         (path_str env (root :: rel ++ rel')).
Proof.
  intros sub Hroot Hrel Hsub Hrel' Hv.
  pose proof (descendant_nonempty _ _ _ Hrel') as Hne.
  change [root; sub] with ([root] ++ [sub])%list.
  rewrite collect_files_app, map_app, count_occ_app.
  assert (H1 : In (path_str env (root :: rel ++ rel'))
                  (map (path_str env) (collect_files env [root]))).
  { apply in_map. apply in_collect_files.
    exists root, es, (rel ++ rel')%list, n.
    repeat split; [now left|assumption|eapply descendant_app; eauto|].
    now apply is_video_iff. }
  assert (H2 : In (path_str env (root :: rel ++ rel'))
                  (map (path_str env) (collect_files env [sub]))).
  { apply in_map_iff. exists (sub :: rel'). split.
    - unfold path_str. subst sub. unfold path_str.
      change (root :: rel ++ rel')%list with ((root :: rel) ++ rel')%list.
      rewrite join_app by assumption.
      destruct rel' as [|c rel'']; [contradiction|]. reflexivity.
    - apply in_collect_files. exists sub, es', rel', n.
      repeat split; [now left|assumption|assumption|].
      apply is_video_iff. rewrite <- Hv. apply is_video_name.
      change (sub :: rel') with ([sub] ++ rel')%list.
      change (root :: rel ++ rel')%list with ((root :: rel) ++ rel')%list.
      now rewrite !name_app. }
  apply (count_occ_In string_dec) in H1, H2. lia.
Qed.

(** C7. The enumerated list holds a path exactly when the path is that of an
    entry below one of the root folders whose suffix, lower-cased, is one of
    .mkv, .mp4, .avi, .mov, .ts, .m2ts; so every such entry is enumerated and
    no entry with another suffix (.txt, say) is.  The list for several
    folders is the concatenation of the lists of each, so a folder given
    twice yields each of its files twice, and a folder given together with
    one of its own subfolders yields the files below the subfolder twice.  In
    the sample folder the walk keeps the .mkv entries and the upper-case .MP4
    and drops the .txt. *)
Theorem folder_walk_recognized_extensions :
  (forall (env : Env) (folders : list string) (p : Path),
      In p (collect_files env folders) <->
      exists folder es rel n,
        In folder folders /\ fs_dir env folder = Some es
        /\ descendant es rel n /\ p = folder :: rel
        /\ In (PyStr.lower (suffix p)) [".mkv"; ".mp4"; ".avi"; ".mov"; ".ts"; ".m2ts"])
  /\ (forall (env : Env) (fs1 fs2 : list string),
         collect_files env (fs1 ++ fs2)
         = (collect_files env fs1 ++ collect_files env fs2)%list)
  /\ (forall (env : Env) (folder : string) (p : Path),
         count_occ (list_eq_dec string_dec) (collect_files env [folder; folder]) p
         = 2 * count_occ (list_eq_dec string_dec) (collect_files env [folder]) p)
  /\ (forall (env : Env) (root : string) (rel rel' : list string)
             (es es' : list (string * node)) (n : node),
         fs_dir env root = Some es ->
         descendant es rel (Dir es') ->
         fs_dir env (path_str env (root :: rel)) = Some es' ->
         descendant es' rel' n ->
         is_video (root :: rel ++ rel') = true ->
         2 <= count_occ string_dec
                (map (path_str env)
                   (collect_files env [root; path_str env (root :: rel)]))
                (path_str env (root :: rel ++ rel')))
  /\ map (path_str env_atmos) (collect_files env_atmos ["M"])
     = ["M/a.mkv"; "M/x.mkv"; "M/x.mkv/B.MP4"]
  /\ is_video ["M"; "notes.txt"] = false.
Proof.
  split; [|split; [|split; [|split; [|split]]]].
  - intros env folders p. apply in_collect_files.
  - intros env fs1 fs2. apply collect_files_app.
  - intros env folder p.
    change [folder; folder] with ([folder] ++ [folder])%list.
    rewrite collect_files_app, count_occ_app.
    cbn [Nat.mul]. now rewrite Nat.add_0_r.
  - intros. now apply overlapping_folders_duplicate with (es := es) (es' := es') (n := n).
  - reflexivity.
  - reflexivity.
Qed.


(** ** The JSON codec *)

Lemma skip_ws_spaces (n : nat) (s : string) :
  Json.skip_ws (Json.spaces n ++ s) = Json.skip_ws s.
Proof. induction n as [|n IH]; simpl; [reflexivity|exact IH]. Qed.

Lemma skip_ws_newline_indent (level : nat) (s : string) :
  Json.skip_ws (Json.newline_indent level ++ s) = Json.skip_ws s.
Proof. unfold Json.newline_indent. cbn [append Json.skip_ws]. apply skip_ws_spaces. Qed.

Lemma skip_ws_length (s : string) : String.length (Json.skip_ws s) <= String.length s.
Proof.
  induction s as [|c s IH]; simpl; [lia|].
  destruct (Json.is_ws c); simpl; lia.
Qed.

(** Decoding the escape of one character gives the character back. *)
Lemma scan_string_escape_char (c : ascii) (t : string) :
  Json.scan_string (Json.escape_char c ++ t)
  = match Json.scan_string t with
    | Some (u, rest) => Some (String c u, rest)
    | None => None
    end.
Proof. destruct c as [[] [] [] [] [] [] [] []]; reflexivity. Qed.

Lemma scan_string_escape (s rest : string) :
  Json.scan_string (Json.escape s ++ String Json.dquote rest) = Some (s, rest).
Proof.
  induction s as [|c s IH]; [reflexivity|].
  cbn [Json.escape]. now rewrite str_app_assoc, scan_string_escape_char, IH.
Qed.

Lemma encode_string_app (s rest : string) :
  Json.encode_string s ++ rest
  = String Json.dquote (Json.escape s ++ String Json.dquote rest).
Proof. unfold Json.encode_string. cbn [append]. now rewrite str_app_assoc. Qed.

Lemma encode_list (level : nat) (x : pyval) (xs : list pyval) :
  Json.encode level (PList (x :: xs))
  = "[" ++ Json.newline_indent (S level) ++ Json.encode (S level) x
        ++ encode_items (S level) xs ++ Json.newline_indent level ++ "]".
Proof.
  reflexivity.
Qed.

Lemma encode_tuple (level : nat) (l : list pyval) :
  Json.encode level (PTuple l) = Json.encode level (PList l).
Proof. reflexivity. Qed.

Lemma encode_dict (level : nat) (k : string) (x : pyval) (xs : list (string * pyval)) :
  Json.encode level (PDict ((k, x) :: xs))
  = "{" ++ Json.newline_indent (S level) ++ Json.encode_string k ++ ": "
        ++ Json.encode (S level) x ++ encode_members (S level) xs
        ++ Json.newline_indent level ++ "}".
Proof.
  reflexivity.
Qed.

(** *** Integers *)

Lemma span_digits_end (rest : string) :
  value_end rest = true -> Json.span_digits rest = ("", rest).
Proof.
  destruct rest as [|c r]; [reflexivity|]. simpl. intros H.
  destruct (Json.is_digit c); [discriminate|reflexivity].
Qed.

Lemma span_digits_uint (u : Decimal.uint) (rest : string) :
  value_end rest = true ->
  Json.span_digits (NilEmpty.string_of_uint u ++ rest)
  = (NilEmpty.string_of_uint u, rest).
Proof.
  intros H. induction u; cbn [NilEmpty.string_of_uint append];
    try (cbn [Json.span_digits]; rewrite IHu; reflexivity).
  now apply span_digits_end.
Qed.

Lemma scan_digits_uint (u : Decimal.uint) (rest : string) :
  u = Decimal.unorm u ->
  value_end rest = true ->
  Json.scan_digits (NilZero.string_of_uint u ++ rest)
  = Some (NilZero.string_of_uint u, rest).
Proof.
  intros Hnorm Hend.
  assert (Hhead : u = Decimal.D0 Decimal.Nil \/ Decimal.nzhead u = u /\ u <> Decimal.Nil).
  { unfold Decimal.unorm in Hnorm.
    destruct (Decimal.nzhead u) eqn:E; auto; right; rewrite Hnorm; split;
      try reflexivity; discriminate. }
  destruct Hhead as [-> | (Hnz & Hnil)]; [reflexivity|].
  destruct u; try contradiction;
    try (exfalso; exact (DecimalFacts.nzhead_nonzero _ _ Hnz));
    cbn [NilZero.string_of_uint NilEmpty.string_of_uint append Json.scan_digits];
    cbn [Ascii.eqb Bool.eqb Json.is_digit]; simpl Json.is_digit;
    cbn [Json.span_digits]; simpl Json.is_digit;
    rewrite span_digits_uint by assumption; reflexivity.
Qed.

Lemma to_int_normal (z : Z) :
  match Z.to_int z with
  | Decimal.Pos u => u = Decimal.unorm u
  | Decimal.Neg u => u = Decimal.unorm u /\ u <> Decimal.D0 Decimal.Nil
  end.
Proof.
  pose proof (DecimalZ.to_of (Z.to_int z)) as H. rewrite DecimalZ.of_to in H.
  destruct (Z.to_int z) as [u|u]; simpl in H.
  - now injection H.
  - unfold Decimal.unorm. destruct (Decimal.nzhead u) eqn:E;
      try discriminate H;
      try (exfalso; exact (DecimalFacts.nzhead_nonzero _ _ E));
      injection H as H; split; try assumption; rewrite H; discriminate.
Qed.

Lemma unorm_not_nil (u : Decimal.uint) : Decimal.unorm u <> Decimal.Nil.
Proof. unfold Decimal.unorm. destruct (Decimal.nzhead u); discriminate. Qed.

Lemma uint_text_head (u : Decimal.uint) :
  u <> Decimal.Nil ->
  exists c r, NilZero.string_of_uint u = String c r /\ Json.is_digit c = true.
Proof.
  intros H. destruct u; try contradiction; simpl; eauto.
Qed.

Lemma prefix_head_neq (a b : ascii) (s t : string) :
  a <> b -> prefix (String a s) (String b t) = false.
Proof. intros H. simpl. destruct (ascii_dec a b); [contradiction|reflexivity]. Qed.

(** A text that starts with a digit or a minus sign is read as a number. *)
Lemma scan_atom_number (c : ascii) (r : string) :
  Json.is_digit c = true \/ c = "-"%char ->
  Json.scan_atom (String c r)
  = match Json.scan_number (String c r) with
    | Some x => Some x
    | None => if prefix "-Infinity" (String c r)
              then Some (PFloat "-Infinity", Json.drop 9 (String c r))
              else None
    end.
Proof.
  intros H. unfold Json.scan_atom.
  assert (Hn : c <> "n"%char /\ c <> "t"%char /\ c <> "f"%char
               /\ c <> "N"%char /\ c <> "I"%char).
  { destruct H as [H|H]; repeat split; intros E; subst c;
      first [congruence | vm_compute in H; congruence]. }
  destruct Hn as (H1 & H2 & H3 & H4 & H5).
  rewrite !prefix_head_neq by (intros E; symmetry in E; contradiction).
  destruct (Json.scan_number (String c r)); reflexivity.
Qed.

Lemma scan_frac_end (rest : string) :
  value_end rest = true -> Json.scan_frac rest = ("", rest).
Proof.
  destruct rest as [|c r]; [reflexivity|]. unfold value_end, Json.scan_frac, Json.eat.
  destruct (Ascii.eqb c "."); [|reflexivity].
  rewrite orb_true_r. discriminate.
Qed.

Lemma scan_exp_end (rest : string) :
  value_end rest = true -> Json.scan_exp rest = ("", rest).
Proof.
  destruct rest as [|c r]; [reflexivity|]. unfold value_end, Json.scan_exp.
  destruct (Ascii.eqb c "e"), (Ascii.eqb c "E"); try reflexivity;
    rewrite ?orb_true_r; discriminate.
Qed.

Lemma int_of_text_of_Z (z : Z) : Json.int_of_text (PyStr.of_Z z) = z.
Proof.
  unfold Json.int_of_text, PyStr.of_Z.
  pose proof (to_int_normal z) as Hn.
  rewrite NilZero.isi.
  - apply DecimalZ.of_to.
  - intros E. rewrite E in Hn. discriminate.
  - intros E. rewrite E in Hn. destruct Hn as (Hn & _). discriminate.
Qed.

(** The decimal text of an integer is read back as that integer. *)
Lemma scan_atom_of_Z (z : Z) (rest : string) :
  value_end rest = true ->
  Json.scan_atom (PyStr.of_Z z ++ rest) = Some (PInt z, rest).
Proof.
  intros Hend.
  assert (Hnum : Json.scan_number (PyStr.of_Z z ++ rest) = Some (PInt z, rest)).
  { unfold Json.scan_number.
    assert (Hint : Json.scan_int (PyStr.of_Z z ++ rest) = Some (PyStr.of_Z z, rest)).
    { unfold PyStr.of_Z. pose proof (to_int_normal z) as Hn.
      destruct (Z.to_int z) as [u|u]; cbn [NilZero.string_of_int].
      - assert (Hnil : u <> Decimal.Nil) by (rewrite Hn; apply unorm_not_nil).
        destruct (uint_text_head u Hnil) as (c & r & E & Hc).
        unfold Json.scan_int. rewrite E. cbn [append Json.eat].
        assert (Hm : Ascii.eqb c "-" = false).
        { destruct (Ascii.eqb_spec c "-"); [subst; discriminate|reflexivity]. }
        rewrite Hm. change (String c (r ++ rest)) with (String c r ++ rest).
        rewrite <- E. now apply scan_digits_uint.
      - destruct Hn as (Hn & _). unfold Json.scan_int. cbn [append Json.eat].
        rewrite Ascii.eqb_refl. now rewrite scan_digits_uint. }
    rewrite Hint, scan_frac_end, scan_exp_end by assumption.
    cbn [String.eqb andb]. now rewrite int_of_text_of_Z. }
  assert (Hhead : exists c r, PyStr.of_Z z ++ rest = String c r
                              /\ (Json.is_digit c = true \/ c = "-"%char)).
  { unfold PyStr.of_Z. pose proof (to_int_normal z) as Hn.
    destruct (Z.to_int z) as [u|u]; cbn [NilZero.string_of_int].
    - assert (Hnil : u <> Decimal.Nil) by (rewrite Hn; apply unorm_not_nil).
      destruct (uint_text_head u Hnil) as (c & r & E & Hc).
      rewrite E. exists c, (r ++ rest). auto.
    - exists "-"%char, (NilZero.string_of_uint u ++ rest). auto. }
  destruct Hhead as (c & r & E & Hc).
  rewrite E in Hnum |- *. now rewrite (scan_atom_number c r Hc), Hnum.
Qed.

Lemma of_Z_head (z : Z) :
  exists c r, PyStr.of_Z z = String c r /\ (Json.is_digit c = true \/ c = "-"%char).
Proof.
  unfold PyStr.of_Z. pose proof (to_int_normal z) as Hn.
  destruct (Z.to_int z) as [u|u]; cbn [NilZero.string_of_int].
  - assert (Hnil : u <> Decimal.Nil) by (rewrite Hn; apply unorm_not_nil).
    destruct (uint_text_head u Hnil) as (c & r & E & Hc). eauto.
  - exists "-"%char, (NilZero.string_of_uint u). auto.
Qed.

(** *** How a value's text starts *)

Lemma value_start_cases (c : ascii) :
  value_start c = false ->
  c = " "%char \/ c = Json.char_tab \/ c = Json.char_nl \/ c = Json.char_cr
  \/ c = "]"%char \/ c = "}"%char \/ c = ","%char \/ c = ":"%char.
Proof.
  unfold value_start, Json.is_ws. intros H. apply negb_false_iff in H.
  repeat (apply orb_true_iff in H; destruct H as [H|H]);
    apply Ascii.eqb_eq in H; auto 10.
Qed.

Lemma atom_head (c : ascii) (r : string) (x : pyval * string) :
  Json.scan_atom (String c r) = Some x ->
  value_start c = true /\ c <> Json.dquote /\ c <> "{"%char /\ c <> "["%char.
Proof.
  intros H. repeat split.
  - destruct (value_start c) eqn:E; [reflexivity|].
    apply value_start_cases in E.
    repeat (destruct E as [E|E]; [subst c; discriminate H|]). subst c. discriminate H.
  - intros ->. discriminate H.
  - intros ->. discriminate H.
  - intros ->. discriminate H.
Qed.

Lemma parse_value_atom (f : nat) (s : string) (v : pyval) (rest : string) :
  Json.scan_atom s = Some (v, rest) ->
  Json.parse_value (S f) s = Json.Parsed v rest.
Proof.
  intros H. destruct s as [|c r]; [discriminate H|].
  destruct (atom_head c r _ H) as (_ & H1 & H2 & H3).
  cbn [Json.parse_value].
  apply Ascii.eqb_neq in H1, H2, H3. now rewrite H1, H2, H3, H.
Qed.

Lemma encode_head (level : nat) (v : pyval) :
  storable v ->
  exists c r, Json.encode level v = String c r /\ value_start c = true.
Proof.
  intros Hs. destruct v as [| [|] | z | t | s | [|x xs] | [|x xs] | [|kx xs]];
    try (eexists _, _; split; [reflexivity|reflexivity]).
  - destruct (of_Z_head z) as (c & r & E & Hc). exists c, r. split; [exact E|].
    destruct Hc as [Hc| ->]; [|reflexivity].
    destruct (value_start c) eqn:Ev; [reflexivity|].
    apply value_start_cases in Ev.
    repeat (destruct Ev as [Ev|Ev]; [subst c; discriminate Hc|]). subst c. discriminate Hc.
  - inversion Hs as [ | | | t' Ht | | | | ]; subst.
    specialize (Ht "" eq_refl). rewrite str_app_nil_r in Ht. cbn [Json.encode].
    destruct t as [|c r]; [discriminate Ht|].
    exists c, r. split; [reflexivity|]. eapply atom_head; eauto.
Qed.

Lemma skip_ws_start (c : ascii) (s : string) :
  value_start c = true -> Json.skip_ws (String c s) = String c s.
Proof.
  unfold value_start. intros H. cbn [Json.skip_ws].
  destruct (Json.is_ws c); [discriminate H|reflexivity].
Qed.

Lemma eat_start (c a : ascii) (s : string) :
  value_start c = true -> value_start a = false -> Json.eat a (String c s) = None.
Proof.
  intros Hc Ha. cbn [Json.eat].
  destruct (Ascii.eqb_spec c a); [subst; congruence|reflexivity].
Qed.

Lemma skip_ws_nonws (c : ascii) (s : string) :
  Json.is_ws c = false -> Json.skip_ws (String c s) = String c s.
Proof. intros H. cbn [Json.skip_ws]. now rewrite H. Qed.

Lemma skip_ws_space (s : string) : Json.skip_ws (String " " s) = Json.skip_ws s.
Proof. reflexivity. Qed.

Lemma skip_ws_encode_string (k t : string) :
  Json.skip_ws (Json.encode_string k ++ t) = Json.encode_string k ++ t.
Proof. reflexivity. Qed.

Lemma skip_ws_encode (level : nat) (v : pyval) (t : string) :
  storable v -> Json.skip_ws (Json.encode level v ++ t) = Json.encode level v ++ t.
Proof.
  intros Hs. destruct (encode_head level v Hs) as (c & r & -> & Hc).
  cbn [append]. now apply skip_ws_start.
Qed.

Lemma eat_encode (level : nat) (v : pyval) (t : string) (a : ascii) :
  storable v -> value_start a = false -> Json.eat a (Json.encode level v ++ t) = None.
Proof.
  intros Hs Ha. destruct (encode_head level v Hs) as (c & r & -> & Hc).
  cbn [append]. now apply eat_start.
Qed.

Lemma value_end_newline (level : nat) (t : string) :
  value_end (Json.newline_indent level ++ t) = true.
Proof. reflexivity. Qed.

(** *** Arrays *)

Lemma parse_elems_encode (xs : list pyval) :
  Forall storable xs -> Forall reads_back xs ->
  forall x, storable x -> reads_back x ->
  exists n, forall fuel level level' rest,
    n <= fuel ->
    Json.parse_elems fuel
      (Json.encode level x ++ encode_items level xs
         ++ Json.newline_indent level' ++ String "]" rest)
    = Json.Parsed (map Json.jsonify (x :: xs)) rest.
Proof.
  induction xs as [|y ys IH]; intros Hst Hrb x Hxs (nx & Hx).
  - exists (S nx). intros [|f] level level' rest Hf; [lia|].
    cbn [encode_items fold_right append Json.parse_elems].
    rewrite Hx by (try lia; apply value_end_newline).
    rewrite skip_ws_newline_indent. reflexivity.
  - inversion Hst as [|? ? Hys Hyss]; subst. inversion Hrb as [|? ? Hy Hrbs]; subst.
    destruct (IH Hyss Hrbs y Hys Hy) as (n' & Hn').
    exists (S (Nat.max nx n')). intros [|f] level level' rest Hf; [lia|].
    cbn [encode_items fold_right Json.parse_elems].
    fold (encode_items level ys). rewrite !str_app_assoc. cbn [append].
    rewrite Hx by (try lia; reflexivity).
    rewrite skip_ws_nonws by reflexivity. cbn [Json.eat].
    rewrite Ascii.eqb_refl, skip_ws_newline_indent, skip_ws_encode by assumption.
    rewrite Hn' by lia. reflexivity.
Qed.

(** *** Objects *)

Lemma parse_members_encode (xs : list (string * pyval)) :
  Forall (fun kv => storable (snd kv)) xs ->
  Forall (fun kv => reads_back (snd kv)) xs ->
  forall k x, storable x -> reads_back x ->
  exists n, forall fuel level level' rest,
    n <= fuel ->
    Json.parse_members fuel
      (Json.encode_string k ++ ": " ++ Json.encode level x ++ encode_members level xs
         ++ Json.newline_indent level' ++ String "}" rest)
    = Json.Parsed (map (fun kv => (fst kv, Json.jsonify (snd kv))) ((k, x) :: xs)) rest.
Proof.
  induction xs as [|[k' y] ys IH]; intros Hst Hrb k x Hxs (nx & Hx).
  - exists (S nx). intros [|f] level level' rest Hf; [lia|].
    cbn [encode_members fold_right append Json.parse_members].
    rewrite encode_string_app. cbn [Json.eat]. rewrite Ascii.eqb_refl.
    rewrite scan_string_escape.
    rewrite skip_ws_nonws by reflexivity. cbn [Json.eat]. rewrite Ascii.eqb_refl.
    rewrite skip_ws_space, skip_ws_encode by assumption.
    rewrite Hx by (try lia; apply value_end_newline).
    rewrite skip_ws_newline_indent. reflexivity.
  - inversion Hst as [|? ? Hys Hyss]; subst. inversion Hrb as [|? ? Hy Hrbs]; subst.
    simpl in Hys, Hy.
    destruct (IH Hyss Hrbs k' y Hys Hy) as (n' & Hn').
    exists (S (Nat.max nx n')). intros [|f] level level' rest Hf; [lia|].
    cbn [encode_members fold_right Json.parse_members fst snd].
    fold (encode_members level ys). rewrite !str_app_assoc. cbn [append].
    rewrite encode_string_app. cbn [Json.eat]. rewrite Ascii.eqb_refl.
    rewrite scan_string_escape.
    rewrite skip_ws_nonws by reflexivity. cbn [Json.eat]. rewrite Ascii.eqb_refl.
    rewrite skip_ws_space, skip_ws_encode by assumption.
    rewrite Hx by (try lia; reflexivity).
    rewrite skip_ws_nonws by reflexivity. cbn [Json.eat].
    rewrite Ascii.eqb_refl, skip_ws_newline_indent.
    specialize (Hn' f level level' rest). cbn [append] in Hn'.
    rewrite skip_ws_encode_string, Hn' by lia. reflexivity.
Qed.

Lemma dict_set_fresh {A : Type} (k : string) (v : A) (acc : list (string * A)) :
  ~ In k (map fst acc) -> dict_set k v acc = (acc ++ [(k, v)])%list.
Proof.
  induction acc as [|[k' v'] acc IH]; intros Hn; [reflexivity|].
  simpl in Hn |- *. destruct (String.eqb_spec k' k) as [->|Hne].
  - exfalso. apply Hn. now left.
  - rewrite IH; [reflexivity|]. intros H. apply Hn. now right.
Qed.

Lemma dict_of_pairs_nodup {A : Type} (l : list (string * A)) :
  NoDup (map fst l) -> dict_of_pairs l = l.
Proof.
  unfold dict_of_pairs.
  assert (H : forall acc, NoDup (map fst (acc ++ l)) ->
                fold_left (fun d kv => dict_set (fst kv) (snd kv) d) l acc
                = (acc ++ l)%list).
  { induction l as [|[k v] l IH]; intros acc Hnd; simpl.
    - now rewrite app_nil_r.
    - rewrite dict_set_fresh.
      + rewrite IH; rewrite <- app_assoc; [reflexivity|exact Hnd].
      + rewrite map_app in Hnd. simpl in Hnd.
        apply NoDup_remove_2 in Hnd. intros Hin. apply Hnd.
        apply in_or_app. now left. }
  intros Hnd. now apply (H []).
Qed.

(** *** Round trip of one value *)

Lemma prefix_nil (s : string) : prefix "" s = true.
Proof. now destruct s. Qed.

Lemma scan_atom_literal (rest : string) :
  Json.scan_atom ("null" ++ rest) = Some (PNone, rest)
  /\ Json.scan_atom ("true" ++ rest) = Some (PBool true, rest)
  /\ Json.scan_atom ("false" ++ rest) = Some (PBool false, rest).
Proof.
  unfold Json.scan_atom. cbn [append]. simpl prefix. rewrite prefix_nil.
  repeat split.
Qed.

Lemma storable_reads_back (v : pyval) : storable v -> reads_back v.
Proof.
  induction v as [| b | z | t | s | l IH | l IH | d IH] using pyval_induction; intros Hs.
  - exists 1. intros [|f] level rest Hf Hend; [lia|].
    apply parse_value_atom, scan_atom_literal.
  - exists 1. intros [|f] level rest Hf Hend; [lia|].
    apply parse_value_atom. destruct b; apply scan_atom_literal.
  - exists 1. intros [|f] level rest Hf Hend; [lia|].
    apply parse_value_atom. now apply scan_atom_of_Z.
  - exists 1. intros [|f] level rest Hf Hend; [lia|].
    inversion Hs as [ | | | t' Ht | | | | ]; subst.
    apply parse_value_atom. now apply Ht.
  - exists 1. intros [|f] level rest Hf Hend; [lia|].
    cbn [Json.encode Json.jsonify]. rewrite encode_string_app.
    cbn [Json.parse_value]. rewrite Ascii.eqb_refl. now rewrite scan_string_escape.
  - inversion Hs as [ | | | | | l' Hl | | ]; subst.
    destruct l as [|x xs]; [exists 1; intros [|f] level rest Hf Hend; [lia|reflexivity]|].
    assert (Hrb : Forall reads_back (x :: xs)).
    { rewrite Forall_forall in IH, Hl |- *. intros y Hy. auto. }
    inversion Hl as [|? ? Hx Hxs]; subst. inversion Hrb as [|? ? Hrx Hrxs]; subst.
    destruct (parse_elems_encode xs Hxs Hrxs x Hx Hrx) as (n & Hn).
    exists (S n). intros [|f] level rest Hf Hend; [lia|].
    rewrite encode_list. cbn [Json.jsonify]. rewrite !str_app_assoc.
    cbn [append Json.parse_value]. simpl Ascii.eqb. cbv iota.
    rewrite skip_ws_newline_indent, skip_ws_encode by assumption.
    rewrite eat_encode by (try assumption; reflexivity).
    rewrite Hn by lia. reflexivity.
  - inversion Hs as [ | | | | | | l' Hl | ]; subst.
    destruct l as [|x xs]; [exists 1; intros [|f] level rest Hf Hend; [lia|reflexivity]|].
    assert (Hrb : Forall reads_back (x :: xs)).
    { rewrite Forall_forall in IH, Hl |- *. intros y Hy. auto. }
    inversion Hl as [|? ? Hx Hxs]; subst. inversion Hrb as [|? ? Hrx Hrxs]; subst.
    destruct (parse_elems_encode xs Hxs Hrxs x Hx Hrx) as (n & Hn).
    exists (S n). intros [|f] level rest Hf Hend; [lia|].
    rewrite encode_tuple, encode_list. cbn [Json.jsonify]. rewrite !str_app_assoc.
    cbn [append Json.parse_value]. simpl Ascii.eqb. cbv iota.
    rewrite skip_ws_newline_indent, skip_ws_encode by assumption.
    rewrite eat_encode by (try assumption; reflexivity).
    rewrite Hn by lia. reflexivity.
  - inversion Hs as [ | | | | | | | d' Hnd Hd ]; subst.
    destruct d as [|[k x] xs]; [exists 1; intros [|f] level rest Hf Hend; [lia|reflexivity]|].
    assert (Hrb : Forall (fun kv => reads_back (snd kv)) ((k, x) :: xs)).
    { rewrite Forall_forall in IH, Hd |- *. intros y Hy. auto. }
    inversion Hd as [|? ? Hx Hxs]; subst. inversion Hrb as [|? ? Hrx Hrxs]; subst.
    simpl in Hx, Hrx.
    destruct (parse_members_encode xs Hxs Hrxs k x Hx Hrx) as (n & Hn).
    exists (S n). intros [|f] level rest Hf Hend; [lia|].
    rewrite encode_dict. cbn [Json.jsonify]. rewrite !str_app_assoc.
    cbn [append Json.parse_value]. simpl Ascii.eqb. cbv iota.
    rewrite skip_ws_newline_indent, skip_ws_encode_string.
    assert (Heat : forall t, Json.eat "}" (Json.encode_string k ++ t) = None)
      by reflexivity.
    rewrite Heat.
    specialize (Hn f (S level) level rest). cbn [append] in Hn.
    rewrite Hn by lia.
    rewrite dict_of_pairs_nodup; [reflexivity|].
    rewrite map_map. simpl. exact Hnd.
Qed.

(** *** Fuel *)

Lemma parse_value_S (f : nat) (s : string) :
  Json.parse_value (S f) s
  = Json.value_step (Json.parse_elems f) (Json.parse_members f) s.
Proof. reflexivity. Qed.

Lemma parse_elems_S (f : nat) (s : string) :
  Json.parse_elems (S f) s
  = Json.elems_step (Json.parse_value f) (Json.parse_elems f) s.
Proof. reflexivity. Qed.

Lemma parse_members_S (f : nat) (s : string) :
  Json.parse_members (S f) s
  = Json.members_step (Json.parse_value f) (Json.parse_members f) s.
Proof. reflexivity. Qed.

Lemma value_step_agrees pe pe' pm pm' :
  Json.agrees pe pe' -> Json.agrees pm pm' ->
  Json.agrees (Json.value_step pe pm) (Json.value_step pe' pm').
Proof.
  intros He Hm s H. unfold Json.value_step in *.
  destruct s as [|c r]; [reflexivity|].
  destruct (Ascii.eqb c Json.dquote); [reflexivity|].
  destruct (Ascii.eqb c "{").
  - destruct (Json.eat "}" (Json.skip_ws r)); [reflexivity|].
    rewrite Hm; [reflexivity|]. intros E. rewrite E in H. now apply H.
  - destruct (Ascii.eqb c "["); [|reflexivity].
    destruct (Json.eat "]" (Json.skip_ws r)); [reflexivity|].
    rewrite He; [reflexivity|]. intros E. rewrite E in H. now apply H.
Qed.

Lemma elems_step_agrees pv pv' pe pe' :
  Json.agrees pv pv' -> Json.agrees pe pe' ->
  Json.agrees (Json.elems_step pv pe) (Json.elems_step pv' pe').
Proof.
  intros Hv He s H. unfold Json.elems_step in *.
  rewrite Hv by (intros E; rewrite E in H; now apply H).
  destruct (pv s) as [v rest| |]; try reflexivity.
  destruct (Json.eat "," (Json.skip_ws rest)) as [r|]; [|reflexivity].
  rewrite He; [reflexivity|]. intros E. rewrite E in H. now apply H.
Qed.

Lemma members_step_agrees pv pv' pm pm' :
  Json.agrees pv pv' -> Json.agrees pm pm' ->
  Json.agrees (Json.members_step pv pm) (Json.members_step pv' pm').
Proof.
  intros Hv Hm s H. unfold Json.members_step in *.
  destruct (Json.eat Json.dquote s) as [r|]; [|reflexivity].
  destruct (Json.scan_string r) as [[k rest]|]; [|reflexivity].
  destruct (Json.eat ":" (Json.skip_ws rest)) as [r1|]; [|reflexivity].
  rewrite Hv by (intros E; rewrite E in H; now apply H).
  destruct (pv (Json.skip_ws r1)) as [v rest1| |]; try reflexivity.
  destruct (Json.eat "," (Json.skip_ws rest1)) as [r2|]; [|reflexivity].
  rewrite Hm; [reflexivity|]. intros E. rewrite E in H. now apply H.
Qed.

(** More fuel does not change a result that was reached. *)
Lemma parse_more_fuel (f : nat) :
  Json.agrees (Json.parse_value f) (Json.parse_value (S f))
  /\ Json.agrees (Json.parse_elems f) (Json.parse_elems (S f))
  /\ Json.agrees (Json.parse_members f) (Json.parse_members (S f)).
Proof.
  induction f as [|f (IHv & IHe & IHm)].
  - repeat split; intros s H; exfalso; now apply H.
  - repeat split; intros s H.
    + rewrite (parse_value_S (S f)). rewrite parse_value_S in H |- *.
      now apply value_step_agrees.
    + rewrite (parse_elems_S (S f)). rewrite parse_elems_S in H |- *.
      now apply elems_step_agrees.
    + rewrite (parse_members_S (S f)). rewrite parse_members_S in H |- *.
      now apply members_step_agrees.
Qed.

Lemma parse_value_fuel_le (f f' : nat) (s : string) :
  f <= f' -> Json.parse_value f s <> Json.OutOfFuel ->
  Json.parse_value f' s = Json.parse_value f s.
Proof.
  induction 1 as [|m Hle IH]; intros H; [reflexivity|].
  rewrite <- (IH H). apply parse_more_fuel. now rewrite IH.
Qed.

(** *** Every scanner leaves less text than it is given *)

Lemma eat_length (c : ascii) (s r : string) :
  Json.eat c s = Some r -> String.length s = S (String.length r).
Proof.
  destruct s as [|a s]; [discriminate|]. cbn [Json.eat].
  destruct (Ascii.eqb a c); [|discriminate]. now intros [= ->].
Qed.

Lemma scan_string_length (s t rest : string) :
  Json.scan_string s = Some (t, rest) -> String.length rest < String.length s.
Proof.
  remember (String.length s) as n eqn:Hn.
  assert (Hle : String.length s <= n) by lia. clear Hn.
  revert s t rest Hle. induction n as [|n IH]; intros s t rest Hle H.
  - destruct s; [discriminate H|simpl in Hle; lia].
  - destruct s as [|c r]; [discriminate H|]. cbn [Json.scan_string] in H.
    simpl in Hle.
    destruct (Ascii.eqb c Json.dquote); [injection H as _ <-; simpl; lia|].
    destruct (Ascii.eqb c Json.backslash).
    + destruct r as [|e r1]; [discriminate H|].
      destruct (Ascii.eqb e "u").
      * destruct r1 as [|h1 [|h2 [|h3 [|h4 r2]]]]; try discriminate H.
        destruct (Json.hex4 h1 h2 h3 h4) as [k|]; [|discriminate H].
        destruct (k <? 256)%nat; [|discriminate H].
        destruct (Json.scan_string r2) as [[u rest']|] eqn:E; [|discriminate H].
        injection H as _ <-. apply IH in E; simpl in *; lia.
      * destruct (Json.unescape e); [|discriminate H].
        destruct (Json.scan_string r1) as [[u rest']|] eqn:E; [|discriminate H].
        injection H as _ <-. apply IH in E; simpl in *; lia.
    + destruct (nat_of_ascii c <? 32)%nat; [discriminate H|].
      destruct (Json.scan_string r) as [[u rest']|] eqn:E; [|discriminate H].
      injection H as _ <-. apply IH in E; simpl in *; lia.
Qed.

Lemma span_digits_length (s d t : string) :
  Json.span_digits s = (d, t) -> String.length t <= String.length s.
Proof.
  revert d t. induction s as [|c s IH]; intros d t H; simpl in H.
  - injection H as _ <-. simpl. lia.
  - destruct (Json.is_digit c).
    + destruct (Json.span_digits s) as [d' t'] eqn:E. injection H as _ <-.
      specialize (IH _ _ eq_refl). simpl. lia.
    + injection H as _ <-. simpl. lia.
Qed.

Lemma drop_length (n : nat) (s : string) :
  String.length (Json.drop n s) = String.length s - n.
Proof.
  revert s. induction n as [|n IH]; intros s; simpl.
  - lia.
  - destruct s as [|c s]; simpl; [reflexivity|apply IH].
Qed.

Lemma prefix_length (p s : string) :
  prefix p s = true -> String.length p <= String.length s.
Proof.
  revert p. induction s as [|c s IH]; intros p H.
  - destruct p; [simpl; lia|discriminate H].
  - destruct p as [|a p]; [simpl; lia|]. simpl in H.
    destruct (ascii_dec a c); [|discriminate H]. apply IH in H. simpl. lia.
Qed.

Lemma scan_digits_length (s d t : string) :
  Json.scan_digits s = Some (d, t) -> String.length t < String.length s.
Proof.
  destruct s as [|c r]; [discriminate|]. cbn [Json.scan_digits].
  destruct (Ascii.eqb c "0"); [intros [= _ <-]; simpl; lia|].
  destruct (Json.is_digit c) eqn:Hc; [|discriminate].
  cbn [Json.span_digits]. rewrite Hc.
  destruct (Json.span_digits r) as [d' t'] eqn:E. intros [= _ <-].
  apply span_digits_length in E. simpl. lia.
Qed.

Lemma scan_int_length (s i r : string) :
  Json.scan_int s = Some (i, r) -> String.length r < String.length s.
Proof.
  unfold Json.scan_int. destruct (Json.eat "-" s) as [r0|] eqn:E.
  - destruct (Json.scan_digits r0) as [[d t]|] eqn:E'; [|discriminate].
    intros [= _ <-]. apply eat_length in E. apply scan_digits_length in E'. lia.
  - apply scan_digits_length.
Qed.

Lemma scan_frac_length (s fr r : string) :
  Json.scan_frac s = (fr, r) -> String.length r <= String.length s.
Proof.
  unfold Json.scan_frac. destruct (Json.eat "." s) as [r0|] eqn:E.
  - destruct (Json.span_digits r0) as [d t] eqn:E'.
    destruct (d =? ""); intros [= _ <-]; [lia|].
    apply eat_length in E. apply span_digits_length in E'. lia.
  - intros [= _ <-]. lia.
Qed.

Lemma scan_exp_length (s ex r : string) :
  Json.scan_exp s = (ex, r) -> String.length r <= String.length s.
Proof.
  unfold Json.scan_exp. destruct s as [|e r0]; [intros [= _ <-]; simpl; lia|].
  destruct (Ascii.eqb e "e" || Ascii.eqb e "E"); [|intros [= _ <-]; lia].
  assert (Hsign : forall sign r1,
             match Json.eat "+" r0, Json.eat "-" r0 with
             | Some r', _ => ("+", r')
             | None, Some r' => ("-", r')
             | None, None => ("", r0)
             end = (sign, r1) -> String.length r1 <= String.length r0).
  { intros sign r1. destruct (Json.eat "+" r0) as [r'|] eqn:E1.
    - intros [= _ <-]. apply eat_length in E1. lia.
    - destruct (Json.eat "-" r0) as [r'|] eqn:E2; intros [= _ <-];
        [apply eat_length in E2|]; lia. }
  destruct (match Json.eat "+" r0, Json.eat "-" r0 with
            | Some r', _ => ("+", r')
            | None, Some r' => ("-", r')
            | None, None => ("", r0)
            end) as [sign r1] eqn:Es.
  specialize (Hsign _ _ eq_refl).
  destruct (Json.span_digits r1) as [d t] eqn:E'.
  apply span_digits_length in E'.
  destruct (d =? ""); intros [= _ <-]; simpl; lia.
Qed.

Lemma scan_number_length (s : string) (v : pyval) (rest : string) :
  Json.scan_number s = Some (v, rest) -> String.length rest < String.length s.
Proof.
  unfold Json.scan_number.
  destruct (Json.scan_int s) as [[i r]|] eqn:Ei; [|discriminate].
  destruct (Json.scan_frac r) as [fr r1] eqn:Ef.
  destruct (Json.scan_exp r1) as [ex r2] eqn:Ee.
  apply scan_int_length in Ei. apply scan_frac_length in Ef.
  apply scan_exp_length in Ee.
  destruct ((fr =? "") && (ex =? "")); intros [= _ <-]; lia.
Qed.

Lemma scan_atom_length (s : string) (v : pyval) (rest : string) :
  Json.scan_atom s = Some (v, rest) -> String.length rest < String.length s.
Proof.
  unfold Json.scan_atom.
  assert (Hdrop : forall p n, prefix p s = true -> String.length p = n -> 0 < n ->
                              String.length (Json.drop n s) < String.length s).
  { intros p n Hp Hn Hpos. apply prefix_length in Hp. rewrite drop_length. lia. }
  destruct (prefix "null" s) eqn:E1;
    [intros [= _ <-]; apply (Hdrop _ 4 E1); simpl; lia|].
  destruct (prefix "true" s) eqn:E2;
    [intros [= _ <-]; apply (Hdrop _ 4 E2); simpl; lia|].
  destruct (prefix "false" s) eqn:E3;
    [intros [= _ <-]; apply (Hdrop _ 5 E3); simpl; lia|].
  destruct (Json.scan_number s) as [[v' r']|] eqn:En.
  - intros [= _ <-]. eapply scan_number_length; eauto.
  - destruct (prefix "NaN" s) eqn:E4;
      [intros [= _ <-]; apply (Hdrop _ 3 E4); simpl; lia|].
    destruct (prefix "Infinity" s) eqn:E5;
      [intros [= _ <-]; apply (Hdrop _ 8 E5); simpl; lia|].
    destruct (prefix "-Infinity" s) eqn:E6;
      [intros [= _ <-]; apply (Hdrop _ 9 E6); simpl; lia|discriminate].
Qed.

Lemma value_step_consumes pe pm :
  Json.consumes pe -> Json.consumes pm -> Json.consumes (Json.value_step pe pm).
Proof.
  intros He Hm s v rest. unfold Json.value_step.
  destruct s as [|c r]; [discriminate|].
  destruct (Ascii.eqb c Json.dquote).
  { destruct (Json.scan_string r) as [[t rest']|] eqn:E; [|discriminate].
    intros [= _ <-]. apply scan_string_length in E. simpl. lia. }
  pose proof (skip_ws_length r) as Hws.
  destruct (Ascii.eqb c "{").
  { destruct (Json.eat "}" (Json.skip_ws r)) as [rest'|] eqn:E.
    - intros [= _ <-]. apply eat_length in E. simpl. lia.
    - destruct (pm (Json.skip_ws r)) as [kvs rest'| |] eqn:E'; try discriminate.
      intros [= _ <-]. apply Hm in E'. simpl. lia. }
  destruct (Ascii.eqb c "[").
  { destruct (Json.eat "]" (Json.skip_ws r)) as [rest'|] eqn:E.
    - intros [= _ <-]. apply eat_length in E. simpl. lia.
    - destruct (pe (Json.skip_ws r)) as [vs rest'| |] eqn:E'; try discriminate.
      intros [= _ <-]. apply He in E'. simpl. lia. }
  destruct (Json.scan_atom (String c r)) as [[v' rest']|] eqn:E; [|discriminate].
  intros [= _ <-]. now apply scan_atom_length in E.
Qed.

Lemma elems_step_consumes pv pe :
  Json.consumes pv -> Json.consumes pe -> Json.consumes (Json.elems_step pv pe).
Proof.
  intros Hv He s vs rest. unfold Json.elems_step.
  destruct (pv s) as [v rest1| |] eqn:E1; try discriminate. apply Hv in E1.
  pose proof (skip_ws_length rest1) as Hws.
  destruct (Json.eat "," (Json.skip_ws rest1)) as [r|] eqn:E2.
  - apply eat_length in E2. pose proof (skip_ws_length r) as Hws'.
    destruct (pe (Json.skip_ws r)) as [vs' rest'| |] eqn:E3; try discriminate.
    intros [= _ <-]. apply He in E3. lia.
  - destruct (Json.eat "]" (Json.skip_ws rest1)) as [r|] eqn:E3; [|discriminate].
    intros [= _ <-]. apply eat_length in E3. lia.
Qed.

Lemma members_step_consumes pv pm :
  Json.consumes pv -> Json.consumes pm -> Json.consumes (Json.members_step pv pm).
Proof.
  intros Hv Hm s kvs rest. unfold Json.members_step.
  destruct (Json.eat Json.dquote s) as [r|] eqn:E0; [|discriminate].
  apply eat_length in E0.
  destruct (Json.scan_string r) as [[k rest0]|] eqn:E1; [|discriminate].
  apply scan_string_length in E1. pose proof (skip_ws_length rest0) as Hws0.
  destruct (Json.eat ":" (Json.skip_ws rest0)) as [r1|] eqn:E2; [|discriminate].
  apply eat_length in E2. pose proof (skip_ws_length r1) as Hws1.
  destruct (pv (Json.skip_ws r1)) as [v rest1| |] eqn:E3; try discriminate.
  apply Hv in E3. pose proof (skip_ws_length rest1) as Hws2.
  destruct (Json.eat "," (Json.skip_ws rest1)) as [r2|] eqn:E4.
  - apply eat_length in E4. pose proof (skip_ws_length r2) as Hws3.
    destruct (pm (Json.skip_ws r2)) as [kvs' rest'| |] eqn:E5; try discriminate.
    intros [= _ <-]. apply Hm in E5. lia.
  - destruct (Json.eat "}" (Json.skip_ws rest1)) as [r2|] eqn:E5; [|discriminate].
    intros [= _ <-]. apply eat_length in E5. lia.
Qed.

Lemma parse_consumes (f : nat) :
  Json.consumes (Json.parse_value f)
  /\ Json.consumes (Json.parse_elems f)
  /\ Json.consumes (Json.parse_members f).
Proof.
  induction f as [|f (IHv & IHe & IHm)].
  - repeat split; intros s a rest H; discriminate H.
  - repeat split; intros s a rest H.
    + rewrite parse_value_S in H. eapply value_step_consumes; eauto.
    + rewrite parse_elems_S in H. eapply elems_step_consumes; eauto.
    + rewrite parse_members_S in H. eapply members_step_consumes; eauto.
Qed.

(** Fuel of twice the length of the text, and one or two more, is never
    used up. *)
Lemma parse_enough_fuel (f : nat) :
  (forall s, 2 * String.length s + 1 <= f -> Json.parse_value f s <> Json.OutOfFuel)
  /\ (forall s, 2 * String.length s + 2 <= f -> Json.parse_elems f s <> Json.OutOfFuel)
  /\ (forall s, 2 * String.length s + 2 <= f -> Json.parse_members f s <> Json.OutOfFuel).
Proof.
  induction f as [|f (IHv & IHe & IHm)].
  - repeat split; intros s H; lia.
  - destruct (parse_consumes f) as (Cv & Ce & Cm). repeat split; intros s Hf.
    + rewrite parse_value_S. unfold Json.value_step.
      destruct s as [|c r]; [discriminate|]. simpl in Hf.
      pose proof (skip_ws_length r) as Hws.
      destruct (Ascii.eqb c Json.dquote);
        [destruct (Json.scan_string r) as [[? ?]|]; discriminate|].
      destruct (Ascii.eqb c "{").
      { destruct (Json.eat "}" (Json.skip_ws r)); [discriminate|].
        specialize (IHm (Json.skip_ws r)).
        destruct (Json.parse_members f (Json.skip_ws r)); try discriminate.
        exfalso. apply IHm; [lia|reflexivity]. }
      destruct (Ascii.eqb c "[").
      { destruct (Json.eat "]" (Json.skip_ws r)); [discriminate|].
        specialize (IHe (Json.skip_ws r)).
        destruct (Json.parse_elems f (Json.skip_ws r)); try discriminate.
        exfalso. apply IHe; [lia|reflexivity]. }
      destruct (Json.scan_atom (String c r)) as [[? ?]|]; discriminate.
    + rewrite parse_elems_S. unfold Json.elems_step.
      pose proof (IHv s) as Hv.
      destruct (Json.parse_value f s) as [v rest1| |] eqn:E1; try discriminate;
        [|exfalso; apply Hv; [lia|reflexivity]].
      apply Cv in E1. pose proof (skip_ws_length rest1) as Hws.
      destruct (Json.eat "," (Json.skip_ws rest1)) as [r|] eqn:E2.
      * apply eat_length in E2. pose proof (skip_ws_length r) as Hws'.
        specialize (IHe (Json.skip_ws r)).
        destruct (Json.parse_elems f (Json.skip_ws r)); try discriminate.
        exfalso. apply IHe; [lia|reflexivity].
      * destruct (Json.eat "]" (Json.skip_ws rest1)); discriminate.
    + rewrite parse_members_S. unfold Json.members_step.
      destruct (Json.eat Json.dquote s) as [r|] eqn:E0; [|discriminate].
      apply eat_length in E0.
      destruct (Json.scan_string r) as [[k rest0]|] eqn:E1; [|discriminate].
      apply scan_string_length in E1. pose proof (skip_ws_length rest0) as Hws0.
      destruct (Json.eat ":" (Json.skip_ws rest0)) as [r1|] eqn:E2; [|discriminate].
      apply eat_length in E2. pose proof (skip_ws_length r1) as Hws1.
      pose proof (IHv (Json.skip_ws r1)) as Hv.
      destruct (Json.parse_value f (Json.skip_ws r1)) as [v rest1| |] eqn:E3;
        try discriminate; [|exfalso; apply Hv; [lia|reflexivity]].
      apply Cv in E3. pose proof (skip_ws_length rest1) as Hws2.
      destruct (Json.eat "," (Json.skip_ws rest1)) as [r2|] eqn:E4.
      * apply eat_length in E4. pose proof (skip_ws_length r2) as Hws3.
        specialize (IHm (Json.skip_ws r2)).
        destruct (Json.parse_members f (Json.skip_ws r2)); try discriminate.
        exfalso. apply IHm; [lia|reflexivity].
      * destruct (Json.eat "}" (Json.skip_ws rest1)); discriminate.
Qed.

(** [json.loads] never fails for lack of fuel. *)
Lemma loads_fuel (s : string) :
  Json.parse_value (2 * String.length s + 1) (Json.skip_ws s) <> Json.OutOfFuel.
Proof.
  apply parse_enough_fuel. pose proof (skip_ws_length s). lia.
Qed.

(** Saving then loading: [json.loads(json.dumps(v, indent=2))] is [v] with
    its tuples turned into lists. *)
Lemma loads_dumps (v : pyval) :
  storable v -> Json.loads (Json.dumps v) = Some (Json.jsonify v).
Proof.
  intros Hs. destruct (storable_reads_back v Hs) as (n & Hn).
  unfold Json.loads, Json.dumps.
  set (s := Json.encode 0 v). set (F := 2 * String.length s + 1).
  assert (Hskip : Json.skip_ws s = s).
  { subst s. rewrite <- (str_app_nil_r (Json.encode 0 v)). now apply skip_ws_encode. }
  pose proof (loads_fuel s) as Hfuel. fold F in Hfuel. rewrite Hskip in Hfuel |- *.
  assert (Hbig : Json.parse_value (Nat.max F n) s = Json.Parsed (Json.jsonify v) "").
  { subst s. rewrite <- (str_app_nil_r (Json.encode 0 v)).
    apply Hn; [lia|reflexivity]. }
  rewrite (parse_value_fuel_le F (Nat.max F n) s) in Hbig by (try lia; assumption).
  now rewrite Hbig.
Qed.

(** *** What the decoder returns can be stored again *)

Lemma span_digits_spec (s d r : string) :
  Json.span_digits s = (d, r) ->
  digits_only d = true /\ nondigit_start r = true /\ s = d ++ r.
Proof.
  revert d r. induction s as [|c s IH]; intros d r H; simpl in H.
  - injection H as <- <-. auto.
  - destruct (Json.is_digit c) eqn:Hc.
    + destruct (Json.span_digits s) as [d' r'] eqn:E. injection H as <- <-.
      destruct (IH _ _ eq_refl) as (H1 & H2 & ->). simpl. rewrite Hc. auto.
    + injection H as <- <-. simpl. rewrite Hc. auto.
Qed.

Lemma span_digits_app (d rest : string) :
  digits_only d = true -> nondigit_start rest = true ->
  Json.span_digits (d ++ rest) = (d, rest).
Proof.
  intros Hd Hr. induction d as [|c d IH]; simpl in *.
  - destruct rest as [|a rest]; [reflexivity|]. simpl in Hr |- *.
    destruct (Json.is_digit a); [discriminate|reflexivity].
  - apply andb_true_iff in Hd. destruct Hd as (Hc & Hd). rewrite Hc, (IH Hd).
    reflexivity.
Qed.

Lemma scan_digits_again (s d r rest : string) :
  Json.scan_digits s = Some (d, r) ->
  nondigit_start rest = true ->
  Json.scan_digits (d ++ rest) = Some (d, rest)
  /\ exists c d', d = String c d' /\ Json.is_digit c = true.
Proof.
  destruct s as [|c s]; [discriminate|]. cbn [Json.scan_digits].
  destruct (Ascii.eqb c "0") eqn:E0.
  - intros [= <- <-] _. split; [reflexivity|]. now exists "0"%char, "".
  - destruct (Json.is_digit c) eqn:Hc; [|discriminate].
    intros H0 Hr.
    assert (H : Json.span_digits (String c s) = (d, r)) by (now injection H0).
    destruct (span_digits_spec _ _ _ H) as (Hd & _ & _).
    cbn [Json.span_digits] in H. rewrite Hc in H.
    destruct (Json.span_digits s) as [d' r'] eqn:E. injection H as <- <-.
    split; [|now exists c, d'].
    cbn [append Json.scan_digits]. rewrite E0, Hc.
    change (String c (d' ++ rest)) with (String c d' ++ rest).
    now rewrite span_digits_app.
Qed.

Lemma scan_int_again (s i r rest : string) :
  Json.scan_int s = Some (i, r) ->
  nondigit_start rest = true ->
  Json.scan_int (i ++ rest) = Some (i, rest)
  /\ exists c i', i = String c i' /\ (Json.is_digit c = true \/ c = "-"%char).
Proof.
  unfold Json.scan_int. intros H Hr.
  destruct (Json.eat "-" s) as [r0|] eqn:E.
  - destruct (Json.scan_digits r0) as [[d t]|] eqn:E'; [|discriminate].
    injection H as <- <-.
    destruct (scan_digits_again _ _ _ rest E' Hr) as (H1 & _).
    split; [|now exists "-"%char, d; auto].
    cbn [append Json.eat]. rewrite Ascii.eqb_refl. now rewrite H1.
  - destruct (scan_digits_again _ _ _ rest H Hr) as (H1 & c & d' & -> & Hc).
    split; [|exists c, d'; auto].
    cbn [append Json.eat].
    assert (Hm : Ascii.eqb c "-" = false).
    { destruct (Ascii.eqb_spec c "-"); [subst; discriminate|reflexivity]. }
    rewrite Hm. exact H1.
Qed.

Lemma string_eqb_nil (d : string) : (d =? "") = false -> d <> "".
Proof. intros H ->. discriminate. Qed.

Lemma scan_frac_again (s fr r rest : string) :
  Json.scan_frac s = (fr, r) ->
  fr <> "" ->
  nondigit_start rest = true ->
  Json.scan_frac (fr ++ rest) = (fr, rest)
  /\ exists fr', fr = String "." fr'.
Proof.
  unfold Json.scan_frac. intros H Hne Hr.
  destruct (Json.eat "." s) as [r0|]; [|injection H as <- _; contradiction].
  destruct (Json.span_digits r0) as [d t] eqn:E.
  destruct (d =? "") eqn:Ed; [injection H as <- _; contradiction|].
  injection H as <- <-. split; [|now exists d].
  destruct (span_digits_spec _ _ _ E) as (Hd & _ & _).
  cbn [append Json.eat]. rewrite Ascii.eqb_refl.
  rewrite span_digits_app by assumption. now rewrite Ed.
Qed.

Lemma scan_exp_again (s ex r rest : string) :
  Json.scan_exp s = (ex, r) ->
  ex <> "" ->
  nondigit_start rest = true ->
  Json.scan_exp (ex ++ rest) = (ex, rest)
  /\ exists e ex', ex = String e ex' /\ (e = "e"%char \/ e = "E"%char).
Proof.
  unfold Json.scan_exp. intros H Hne Hr.
  destruct s as [|e r0]; [injection H as <- _; contradiction|].
  destruct (Ascii.eqb e "e" || Ascii.eqb e "E") eqn:Ee;
    [|injection H as <- _; contradiction].
  assert (He : e = "e"%char \/ e = "E"%char).
  { apply orb_true_iff in Ee. destruct Ee as [Ee|Ee]; apply Ascii.eqb_eq in Ee; auto. }
  assert (Hsign : exists sign r1,
             match Json.eat "+" r0, Json.eat "-" r0 with
             | Some r', _ => ("+", r')
             | None, Some r' => ("-", r')
             | None, None => ("", r0)
             end = (sign, r1)
             /\ forall d t, digits_only d = true -> d <> "" ->
                  match Json.eat "+" (sign ++ d ++ t), Json.eat "-" (sign ++ d ++ t) with
                  | Some r', _ => ("+", r')
                  | None, Some r' => ("-", r')
                  | None, None => ("", sign ++ d ++ t)
                  end = (sign, d ++ t)).
  { destruct (Json.eat "+" r0) as [r'|] eqn:E1.
    - exists "+", r'. split; [reflexivity|]. intros d t _ _. reflexivity.
    - destruct (Json.eat "-" r0) as [r'|] eqn:E2.
      + exists "-", r'. split; [reflexivity|]. intros d t _ _. reflexivity.
      + exists "", r0. split; [reflexivity|]. intros d t Hd Hdne.
        destruct d as [|c d]; [contradiction|]. simpl in Hd.
        apply andb_true_iff in Hd. destruct Hd as (Hc & _).
        cbn [append Json.eat].
        assert (Hp : Ascii.eqb c "+" = false).
        { destruct (Ascii.eqb_spec c "+"); [subst; discriminate|reflexivity]. }
        assert (Hm : Ascii.eqb c "-" = false).
        { destruct (Ascii.eqb_spec c "-"); [subst; discriminate|reflexivity]. }
        now rewrite Hp, Hm. }
  destruct Hsign as (sign & r1 & Es & Hagain). rewrite Es in H.
  destruct (Json.span_digits r1) as [d t] eqn:E.
  destruct (d =? "") eqn:Ed; [injection H as <- _; contradiction|].
  injection H as <- <-. split; [|now exists e, (sign ++ d)].
  destruct (span_digits_spec _ _ _ E) as (Hd & _ & _).
  cbn [append]. rewrite Ee, str_app_assoc.
  rewrite (Hagain d rest Hd (string_eqb_nil d Ed)).
  rewrite span_digits_app by assumption. now rewrite Ed.
Qed.

Lemma value_end_nondigit (rest : string) :
  value_end rest = true -> nondigit_start rest = true.
Proof.
  destruct rest as [|c r]; [reflexivity|]. simpl.
  destruct (Json.is_digit c); [discriminate|reflexivity].
Qed.

Lemma scan_frac_none (e : ascii) (t : string) :
  e = "e"%char \/ e = "E"%char -> Json.scan_frac (String e t) = ("", String e t).
Proof. intros [-> | ->]; reflexivity. Qed.

Lemma nondigit_exp (e : ascii) (t : string) :
  e = "e"%char \/ e = "E"%char -> nondigit_start (String e t) = true.
Proof. intros [-> | ->]; reflexivity. Qed.

(** A float the scanner produced is denoted by a text that reads back. *)
Lemma scan_number_float (s t r : string) :
  Json.scan_number s = Some (PFloat t, r) -> float_text t.
Proof.
  unfold Json.scan_number.
  destruct (Json.scan_int s) as [[i r0]|] eqn:Ei; [|discriminate].
  destruct (Json.scan_frac r0) as [fr r1] eqn:Ef.
  destruct (Json.scan_exp r1) as [ex r2] eqn:Ee.
  destruct ((fr =? "") && (ex =? "")) eqn:Eb; [discriminate|].
  intros [= <- _] rest Hend.
  pose proof (value_end_nondigit rest Hend) as Hnd.
  assert (Hnum : Json.scan_number ((i ++ fr ++ ex) ++ rest)
                 = Some (PFloat (i ++ fr ++ ex), rest)).
  { unfold Json.scan_number. rewrite !str_app_assoc.
    destruct (fr =? "") eqn:Efr; destruct (ex =? "") eqn:Eex; try discriminate Eb.
    - apply String.eqb_eq in Efr. subst fr. apply string_eqb_nil in Eex.
      destruct (scan_exp_again _ _ _ rest Ee Eex Hnd) as (He & e & ex' & -> & Hex).
      destruct (scan_int_again _ _ _ (String e ex' ++ rest) Ei (nondigit_exp e _ Hex))
        as (Hi & _).
      cbn [append] in Hi, He |- *. rewrite Hi, (scan_frac_none e _ Hex), He.
      reflexivity.
    - apply String.eqb_eq in Eex. subst ex. apply string_eqb_nil in Efr.
      destruct (scan_frac_again _ _ _ rest Ef Efr Hnd) as (Hf & fr' & ->).
      destruct (scan_int_again _ _ _ (String "." fr' ++ rest) Ei eq_refl) as (Hi & _).
      cbn [append] in Hi, Hf |- *.
      rewrite Hi, Hf, (scan_exp_end rest Hend). reflexivity.
    - apply string_eqb_nil in Efr, Eex.
      destruct (scan_exp_again _ _ _ rest Ee Eex Hnd) as (He & e & ex' & -> & Hex).
      destruct (scan_frac_again _ _ _ (String e ex' ++ rest) Ef Efr (nondigit_exp e _ Hex))
        as (Hf & fr' & ->).
      destruct (scan_int_again _ _ _ (String "." fr' ++ String e ex' ++ rest) Ei eq_refl)
        as (Hi & _).
      cbn [append] in Hi, Hf, He |- *. rewrite Hi, Hf, He. reflexivity. }
  destruct (scan_int_again _ _ _ "" Ei eq_refl) as (_ & c & i' & -> & Hc).
  cbn [append] in Hnum |- *.
  now rewrite (scan_atom_number c _ Hc), Hnum.
Qed.

Lemma float_text_special :
  float_text "NaN" /\ float_text "Infinity" /\ float_text "-Infinity".
Proof.
  repeat split; intros rest _; unfold Json.scan_atom; cbn [append];
    simpl prefix; rewrite prefix_nil; reflexivity.
Qed.

Lemma scan_number_json_value (s : string) (v : pyval) (rest : string) :
  Json.scan_number s = Some (v, rest) -> json_value v.
Proof.
  intros H. assert (Hc : (exists z, v = PInt z) \/ (exists t, v = PFloat t)).
  { unfold Json.scan_number in H.
    destruct (Json.scan_int s) as [[i r0]|]; [|discriminate].
    destruct (Json.scan_frac r0) as [fr r1]. destruct (Json.scan_exp r1) as [ex r2].
    destruct ((fr =? "") && (ex =? "")); injection H as <- _; eauto. }
  destruct Hc as [(z & ->) | (t & ->)].
  - split; [constructor|reflexivity].
  - split; [|reflexivity]. constructor. eapply scan_number_float; eauto.
Qed.

Lemma scan_atom_json_value (s : string) (v : pyval) (rest : string) :
  Json.scan_atom s = Some (v, rest) -> json_value v.
Proof.
  unfold Json.scan_atom.
  destruct (prefix "null" s); [intros [= <- _]; split; [constructor|reflexivity]|].
  destruct (prefix "true" s); [intros [= <- _]; split; [constructor|reflexivity]|].
  destruct (prefix "false" s); [intros [= <- _]; split; [constructor|reflexivity]|].
  destruct (Json.scan_number s) as [[v' r']|] eqn:En.
  - intros [= <- _]. eapply scan_number_json_value; eauto.
  - destruct float_text_special as (H1 & H2 & H3).
    destruct (prefix "NaN" s);
      [intros [= <- _]; split; [now constructor|reflexivity]|].
    destruct (prefix "Infinity" s);
      [intros [= <- _]; split; [now constructor|reflexivity]|].
    destruct (prefix "-Infinity" s);
      [intros [= <- _]; split; [now constructor|reflexivity]|discriminate].
Qed.

Lemma dict_set_keys_in {A : Type} (k : string) (v : A) (d : list (string * A)) :
  In k (map fst d) -> map fst (dict_set k v d) = map fst d.
Proof.
  induction d as [|[k' v'] d IH]; intros Hin; [destruct Hin|]. simpl in Hin |- *.
  destruct (String.eqb_spec k' k) as [->|Hne]; [reflexivity|]. simpl. f_equal.
  apply IH. destruct Hin as [Heq|Hin]; [contradiction|assumption].
Qed.

Lemma dict_set_keys_nodup {A : Type} (k : string) (v : A) (d : list (string * A)) :
  NoDup (map fst d) -> NoDup (map fst (dict_set k v d)).
Proof.
  intros Hnd. destruct (in_dec string_dec k (map fst d)) as [Hin|Hnin].
  - now rewrite dict_set_keys_in.
  - rewrite dict_set_fresh, map_app by assumption. simpl.
    apply NoDup_app; [assumption|repeat constructor; auto|].
    intros x Hx [<-|[]]. contradiction.
Qed.

Lemma dict_set_forall {A : Type} (P : A -> Prop) (k : string) (v : A)
    (d : list (string * A)) :
  Forall (fun kv => P (snd kv)) d -> P v ->
  Forall (fun kv => P (snd kv)) (dict_set k v d).
Proof.
  intros Hd Hv. induction d as [|[k' v'] d IH]; simpl.
  - now constructor.
  - inversion Hd as [|? ? H1 H2]; subst.
    destruct (k' =? k); constructor; auto.
Qed.

Lemma dict_of_pairs_wf {A : Type} (P : A -> Prop) (l : list (string * A)) :
  Forall (fun kv => P (snd kv)) l ->
  NoDup (map fst (dict_of_pairs l))
  /\ Forall (fun kv => P (snd kv)) (dict_of_pairs l).
Proof.
  unfold dict_of_pairs.
  assert (H : forall acc,
             NoDup (map fst acc) -> Forall (fun kv => P (snd kv)) acc ->
             Forall (fun kv => P (snd kv)) l ->
             NoDup (map fst (fold_left (fun d kv => dict_set (fst kv) (snd kv) d) l acc))
             /\ Forall (fun kv => P (snd kv))
                  (fold_left (fun d kv => dict_set (fst kv) (snd kv) d) l acc)).
  { induction l as [|[k v] l IH]; intros acc Hnd Hacc Hl; simpl; [auto|].
    inversion Hl as [|? ? H1 H2]; subst. apply IH; [| |assumption].
    - now apply dict_set_keys_nodup.
    - now apply dict_set_forall. }
  intros Hl. apply H; [constructor|constructor|assumption].
Qed.

Lemma json_value_list (vs : list pyval) :
  Forall json_value vs -> json_value (PList vs).
Proof.
  intros H. split.
  - constructor. eapply Forall_impl; [|exact H]. now intros v (Hs & _).
  - cbn [Json.jsonify]. f_equal. induction H as [|v vs (_ & Hv) _ IH]; simpl;
      [reflexivity|now rewrite Hv, IH].
Qed.

Lemma json_value_dict (d : list (string * pyval)) :
  NoDup (map fst d) -> Forall (fun kv => json_value (snd kv)) d -> json_value (PDict d).
Proof.
  intros Hnd H. split.
  - constructor; [assumption|]. eapply Forall_impl; [|exact H]. now intros kv (Hs & _).
  - cbn [Json.jsonify]. f_equal. clear Hnd.
    induction H as [|[k v] d (_ & Hv) _ IH]; simpl; [reflexivity|].
    simpl in Hv. now rewrite Hv, IH.
Qed.

Lemma value_step_json_value pe pm :
  (forall s vs rest, pe s = Json.Parsed vs rest -> Forall json_value vs) ->
  (forall s kvs rest, pm s = Json.Parsed kvs rest ->
                      Forall (fun kv => json_value (snd kv)) kvs) ->
  forall s v rest, Json.value_step pe pm s = Json.Parsed v rest -> json_value v.
Proof.
  intros He Hm s v rest. unfold Json.value_step.
  destruct s as [|c r]; [discriminate|].
  destruct (Ascii.eqb c Json.dquote).
  { destruct (Json.scan_string r) as [[t rest']|]; [|discriminate].
    intros [= <- _]. split; [constructor|reflexivity]. }
  destruct (Ascii.eqb c "{").
  { destruct (Json.eat "}" (Json.skip_ws r)).
    - intros [= <- _]. apply json_value_dict; constructor.
    - destruct (pm (Json.skip_ws r)) as [kvs rest'| |] eqn:E; try discriminate.
      intros [= <- _]. apply Hm in E.
      destruct (dict_of_pairs_wf json_value kvs E). now apply json_value_dict. }
  destruct (Ascii.eqb c "[").
  { destruct (Json.eat "]" (Json.skip_ws r)).
    - intros [= <- _]. apply json_value_list. constructor.
    - destruct (pe (Json.skip_ws r)) as [vs rest'| |] eqn:E; try discriminate.
      intros [= <- _]. apply He in E. now apply json_value_list. }
  destruct (Json.scan_atom (String c r)) as [[v' rest']|] eqn:E; [|discriminate].
  intros [= <- _]. eapply scan_atom_json_value; eauto.
Qed.

Lemma parse_json_value (f : nat) :
  (forall s v rest, Json.parse_value f s = Json.Parsed v rest -> json_value v)
  /\ (forall s vs rest, Json.parse_elems f s = Json.Parsed vs rest ->
                        Forall json_value vs)
  /\ (forall s kvs rest, Json.parse_members f s = Json.Parsed kvs rest ->
                         Forall (fun kv => json_value (snd kv)) kvs).
Proof.
  induction f as [|f (IHv & IHe & IHm)].
  - split; [|split]; intros; discriminate.
  - split; [|split].
    + intros s v rest H. rewrite parse_value_S in H.
      eapply value_step_json_value; eauto.
    + intros s vs rest. rewrite parse_elems_S. unfold Json.elems_step.
      destruct (Json.parse_value f s) as [v rest1| |] eqn:E1; try discriminate.
      apply IHv in E1.
      destruct (Json.eat "," (Json.skip_ws rest1)) as [r|].
      * destruct (Json.parse_elems f (Json.skip_ws r)) as [vs' rest'| |] eqn:E2;
          try discriminate.
        intros [= <- _]. apply IHe in E2. now constructor.
      * destruct (Json.eat "]" (Json.skip_ws rest1)); [|discriminate].
        intros [= <- _]. constructor; [assumption|constructor].
    + intros s kvs rest. rewrite parse_members_S. unfold Json.members_step.
      destruct (Json.eat Json.dquote s) as [r|]; [|discriminate].
      destruct (Json.scan_string r) as [[k rest0]|]; [|discriminate].
      destruct (Json.eat ":" (Json.skip_ws rest0)) as [r1|]; [|discriminate].
      destruct (Json.parse_value f (Json.skip_ws r1)) as [v rest1| |] eqn:E1;
        try discriminate.
      apply IHv in E1.
      destruct (Json.eat "," (Json.skip_ws rest1)) as [r2|].
      * destruct (Json.parse_members f (Json.skip_ws r2)) as [kvs' rest'| |] eqn:E2;
          try discriminate.
        intros [= <- _]. apply IHm in E2. now constructor.
      * destruct (Json.eat "}" (Json.skip_ws rest1)); [|discriminate].
        intros [= <- _]. constructor; [assumption|constructor].
Qed.

(** What [json.loads] returns is a JSON value, and writing it out and
    loading it again gives the same value. *)
Lemma loads_json_value (s : string) (v : pyval) :
  Json.loads s = Some v -> json_value v.
Proof.
  unfold Json.loads.
  destruct (Json.parse_value _ (Json.skip_ws s)) as [v' rest| |] eqn:E; try discriminate.
  destruct (Json.skip_ws rest); [|discriminate]. intros [= <-].
  eapply parse_json_value; eauto.
Qed.

Lemma loads_dumps_loads (s : string) (v : pyval) :
  Json.loads s = Some v -> Json.loads (Json.dumps v) = Some v.
Proof.
  intros H. destruct (loads_json_value s v H) as (Hs & Hj).
  now rewrite loads_dumps, Hj.
Qed.

(** ** The cache stays storable *)

Lemma storable_dict_get (d : list (string * pyval)) (k : string) (v : pyval) :
  storable (PDict d) -> dict_get k d = Some v -> storable v.
Proof.
  intros Hs. inversion Hs as [ | | | | | | | d' _ Hd ]; subst. clear Hs.
  induction Hd as [|[k' v'] d Hv _ IH]; simpl; [discriminate|].
  destruct (k' =? k); [now intros [= <-]|exact IH].
Qed.

Lemma storable_get (d : pyval) (k : string) (default v : pyval) :
  storable d -> storable default -> Py.get d k default = Ok v -> storable v.
Proof.
  intros Hd Hdef. destruct d; try discriminate. simpl.
  destruct (dict_get k d) as [x|] eqn:E; intros [= <-]; [|assumption].
  eapply storable_dict_get; eauto.
Qed.

Lemma storable_iter (v : pyval) (l : list pyval) :
  storable v -> Py.iter v = Ok l -> Forall storable l.
Proof.
  intros Hs. destruct v; try discriminate; simpl; intros [= <-].
  - clear Hs. induction s as [|c s IH]; simpl;
      [constructor|constructor; [constructor|assumption]].
  - now inversion Hs.
  - now inversion Hs.
  - apply Forall_forall. intros x Hx. apply in_map_iff in Hx.
    destruct Hx as (kv & <- & _). constructor.
Qed.

Lemma scan_stream_storable (s : pyval) (t : pyval) :
  storable s -> scan_stream s = Ok (Some t) -> storable t.
Proof.
  intros Hs. unfold scan_stream.
  destruct (Py.get s "codec_name" (PStr "")) as [c|]; simpl; [|discriminate].
  destruct (Py.lower c) as [codec|]; simpl; [|discriminate].
  destruct (Py.get s "profile" (PStr "")) as [p|]; simpl; [|discriminate].
  destruct (Py.lower p) as [profile|]; simpl; [|discriminate].
  destruct (Py.get s "tags" (PDict [])) as [tags|] eqn:Et; simpl; [|discriminate].
  destruct (Py.get tags "language" (PStr "unknown")) as [lang|] eqn:El; simpl;
    [|discriminate].
  destruct (classify codec profile); [|discriminate]. intros [= <-].
  assert (Htags : storable tags).
  { eapply storable_get; [exact Hs| |exact Et]. repeat constructor. }
  assert (Hlang : storable lang).
  { eapply storable_get; [exact Htags| |exact El]. constructor. }
  constructor. repeat constructor. exact Hlang.
Qed.

Lemma scan_streams_storable (ss tracks : list pyval) :
  Forall storable ss -> scan_streams ss = Ok tracks -> Forall storable tracks.
Proof.
  intros Hss. revert tracks. induction Hss as [|s ss Hs _ IH]; intros tracks; simpl.
  - intros [= <-]. constructor.
  - destruct (scan_stream s) as [t|] eqn:Et; simpl; [|discriminate].
    destruct (scan_streams ss) as [ts|]; simpl; [|discriminate].
    intros [= <-]. specialize (IH ts eq_refl).
    destruct t as [x|]; [|assumption].
    constructor; [|assumption]. eapply scan_stream_storable; eauto.
Qed.

Lemma tracks_of_data_storable (data : pyval) (tracks : list pyval) :
  storable data -> tracks_of_data data = Ok tracks -> Forall storable tracks.
Proof.
  intros Hd. unfold tracks_of_data.
  destruct (Py.get data "streams" (PList [])) as [streams|] eqn:E1; simpl; [|discriminate].
  destruct (Py.iter streams) as [ss|] eqn:E2; simpl; [|discriminate].
  intros H. eapply scan_streams_storable; [|exact H].
  eapply storable_iter; [|exact E2].
  eapply storable_get; [exact Hd| |exact E1]. repeat constructor.
Qed.

Lemma probe_output_storable (env : Env) (key : string) (data : pyval) :
  probe_output env key = Some data -> storable data.
Proof.
  unfold probe_output. destruct (run_ffprobe env key) as [out|]; [|discriminate].
  intros H. apply loads_json_value in H. exact (proj1 H).
Qed.

Lemma storable_entry (sig : string) (tracks : list pyval) :
  Forall storable tracks -> storable (entry_of sig tracks).
Proof.
  intros H. constructor.
  - simpl. constructor; [intros [E|[]]; discriminate|]. constructor; [intros []|constructor].
  - repeat constructor. exact H.
Qed.

Lemma storable_setitem (c : pyval) (k : string) (x c' : pyval) :
  storable c -> storable x -> Py.setitem c k x = Ok c' -> storable c'.
Proof.
  intros Hc Hx. destruct c; try discriminate. simpl. intros [= <-].
  inversion Hc as [ | | | | | | | d' Hnd Hd ]; subst.
  constructor; [now apply dict_set_keys_nodup|now apply dict_set_forall].
Qed.

Lemma miss_result_tracks (out : option pyval) (c : pyval) (key sig : string)
    (t c' : pyval) :
  miss_result out c key sig = Ok (t, c') ->
  (out = None /\ t = PList [] /\ c' = c)
  \/ exists data tracks,
       out = Some data /\ tracks_of_data data = Ok tracks /\ t = PList tracks
       /\ Py.setitem c key (entry_of sig tracks) = Ok c'.
Proof.
  unfold miss_result. destruct out as [data|].
  - intros H. right. exists data. revert H. unfold tracks_of_data.
    destruct (Py.get data "streams" (PList [])) as [streams|]; simpl; [|discriminate].
    destruct (Py.iter streams) as [ss|]; simpl; [|discriminate].
    destruct (scan_streams ss) as [tracks|]; simpl; [|discriminate].
    destruct (Py.setitem c key (entry_of sig tracks)) as [c2|] eqn:E; simpl; [|discriminate].
    intros [= <- <-]. now exists tracks.
  - intros [= <- <-]. now left.
Qed.

Lemma scan_video_storable (env : Env) (p : Path) (c : pyval) (st : State)
    (t c' : pyval) :
  storable c -> fst (scan_video env p c st) = Ok (t, c') -> storable c'.
Proof.
  intros Hc. destruct (os_stat env (path_str env p)) as [s|] eqn:Hs.
  - rewrite (scan_video_run env p c st s Hs).
    destruct (cache_hit c (path_str env p) (signature_of s)) as [[|]|e]; simpl;
      [| |discriminate].
    + intros H. apply hit_result_cache in H. now subst.
    + intros H. apply miss_result_tracks in H.
      destruct H as [(_ & _ & ->) | (data & tracks & Ho & Ht & _ & Hset)];
        [assumption|].
      eapply storable_setitem; [exact Hc| |exact Hset].
      apply storable_entry. eapply tracks_of_data_storable; [|exact Ht].
      eapply probe_output_storable; eauto.
  - rewrite (scan_video_stat_fails env p c st Hs). discriminate.
Qed.

Lemma scan_loop_storable (env : Env) (total : nat) (files : list Path) :
  forall (i : nat) (c : pyval) (results : list pyval) (st : State)
         (c' : pyval) (res : list pyval),
  storable c ->
  fst (scan_loop env total i files c results st) = Ok (c', res) ->
  storable c'.
Proof.
  induction files as [|f files IH]; intros i c results st c' res Hc.
  - simpl. now intros [= <- _].
  - rewrite scan_loop_cons.
    pose proof (scan_video_storable env f c st) as Hv.
    destruct (scan_video env f c st) as [[[t c1]|e] st1]; simpl in Hv |- *;
      [|discriminate].
    destruct (ts <~ Py.iter t;; rows_of (path_str env f) ts) as [rows|e];
      [|discriminate].
    apply IH. now apply (Hv t c1).
Qed.

(** ** Saving, then loading *)

Lemma save_then_load (c : pyval) (st : State) :
  storable c ->
  load_cache (snd (save_cache c st))
  = (Ok (Json.jsonify c), snd (save_cache c st)).
Proof.
  intros Hc. unfold save_cache, load_cache. simpl. now rewrite loads_dumps.
Qed.

Lemma load_cache_same_file (st st' : State) :
  cache_file st = cache_file st' -> fst (load_cache st) = fst (load_cache st').
Proof.
  intros H. unfold load_cache. rewrite H.
  destruct (cache_file st') as [text|]; [|reflexivity].
  destruct (Json.loads text); reflexivity.
Qed.

Lemma load_cache_json_value (st : State) (c : pyval) :
  fst (load_cache st) = Ok c -> json_value c.
Proof.
  unfold load_cache. destruct (cache_file st) as [text|].
  - destruct (Json.loads text) as [v|] eqn:E; [|discriminate].
    simpl. intros [= <-]. eapply loads_json_value; eauto.
  - simpl. intros [= <-]. apply json_value_dict; constructor.
Qed.

(** ** Round trip of a cache mapping *)

Lemma track_record_value (t : TrackRecord) :
  track_record (track_value t) = Some t
  /\ track_record (Json.jsonify (track_value t)) = Some t
  /\ storable (track_value t).
Proof.
  destruct t as [f lang c p]. repeat split.
  - destruct f; reflexivity.
  - destruct f; reflexivity.
  - repeat constructor.
Qed.

Lemma cache_entry_value (e : CacheEntry) :
  cache_entry (Json.jsonify (entry_value e)) = Some e /\ storable (entry_value e).
Proof.
  destruct e as [s trs]. split.
  - unfold entry_value, entry_of. cbn [Json.jsonify map fst snd cache_entry dict_get].
    cbn [String.eqb Ascii.eqb Bool.eqb entry_sig entry_tracks].
    assert (H : all_some (map track_record (map Json.jsonify (map track_value trs)))
                = Some trs).
    { induction trs as [|t trs IH]; [reflexivity|]. cbn [map all_some].
      destruct (track_record_value t) as (_ & -> & _). now rewrite IH. }
    simpl. simpl in H. now rewrite H.
  - apply storable_entry. apply Forall_forall. intros v Hv.
    apply in_map_iff in Hv. destruct Hv as (t & <- & _). apply track_record_value.
Qed.

Lemma cache_value_storable (m : CacheMap) :
  NoDup (map fst m) -> storable (cache_value m).
Proof.
  intros Hnd. constructor.
  - rewrite map_map. simpl. exact Hnd.
  - apply Forall_forall. intros kv Hkv. apply in_map_iff in Hkv.
    destruct Hkv as (ke & <- & _). simpl. apply cache_entry_value.
Qed.

Lemma cache_entries_value (m : CacheMap) :
  cache_entries (Json.jsonify (cache_value m)) = Some m.
Proof.
  unfold cache_value. cbn [Json.jsonify cache_entries].
  induction m as [|[k e] m IH]; [reflexivity|]. cbn [map all_some fst snd].
  rewrite (proj1 (cache_entry_value e)). now rewrite IH.
Qed.

(** C8. Saving a cache mapping (distinct path keys, each with a signature
    string and a sequence of tracks) and loading it again gives a mapping
    with the same keys in the same order, the same signature strings and the
    same track sequences; the tracks, built as tuples, come back as lists. *)
Theorem cache_round_trip (m : CacheMap) (st : State) :
  NoDup (map fst m) ->
  let st' := snd (save_cache (cache_value m) st) in
  exists d,
    load_cache st' = (Ok (PDict d), st')
    /\ PDict d = Json.jsonify (cache_value m)
    /\ map fst d = map fst m
    /\ cache_entries (PDict d) = Some m.
Proof.
  intros Hnd st'. subst st'.
  exists (map (fun kv => (fst kv, Json.jsonify (snd kv)))
              (map (fun ke => (fst ke, entry_value (snd ke))) m)).
  split; [|split; [|split]].
  - now rewrite (save_then_load _ st (cache_value_storable m Hnd)).
  - reflexivity.
  - rewrite !map_map. reflexivity.
  - apply (cache_entries_value m).
Qed.

Lemma cache_round_trip_witness :
  NoDup (map fst sample_map)
  /\ exists d,
       load_cache (snd (save_cache (cache_value sample_map) st0))
       = (Ok (PDict d), snd (save_cache (cache_value sample_map) st0))
       /\ PDict d = Json.jsonify (cache_value sample_map)
       /\ map fst d = map fst sample_map
       /\ cache_entries (PDict d) = Some sample_map.
Proof.
  assert (Hnd : NoDup (map fst sample_map)).
  { simpl. constructor; [intros [E|[]]; discriminate|].
    constructor; [intros []|constructor]. }
  split; [exact Hnd|]. exact (cache_round_trip sample_map st0 Hnd).
Defined.

(** ** Two scans in a row *)

Lemma cache_hit_true (c : pyval) (k sig : string) :
  cache_hit c k sig = Ok true ->
  exists d e, c = PDict d /\ dict_get k d = Some (PDict e)
              /\ dict_get "sig" e = Some (PStr sig).
Proof.
  unfold cache_hit. destruct c as [| | | | s | l | l | d]; simpl; try discriminate.
  - destruct (PyStr.contains k s); discriminate.
  - destruct (existsb (fun x => Py.eq_str x k) l); discriminate.
  - destruct (existsb (fun x => Py.eq_str x k) l); discriminate.
  - destruct (dict_get k d) as [x|] eqn:Ed; simpl; [|discriminate].
    destruct x as [| | | | | | | e]; simpl; try discriminate.
    destruct (dict_get "sig" e) as [y|] eqn:Ee; simpl; [|discriminate].
    destruct y as [| | | | t | | | ]; simpl; try discriminate.
    intros [= H]. apply String.eqb_eq in H. subst t. now exists d, e.
Qed.

(** A call of [scan_video] that returns, and whose probe, if any, gave
    parseable output, leaves under the file's key an entry that carries the
    file's signature. *)
Lemma scan_video_stores (env : Env) (f : Path) (c : pyval) (st : State)
    (t c' : pyval) :
  let k := path_str env f in
  fst (scan_video env f c st) = Ok (t, c') ->
  probe_output env k <> None ->
  exists s d e, os_stat env k = Some s /\ c' = PDict d
                /\ dict_get k d = Some (PDict e)
                /\ dict_get "sig" e = Some (PStr (signature_of s)).
Proof.
  intros k H Hprobe. destruct (os_stat env k) as [s|] eqn:Hs.
  - rewrite (scan_video_run env f c st s Hs) in H. fold k in H.
    destruct (cache_hit c k (signature_of s)) as [[|]|e] eqn:Eh; simpl in H;
      [| |discriminate].
    + apply hit_result_cache in H. subst c'.
      destruct (cache_hit_true _ _ _ Eh) as (d & e & -> & Hd & He).
      now exists s, d, e.
    + apply miss_result_tracks in H.
      destruct H as [(Hn & _) | (data & tracks & _ & _ & _ & Hset)]; [contradiction|].
      destruct c; try discriminate. simpl in Hset. injection Hset as <-.
      exists s, (dict_set k (entry_of (signature_of s) tracks) d),
             [("sig", PStr (signature_of s)); ("tracks", PList tracks)].
      repeat split. apply dict_get_set_same.
  - rewrite (scan_video_stat_fails env f c st Hs) in H. discriminate.
Qed.

Lemma dict_get_map {A B : Type} (g : A -> B) (k : string) (d : list (string * A)) :
  dict_get k (map (fun kv => (fst kv, g (snd kv))) d) = option_map g (dict_get k d).
Proof.
  induction d as [|[k' v] d IH]; [reflexivity|]. simpl.
  destruct (k' =? k); [reflexivity|exact IH].
Qed.

Lemma json_value_dict_get (d : list (string * pyval)) (k : string) (v : pyval) :
  json_value (PDict d) -> dict_get k d = Some v -> json_value v.
Proof.
  intros (Hs & Hj) Hd. split; [eapply storable_dict_get; eauto|].
  cbn [Json.jsonify] in Hj. injection Hj as Hj.
  pose proof (dict_get_map Json.jsonify k d) as H. rewrite Hj, Hd in H.
  simpl in H. now injection H.
Qed.

(** The cache a scan saves, when it returns: the dictionary the loop ended
    with, which loads again with its tuples turned into lists. *)
Lemma scan_folders_saved (env : Env) (folders : list string) (st : State)
    (rows : list pyval) :
  fst (scan_folders env folders st) = Ok rows ->
  exists c0 c1 st1,
    fst (load_cache st) = Ok c0
    /\ scan_loop env (List.length (collect_files env folders)) 1
         (collect_files env folders) c0 [] st = (Ok (c1, rows), st1)
    /\ storable c1
    /\ cache_file (snd (scan_folders env folders st)) = Some (Json.dumps c1)
    /\ Json.loads (Json.dumps c1) = Some (Json.jsonify c1).
Proof.
  rewrite scan_folders_run.
  destruct (fst (load_cache st)) as [c0|e] eqn:Hload; [|discriminate]. cbv zeta.
  destruct (scan_loop env _ 1 _ c0 [] st) as [[[c1 res]|e] st1] eqn:Hloop;
    [|discriminate].
  simpl. intros [= <-]. exists c0, c1, st1.
  assert (Hs : storable c1).
  { eapply (scan_loop_storable env _ _ 1 c0 [] st c1 res).
    - apply (load_cache_json_value st c0 Hload).
    - now rewrite Hloop. }
  repeat split; try reflexivity; try assumption. now apply loads_dumps.
Qed.

(** After a scan that returned, a file that was enumerated and whose probe,
    if any, gave parseable output has in the saved cache an entry with its
    signature. *)
Lemma scan_folders_stores (env : Env) (folders : list string) (st : State)
    (rows : list pyval) (f : Path) :
  let k := path_str env f in
  let r := scan_folders env folders st in
  fst r = Ok rows ->
  In f (collect_files env folders) ->
  probe_output env k <> None ->
  exists s d e,
    os_stat env k = Some s
    /\ cache_file (snd r) = Some (Json.dumps (PDict d))
    /\ Json.loads (Json.dumps (PDict d)) = Some (Json.jsonify (PDict d))
    /\ dict_get k d = Some (PDict e)
    /\ dict_get "sig" e = Some (PStr (signature_of s)).
Proof.
  intros k r Hok Hin Hprobe. subst r.
  destruct (scan_folders_saved env folders st rows Hok)
    as (c0 & c1 & st1 & Hload & Hloop & Hst & Hfile & Hrt).
  apply in_split in Hin. destruct Hin as (pre & post & Hfiles).
  rewrite Hfiles in Hloop at 2. rewrite scan_loop_app in Hloop.
  destruct (scan_loop env _ 1 pre c0 [] st) as [[[cA rA]|e] stA]; [|discriminate].
  cbn [fst snd] in Hloop. rewrite scan_loop_cons in Hloop.
  pose proof (scan_video_stores env f cA stA) as Hstore. cbv zeta in Hstore.
  destruct (scan_video env f cA stA) as [[[t cB]|e] stB]; [|discriminate].
  destruct (Hstore t cB eq_refl Hprobe) as (s & dB & e & Hs & -> & HdB & He).
  destruct (ts <~ Py.iter (fst (t, PDict dB));; rows_of (path_str env f) ts)
    as [rws|ex]; [|discriminate].
  cbn [fst snd] in Hloop.
  pose proof (scan_loop_keeps_entry env (List.length (collect_files env folders))
                k (PDict e) post
                (fun _ _ _ => ex_intro _ s (ex_intro _ e (conj Hs (conj eq_refl He))))
                (S (1 + List.length pre)) dB (rA ++ rws)%list
                (log stB (EvProgress (1 + List.length pre)
                            (List.length (collect_files env folders))))
                HdB) as (Hkeep & _).
  rewrite Hloop in Hkeep. destruct (Hkeep c1 rows eq_refl) as (d1 & -> & Hd1).
  now exists s, d1, e.
Qed.

(** ** Entries of files that are not scanned *)

(** C9. An entry of the loaded cache whose key is not the path of any
    enumerated file is in the cache persisted at the end of the scan, with
    the value it had: loading the cache file after the scan gives a mapping
    that holds it.  A scan that returns saves the dictionary it ends with,
    which holds the entry; a scan that raises does not write the cache file
    at all. *)
Theorem scan_keeps_other_entries (env : Env) (folders : list string) (st : State)
    (d : list (string * pyval)) (k : string) (v : pyval) :
  let r := scan_folders env folders st in
  fst (load_cache st) = Ok (PDict d) ->
  dict_get k d = Some v ->
  ~ In k (map (path_str env) (collect_files env folders)) ->
  (exists d2, fst (load_cache (snd r)) = Ok (PDict d2) /\ dict_get k d2 = Some v)
  /\ (is_ok (fst r) = true ->
      exists d1, cache_file (snd r) = Some (Json.dumps (PDict d1))
                 /\ dict_get k d1 = Some v)
  /\ (is_ok (fst r) = false -> cache_file (snd r) = cache_file st).
Proof.
  intros r Hload Hd Hnot.
  assert (Hfiles : forall f, In f (collect_files env folders) -> path_str env f = k ->
            exists s e, os_stat env k = Some s /\ v = PDict e
                        /\ dict_get "sig" e = Some (PStr (signature_of s))).
  { intros f Hin Heq. exfalso. apply Hnot. rewrite <- Heq. now apply in_map. }
  destruct (scan_loop_keeps_entry env (List.length (collect_files env folders))
              k v (collect_files env folders) Hfiles 1 d [] st Hd) as (Hc & _).
  pose proof (scan_loop_progress env (List.length (collect_files env folders))
                (collect_files env folders) 1 (PDict d) [] st) as (Hcf & _).
  pose proof (json_value_dict_get d k v (load_cache_json_value st _ Hload) Hd)
    as (_ & Hjv).
  destruct (fst r) as [rows|ex] eqn:Hr.
  - destruct (scan_folders_saved env folders st rows Hr)
      as (c0 & c1 & st1 & Hload' & Hloop & Hst & Hfile & Hrt).
    rewrite Hload in Hload'. injection Hload' as <-.
    rewrite Hloop in Hc. destruct (Hc c1 rows eq_refl) as (d1 & -> & Hd1).
    fold r in Hfile. split; [|split; [|discriminate]].
    + exists (map (fun kv => (fst kv, Json.jsonify (snd kv))) d1). split.
      * unfold load_cache. rewrite Hfile, Hrt. reflexivity.
      * rewrite dict_get_map, Hd1. simpl. now rewrite Hjv.
    + intros _. now exists d1.
  - assert (Hsame : cache_file (snd r) = cache_file st).
    { subst r. rewrite scan_folders_run, Hload in Hr |- *. cbv zeta in Hr |- *.
      destruct (scan_loop env _ 1 _ (PDict d) [] st) as [[cr|ex'] st1];
        [discriminate Hr|exact Hcf]. }
    split; [|split; [discriminate|intros _; exact Hsame]].
    exists d. split; [|exact Hd].
    now rewrite (load_cache_same_file _ st Hsame).
Qed.

Lemma scan_keeps_other_entries_witness :
  let st := {| cache_file := Some (Json.dumps (PDict fresh_cache)); events := [] |} in
  let r := scan_folders env_atmos ["M"] st in
  fst (load_cache st) = Ok (Json.jsonify (PDict fresh_cache))
  /\ ~ In "Z/old.mkv" (map (path_str env_atmos) (collect_files env_atmos ["M"]))
  /\ exists d2, fst (load_cache (snd r)) = Ok (PDict d2)
                /\ dict_get "Z/old.mkv" d2 = Some (entry_of "1_2.0" []).
Proof.
  split; [reflexivity|].
  assert (Hnot : ~ In "Z/old.mkv"
                   (map (path_str env_atmos) (collect_files env_atmos ["M"]))).
  { simpl. intros [H|[H|[H|[]]]]; discriminate. }
  split; [exact Hnot|].
  exact (proj1 (scan_keeps_other_entries env_atmos ["M"]
                  {| cache_file := Some (Json.dumps (PDict fresh_cache)); events := [] |}
                  (map (fun kv => (fst kv, Json.jsonify (snd kv))) fresh_cache)
                  "Z/old.mkv" (entry_of "1_2.0" [])
                  eq_refl eq_refl Hnot)).
Defined.

(** ** Scenarios *)

(** Two folders, one with a TrueHD/Atmos file and one with a plain AAC
    file: the result holds exactly one row, for the Atmos file. *)
Example two_folders_one_atmos_row :
  let aac_output :=
    Json.dumps (PDict [("streams",
                        PList [PDict [("codec_name", PStr "aac");
                                      ("profile", PStr "LC")]])]) in
  let env :=
    {| path_sep := "/";
       os_stat := fun _ => Some sample_stat;
       run_ffprobe := fun p => if p =? "A/film.mkv" then Some atmos_output
                               else Some aac_output;
       fs_dir := fun f =>
         if f =? "A" then Some [("film.mkv", File)]
         else if f =? "B" then Some [("clip.mp4", File)]
         else None |} in
  fst (scan_folders env ["A"; "B"] st0)
  = Ok [PTuple [PStr "A/film.mkv"; PStr "Dolby Atmos"; PStr "eng"; PStr "truehd";
                PStr "dolby truehd + dolby atmos"]].
Proof. reflexivity. Qed.

(** A second scan of an unchanged folder probes nothing and returns the same
    rows. *)
Example second_scan_reuses_cache :
  let r1 := scan_folders env_atmos ["M"] st0 in
  let r2 := scan_folders env_atmos ["M"]
              {| cache_file := cache_file (snd r1); events := [] |} in
  events (snd r1)
  = [EvStat "M/a.mkv"; EvProbe "M/a.mkv"; EvProgress 1 3;
     EvStat "M/x.mkv"; EvProbe "M/x.mkv"; EvProgress 2 3;
     EvStat "M/x.mkv/B.MP4"; EvProbe "M/x.mkv/B.MP4"; EvProgress 3 3]
  /\ events (snd r2)
     = [EvStat "M/a.mkv"; EvProgress 1 3; EvStat "M/x.mkv"; EvProgress 2 3;
        EvStat "M/x.mkv/B.MP4"; EvProgress 3 3]
  /\ fst r2 = fst r1.
Proof. repeat split; reflexivity. Qed.

(* ================================================================== *)
(** * Further properties of the code *)
(* ================================================================== *)

(** ** Signatures *)

Lemma uint_text_number (u : Decimal.uint) :
  number_text (NilEmpty.string_of_uint u) = true.
Proof. induction u; simpl; auto. Qed.

Lemma of_Z_number_text (z : Z) : number_text (PyStr.of_Z z) = true.
Proof.
  unfold PyStr.of_Z. destruct (Z.to_int z) as [u|u]; cbn [NilZero.string_of_int];
    unfold NilZero.string_of_uint; destruct u; try reflexivity;
    apply (uint_text_number (_ u)) || (simpl; apply uint_text_number).
Qed.

Lemma of_Z_inj (a b : Z) : PyStr.of_Z a = PyStr.of_Z b -> a = b.
Proof.
  intros H. rewrite <- (int_of_text_of_Z a), <- (int_of_text_of_Z b). now rewrite H.
Qed.

(** Two texts that start with a number and go on with a character no number
    holds agree on the number, on that character and on the rest. *)
Lemma split_after_number (a b : string) (c c' : ascii) (m m' : string) :
  number_text a = true -> number_text b = true ->
  number_char c = false -> number_char c' = false ->
  a ++ String c m = b ++ String c' m' -> a = b /\ c = c' /\ m = m'.
Proof.
  intros Ha Hb Hc Hc'. revert b Hb.
  induction a as [|x a IH]; intros [|y b] Hb H; simpl in *.
  - injection H as -> ->. auto.
  - injection H as -> _. apply andb_true_iff in Hb. destruct Hb as (Hb & _). congruence.
  - injection H as -> _. apply andb_true_iff in Ha. destruct Ha as (Ha & _). congruence.
  - injection H as -> H.
    apply andb_true_iff in Ha, Hb. destruct Ha as (_ & Ha). destruct Hb as (_ & Hb).
    destruct (IH Ha b Hb H) as (-> & -> & ->). auto.
Qed.

Lemma signature_of_inj (s1 s2 : stat_result) :
  signature_of s1 = signature_of s2 ->
  st_size s1 = st_size s2 /\ st_mtime s1 = st_mtime s2.
Proof.
  unfold signature_of. intros H.
  apply split_after_number in H; try apply of_Z_number_text; try reflexivity.
  destruct H as (H1 & _ & H2). split; [now apply of_Z_inj|assumption].
Qed.

(** X1. Change detection is exact: two signatures are equal only when size and
    modification time are both equal, so the entry stored for a file is
    reused by [scan_video]'s test exactly when neither has changed. *)
Theorem signature_detects_every_change :
  (forall s1 s2 : stat_result,
      signature_of s1 = signature_of s2
      <-> st_size s1 = st_size s2 /\ st_mtime s1 = st_mtime s2)
  /\ (forall (d : list (string * pyval)) (key : string) (tracks : list pyval)
             (s_old s_new : stat_result),
         dict_get key d = Some (entry_of (signature_of s_old) tracks) ->
         cache_hit (PDict d) key (signature_of s_new)
         = Ok ((st_size s_old =? st_size s_new)%Z
               && (st_mtime s_old =? st_mtime s_new))).
Proof.
  split.
  - intros s1 s2. split; [apply signature_of_inj|].
    intros (H1 & H2). unfold signature_of. now rewrite H1, H2.
  - intros d key tracks s_old s_new Hd.
    unfold cache_hit. simpl. rewrite Hd. simpl.
    destruct (String.eqb_spec (signature_of s_old) (signature_of s_new)) as [He|Hne].
    + apply signature_of_inj in He. destruct He as (-> & ->).
      now rewrite Z.eqb_refl, String.eqb_refl.
    + destruct (Z.eqb_spec (st_size s_old) (st_size s_new)) as [Hz|]; [|reflexivity].
      destruct (String.eqb_spec (st_mtime s_old) (st_mtime s_new)) as [Hm|];
        [|reflexivity].
      exfalso. apply Hne. unfold signature_of. now rewrite Hz, Hm.
Qed.

(** The cached entry was made at size 10 and time 1.5; the file now has time
    1.6 and the same size: the entry is not reused. *)
Lemma signature_detects_every_change_witness :
  dict_get "M/a.mkv" fresh_cache = Some (entry_of (signature_of sample_stat) [atmos_track])
  /\ cache_hit (PDict fresh_cache) "M/a.mkv"
       (signature_of {| st_size := 10; st_mtime := "1.6" |})
     = Ok false.
Proof.
  split; [reflexivity|].
  exact (proj2 signature_detects_every_change fresh_cache "M/a.mkv" [atmos_track]
           sample_stat {| st_size := 10; st_mtime := "1.6" |} eq_refl).
Defined.

(** ** The calls a scan makes *)

Lemma count_probes_app (k : string) (l1 l2 : list event) :
  count_probes k (l1 ++ l2) = count_probes k l1 + count_probes k l2.
Proof.
  induction l1 as [|[p|p|c t] l1 IH]; simpl; try assumption; [reflexivity|].
  rewrite IH. apply Nat.add_assoc.
Qed.

Lemma count_probes_absent (k : string) (l : list event) :
  ~ In (EvProbe k) l -> count_probes k l = 0.
Proof.
  induction l as [|[p|p|c t] l IH]; simpl; intros H; auto.
  destruct (String.eqb_spec p k) as [->|_].
  - exfalso. apply H. now left.
  - apply IH. intros Hin. apply H. now right.
Qed.

(** [scan_video] and the loop read nothing of the state: run from any state,
    they give the result of a run from the empty state, and append its events. *)
Lemma scan_video_frame (env : Env) (p : Path) (c : pyval) (st : State) :
  scan_video env p c st =
    (fst (scan_video env p c st0),
     {| cache_file := cache_file st;
        events := (events st ++ events (snd (scan_video env p c st0)))%list |}).
Proof.
  destruct (os_stat env (path_str env p)) as [s|] eqn:Hs.
  - rewrite (scan_video_run env p c st s Hs), (scan_video_run env p c st0 s Hs).
    cbv zeta.
    destruct (cache_hit c (path_str env p) (signature_of s)) as [[|]|e];
      unfold log; simpl; try reflexivity.
    now rewrite <- app_assoc.
  - now rewrite (scan_video_stat_fails env p c st Hs),
                (scan_video_stat_fails env p c st0 Hs).
Qed.

Lemma scan_loop_frame (env : Env) (total : nat) (files : list Path) :
  forall (i : nat) (c : pyval) (results : list pyval) (st : State),
  scan_loop env total i files c results st =
    (fst (scan_loop env total i files c results st0),
     {| cache_file := cache_file st;
        events := (events st
                   ++ events (snd (scan_loop env total i files c results st0)))%list |}).
Proof.
  induction files as [|f files IH]; intros i c results st.
  - simpl. unfold ret. simpl. rewrite app_nil_r. now destruct st.
  - rewrite (scan_loop_cons env total i f files c results st),
            (scan_loop_cons env total i f files c results st0).
    rewrite (scan_video_frame env f c st).
    destruct (scan_video env f c st0) as [[tc|e] st1]; cbn [fst snd];
      [|reflexivity].
    destruct (ts <~ Py.iter (fst tc);; rows_of (path_str env f) ts) as [rows|e];
      [|reflexivity].
    rewrite (IH (S i) (snd tc) (results ++ rows)%list
               (log {| cache_file := cache_file st;
                       events := (events st ++ events st1)%list |}
                    (EvProgress i total))).
    rewrite (IH (S i) (snd tc) (results ++ rows)%list (log st1 (EvProgress i total))).
    unfold log. cbn [fst snd events cache_file].
    f_equal. f_equal. now rewrite <- !app_assoc.
Qed.

Lemma scan_video_events (env : Env) (p : Path) (c : pyval) (st : State) :
  exists b, events (snd (scan_video env p c st))
            = (events st ++ aborted_events (path_str env p) b)%list.
Proof.
  pose proof (scan_video_shape env p c st) as (_ & [H|H] & _); cbv zeta in H.
  - now exists false.
  - now exists true.
Qed.

Lemma scan_loop_trace (env : Env) (total : nat) (files : list Path) :
  forall (i : nat) (c : pyval) (results : list pyval) (st : State),
  let r := scan_loop env total i files c results st in
  let keys := map (path_str env) files in
  exists probed,
    if is_ok (fst r)
    then List.length probed = List.length keys
         /\ events (snd r) = (events st ++ loop_events keys probed i total)%list
    else List.length probed < List.length keys
         /\ exists b,
              events (snd r)
              = (events st ++ loop_events keys probed i total
                 ++ aborted_events (nth (List.length probed) keys "") b)%list.
Proof.
  induction files as [|f files IH]; intros i c results st; cbv zeta.
  - exists []. simpl. now rewrite app_nil_r.
  - rewrite scan_loop_cons.
    destruct (scan_video_events env f c st) as (b & Hev).
    destruct (scan_video env f c st) as [[tc|e] st1]; cbn [fst snd] in Hev |- *.
    + destruct (ts <~ Py.iter (fst tc);; rows_of (path_str env f) ts) as [rows|e].
      * destruct (IH (S i) (snd tc) (results ++ rows)%list
                    (log st1 (EvProgress i total))) as (probed & H).
        cbv zeta in H. exists (b :: probed).
        destruct (is_ok (fst (scan_loop env total (S i) files (snd tc) _ _))).
        -- destruct H as (Hlen & H). split; [simpl; now rewrite Hlen|].
           rewrite H. unfold log. cbn [events map loop_events]. rewrite Hev.
           unfold file_events, aborted_events. rewrite <- !app_assoc. simpl.
           now rewrite <- !app_assoc.
        -- destruct H as (Hlen & b' & H). split; [simpl; lia|].
           exists b'. rewrite H. unfold log. cbn [events map loop_events]. rewrite Hev.
           unfold file_events, aborted_events at 1. rewrite <- !app_assoc. simpl.
           now rewrite <- !app_assoc.
      * exists []. simpl. split; [lia|]. exists b. exact Hev.
    + exists []. simpl. split; [lia|]. exists b. exact Hev.
Qed.

Lemma count_probes_aborted (k key : string) (b : bool) :
  count_probes k (aborted_events key b) <= 1
  /\ (key <> k -> count_probes k (aborted_events key b) = 0).
Proof.
  unfold aborted_events. destruct b; simpl; [|split; auto].
  destruct (String.eqb_spec key k); split; auto; intros; congruence.
Qed.

Lemma scan_loop_probes_once (env : Env) (total : nat) (k : string) (files : list Path) :
  probe_output env k <> None ->
  forall (i : nat) (c : pyval) (results : list pyval),
  count_probes k (events (snd (scan_loop env total i files c results st0))) <= 1.
Proof.
  intros Hprobe. induction files as [|f files IH]; intros i c results.
  - simpl. lia.
  - rewrite scan_loop_cons.
    destruct (scan_video_events env f c st0) as (b & Hev).
    pose proof (count_probes_aborted k (path_str env f) b) as (Hle & Hne).
    pose proof (scan_video_stores env f c st0) as Hstore. cbv zeta in Hstore.
    destruct (scan_video env f c st0) as [[[t c1]|e] st1]; cbn [fst snd] in Hev, Hstore |- *;
      [|rewrite Hev; exact Hle].
    destruct (ts <~ Py.iter t;; rows_of (path_str env f) ts) as [rows|e];
      [|cbn [snd]; rewrite Hev; exact Hle].
    rewrite scan_loop_frame. cbn [snd events log]. rewrite Hev.
    rewrite !count_probes_app. simpl (count_probes k [EvProgress _ _]).
    change (count_probes k (events st0)) with 0.
    destruct (String.eqb_spec (path_str env f) k) as [Heq|Hneq].
    + rewrite Heq in Hstore.
      destruct (Hstore t c1 eq_refl Hprobe) as (s & d & e & Hs & -> & Hd & He).
      pose proof (scan_loop_keeps_entry env total k (PDict e) files
                    (fun _ _ _ => ex_intro _ s (ex_intro _ e (conj Hs (conj eq_refl He))))
                    (S i) d (results ++ rows)%list st0 Hd) as (_ & Hno).
      cbv zeta in Hno. rewrite (count_probes_absent k _ (Hno (fun H => H))). lia.
    + rewrite (Hne Hneq). specialize (IH (S i) c1 (results ++ rows)%list). lia.
Qed.

(** X3. A file whose probe output parses is probed at most once in a scan,
    however many times the folders enumerate it: after its first probe the
    cache holds its current signature. *)
Theorem parsed_probe_is_not_repeated (env : Env) (folders : list string) (st : State)
    (k : string) :
  probe_output env k <> None ->
  count_probes k (events (snd (scan_folders env folders st)))
  <= count_probes k (events st) + 1.
Proof.
  intros Hprobe. rewrite scan_folders_run.
  destruct (fst (load_cache st)) as [c0|e]; [|simpl; lia]. cbv zeta.
  pose proof (scan_loop_probes_once env (List.length (collect_files env folders)) k
                (collect_files env folders) Hprobe 1 c0 []) as H.
  rewrite scan_loop_frame.
  destruct (fst (scan_loop env _ 1 _ c0 [] st0)) as [cr|e]; cbn [snd events];
    rewrite count_probes_app; lia.
Qed.

(** The file that both copies of folder [M] enumerate is probed once. *)
Lemma parsed_probe_is_not_repeated_witness :
  probe_output env_atmos "M/a.mkv" <> None
  /\ count_occ string_dec
       (map (path_str env_atmos) (collect_files env_atmos ["M"; "M"])) "M/a.mkv" = 2
  /\ count_probes "M/a.mkv" (events (snd (scan_folders env_atmos ["M"; "M"] st0)))
     <= count_probes "M/a.mkv" (events st0) + 1.
Proof.
  split; [vm_compute; discriminate|]. split; [reflexivity|].
  apply (parsed_probe_is_not_repeated env_atmos ["M"; "M"] st0 "M/a.mkv").
  vm_compute. discriminate.
Defined.

(** ** The rows a scan returns *)

Lemma rows_of_shape (k : string) (ts rows : list pyval) :
  rows_of k ts = Ok rows -> Forall (row_of_file k) rows.
Proof.
  revert rows. induction ts as [|t ts IH]; intros rows; simpl.
  - intros [= <-]. constructor.
  - destruct (Py.iter t) as [fields|e]; [|discriminate]. simpl.
    destruct (rows_of k ts) as [rs|e]; [|discriminate]. simpl.
    intros [= <-]. constructor; [now exists fields|]. now apply IH.
Qed.

Lemma scan_loop_rows (env : Env) (total : nat) (files : list Path) :
  forall (i : nat) (c : pyval) (results : list pyval) (st : State)
         (c' : pyval) (res : list pyval),
  fst (scan_loop env total i files c results st) = Ok (c', res) ->
  exists groups,
    res = (results ++ concat groups)%list
    /\ Forall2 (fun f g => Forall (row_of_file (path_str env f)) g) files groups.
Proof.
  induction files as [|f files IH]; intros i c results st c' res.
  - simpl. intros [= _ <-]. exists []. split; [now rewrite app_nil_r|constructor].
  - rewrite scan_loop_cons.
    destruct (scan_video env f c st) as [[tc|e] st1]; [|discriminate].
    destruct (ts <~ Py.iter (fst tc);; rows_of (path_str env f) ts) as [rows|e] eqn:Hrows;
      [|discriminate].
    intros H. destruct (IH _ _ _ _ _ _ H) as (groups & -> & Hall).
    exists (rows :: groups). split; [simpl; now rewrite app_assoc|].
    constructor; [|assumption].
    destruct (Py.iter (fst tc)) as [ts|e]; [|discriminate].
    simpl in Hrows. eapply rows_of_shape; eauto.
Qed.

(** X4. The rows a scan returns are grouped by file, in the order the files
    were enumerated, and every row of a file's group starts with that file's
    path as [str] prints it. *)
Theorem rows_are_grouped_by_file (env : Env) (folders : list string) (st : State)
    (rows : list pyval) :
  fst (scan_folders env folders st) = Ok rows ->
  exists groups,
    rows = concat groups
    /\ Forall2 (fun f g => Forall (row_of_file (path_str env f)) g)
         (collect_files env folders) groups.
Proof.
  rewrite scan_folders_run.
  destruct (fst (load_cache st)) as [c0|e]; [|discriminate]. cbv zeta.
  pose proof (scan_loop_rows env (List.length (collect_files env folders))
                (collect_files env folders) 1 c0 [] st) as H.
  destruct (scan_loop env _ 1 _ c0 [] st) as [[[c1 res]|e] st1]; [|discriminate].
  simpl. intros [= <-]. exact (H c1 res eq_refl).
Qed.

Lemma rows_are_grouped_by_file_witness :
  exists rows,
    fst (scan_folders env_atmos ["M"] st0) = Ok rows
    /\ exists groups,
         rows = concat groups
         /\ Forall2 (fun f g => Forall (row_of_file (path_str env_atmos f)) g)
              (collect_files env_atmos ["M"]) groups.
Proof.
  eexists. split; [vm_compute; reflexivity|].
  apply (rows_are_grouped_by_file env_atmos ["M"] st0). vm_compute. reflexivity.
Defined.

(** ** What a scan does to the cache file *)

Lemma scan_loop_cache_file (env : Env) (total i : nat) (files : list Path)
    (c : pyval) (results : list pyval) (st : State) :
  cache_file (snd (scan_loop env total i files c results st)) = cache_file st.
Proof. now rewrite scan_loop_frame. Qed.

(** The value [load_cache] gave is what it gives again once that value has
    been saved. *)
Lemma load_save_load (st : State) (c : pyval) :
  fst (load_cache st) = Ok c ->
  load_cache (snd (save_cache c st)) = (Ok c, snd (save_cache c st)).
Proof.
  intros H. apply load_cache_json_value in H. destruct H as (Hs & Hj).
  rewrite (save_then_load c st Hs). now rewrite Hj.
Qed.

Lemma scan_video_non_dict (env : Env) (p : Path) (c : pyval) (st : State)
    (t c' : pyval) :
  (forall d, c <> PDict d) ->
  fst (scan_video env p c st) = Ok (t, c') ->
  t = PList [] /\ c' = c /\ probe_output env (path_str env p) = None.
Proof.
  intros Hc. destruct (os_stat env (path_str env p)) as [s|] eqn:Hs.
  - rewrite (scan_video_run env p c st s Hs). cbv zeta.
    destruct (cache_hit c (path_str env p) (signature_of s)) as [[|]|e] eqn:Eh;
      cbn [fst]; [| |discriminate].
    + destruct (cache_hit_true _ _ _ Eh) as (d & _ & Hd & _). now destruct (Hc d).
    + intros H. apply miss_result_tracks in H.
      destruct H as [(Ho & -> & ->) | (data & tracks & _ & _ & _ & Hset)]; [auto|].
      destruct c; try discriminate. now destruct (Hc d).
  - rewrite (scan_video_stat_fails env p c st Hs). discriminate.
Qed.

Lemma scan_loop_non_dict (env : Env) (total : nat) (files : list Path) (c : pyval) :
  (forall d, c <> PDict d) ->
  forall (i : nat) (results : list pyval) (st : State) (c' : pyval) (res : list pyval),
  fst (scan_loop env total i files c results st) = Ok (c', res) ->
  c' = c /\ res = results
  /\ forall f, In f files -> probe_output env (path_str env f) = None.
Proof.
  intros Hc. induction files as [|f files IH]; intros i results st c' res.
  - simpl. intros [= <- <-]. repeat split. intros f [].
  - rewrite scan_loop_cons.
    pose proof (scan_video_non_dict env f c st) as Hv.
    destruct (scan_video env f c st) as [[[t c1]|e] st1]; [|discriminate].
    destruct (Hv t c1 Hc eq_refl) as (-> & -> & Hp). cbn [fst snd].
    change (ts <~ Py.iter (PList []);; rows_of (path_str env f) ts)
      with (@Ok (list pyval) []).
    cbv iota. rewrite app_nil_r. intros H. destruct (IH _ _ _ _ _ H) as (-> & -> & Hrest).
    repeat split. intros f0 [<-|Hin]; auto.
Qed.

(** X5. A cache file that holds JSON other than an object is never repaired
    and blocks every probe result: whatever a scan does, the next
    [load_cache] gives the same value again, and a scan returns only when
    the probe of every enumerated file failed, with no row at all; so a scan
    that enumerates one file whose probe output parses raises. *)
Theorem non_dict_cache_is_never_repaired (env : Env) (folders : list string)
    (st : State) (c : pyval) :
  fst (load_cache st) = Ok c ->
  (forall d, c <> PDict d) ->
  let r := scan_folders env folders st in
  fst (load_cache (snd r)) = Ok c
  /\ (forall rows, fst r = Ok rows ->
        rows = []
        /\ forall f, In f (collect_files env folders) ->
                     probe_output env (path_str env f) = None).
Proof.
  intros Hload Hc r. subst r. rewrite scan_folders_run, Hload. cbv zeta.
  pose proof (scan_loop_non_dict env (List.length (collect_files env folders))
                (collect_files env folders) c Hc 1 [] st) as H.
  pose proof (scan_loop_cache_file env (List.length (collect_files env folders)) 1
                (collect_files env folders) c [] st) as Hfile.
  destruct (scan_loop env _ 1 _ c [] st) as [[[c1 res]|e] st1]; cbn [fst snd] in *.
  - destruct (H c1 res eq_refl) as (-> & -> & Hp). split.
    + pose proof (load_save_load st c Hload) as Hsl. unfold save_cache in Hsl.
      cbn [snd] in Hsl.
      rewrite (load_cache_same_file
                 {| cache_file := Some (Json.dumps c); events := events st1 |}
                 {| cache_file := Some (Json.dumps c); events := events st |} eq_refl).
      now rewrite Hsl.
    + intros rows [= <-]. split; [reflexivity|exact Hp].
  - split; [|discriminate]. now rewrite (load_cache_same_file st1 st Hfile).
Qed.

(** The cache file holds [[]].  Where the prober is missing the scan returns
    no row and writes [[]] back; where a probe output parses the scan raises
    [TypeError] once it gets to storing the entry. *)
Lemma non_dict_cache_is_never_repaired_witness :
  let st := {| cache_file := Some "[]"; events := [] |} in
  fst (load_cache st) = Ok (PList [])
  /\ fst (scan_folders env_atmos ["M"] st) = Raise TypeError
  /\ fst (load_cache (snd (scan_folders env_noprobe ["M"] st))) = Ok (PList [])
  /\ (forall rows, fst (scan_folders env_noprobe ["M"] st) = Ok rows ->
        rows = []
        /\ forall f, In f (collect_files env_noprobe ["M"]) ->
                     probe_output env_noprobe (path_str env_noprobe f) = None).
Proof.
  cbv zeta. split; [reflexivity|]. split; [reflexivity|].
  apply (non_dict_cache_is_never_repaired env_noprobe ["M"]
           {| cache_file := Some "[]"; events := [] |} (PList [])).
  - reflexivity.
  - intros d. discriminate.
Defined.

Lemma dict_set_keys {A : Type} (k : string) (v : A) (d : list (string * A)) :
  exists added, map fst (dict_set k v d) = (map fst d ++ added)%list /\ incl added [k].
Proof.
  induction d as [|[k' v'] d (added & IH & Hincl)]; simpl.
  - exists [k]. split; [reflexivity|apply incl_refl].
  - destruct (k' =? k).
    + exists []. simpl. rewrite app_nil_r. split; [reflexivity|intros x []].
    + exists added. simpl. now rewrite IH.
Qed.

Lemma scan_video_keys (env : Env) (p : Path) (d : list (string * pyval)) (st : State)
    (t c' : pyval) :
  fst (scan_video env p (PDict d) st) = Ok (t, c') ->
  exists d' added,
    c' = PDict d' /\ dict_keys d' = (dict_keys d ++ added)%list
    /\ incl added [path_str env p].
Proof.
  intros H.
  pose proof (scan_video_shape env p (PDict d) st) as (_ & _ & Hc). cbv zeta in Hc.
  destruct (Hc t c' H) as [->|(e & He)].
  - exists d, []. rewrite app_nil_r. repeat split. intros x [].
  - simpl in He. injection He as <-.
    destruct (dict_set_keys (path_str env p) e d) as (added & Hk & Hincl).
    now exists (dict_set (path_str env p) e d), added.
Qed.

Lemma scan_loop_keys (env : Env) (total : nat) (files : list Path) :
  forall (i : nat) (d : list (string * pyval)) (results : list pyval) (st : State)
         (c' : pyval) (res : list pyval),
  fst (scan_loop env total i files (PDict d) results st) = Ok (c', res) ->
  exists d' added,
    c' = PDict d' /\ dict_keys d' = (dict_keys d ++ added)%list
    /\ incl added (map (path_str env) files).
Proof.
  induction files as [|f files IH]; intros i d results st c' res.
  - simpl. intros [= <- _]. exists d, []. rewrite app_nil_r. repeat split. intros x [].
  - rewrite scan_loop_cons.
    pose proof (scan_video_keys env f d st) as Hv.
    destruct (scan_video env f (PDict d) st) as [[[t c1]|e] st1]; [|discriminate].
    destruct (Hv t c1 eq_refl) as (d1 & a1 & -> & Hk1 & Hi1). cbn [fst snd].
    destruct (ts <~ Py.iter t;; rows_of (path_str env f) ts) as [rows|e];
      [|discriminate].
    intros H. destruct (IH _ _ _ _ _ _ H) as (d2 & a2 & -> & Hk2 & Hi2).
    exists d2, (a1 ++ a2)%list. split; [reflexivity|].
    split; [now rewrite Hk2, Hk1, app_assoc|].
    apply incl_app.
    + intros x Hx. apply Hi1 in Hx. destruct Hx as [<-|[]]. now left.
    + intros x Hx. right. now apply Hi2.
Qed.

(** X6. The cache file only grows.  When the cache file loads as a
    dictionary, then after a scan, whether it returned or raised, the file
    loads as a dictionary again, with the keys it had, in the order they had,
    followed by keys that are all paths of enumerated files: no scan drops
    the entry of a file that is gone or no longer scanned. *)
Theorem cache_keys_only_grow (env : Env) (folders : list string) (st : State)
    (d : list (string * pyval)) :
  fst (load_cache st) = Ok (PDict d) ->
  exists d' added,
    fst (load_cache (snd (scan_folders env folders st))) = Ok (PDict d')
    /\ dict_keys d' = (dict_keys d ++ added)%list
    /\ incl added (map (path_str env) (collect_files env folders)).
Proof.
  intros Hload. rewrite scan_folders_run, Hload. cbv zeta.
  pose proof (scan_loop_keys env (List.length (collect_files env folders))
                (collect_files env folders) 1 d [] st) as H.
  pose proof (scan_loop_storable env (List.length (collect_files env folders))
                (collect_files env folders) 1 (PDict d) [] st) as Hst.
  pose proof (scan_loop_cache_file env (List.length (collect_files env folders)) 1
                (collect_files env folders) (PDict d) [] st) as Hfile.
  destruct (scan_loop env _ 1 _ (PDict d) [] st) as [[[c1 res]|e] st1];
    cbn [fst snd] in *.
  - destruct (H c1 res eq_refl) as (d1 & added & -> & Hk & Hincl).
    exists (map (fun kv => (fst kv, Json.jsonify (snd kv))) d1), added.
    split; [|split; [|exact Hincl]].
    + unfold load_cache. cbn [cache_file].
      rewrite loads_dumps; [reflexivity|].
      apply (Hst (PDict d1) res); [|reflexivity].
      apply (load_cache_json_value st _ Hload).
    + unfold dict_keys in *. rewrite map_map. simpl. exact Hk.
  - exists d, []. rewrite app_nil_r.
    split; [|split; [reflexivity|intros x []]].
    now rewrite (load_cache_same_file st1 st Hfile).
Qed.

(** The entry of [Z/old.mkv], a file no folder holds, stays in the file. *)
Lemma cache_keys_only_grow_witness :
  let st := {| cache_file := Some (Json.dumps (PDict fresh_cache)); events := [] |} in
  exists d d' added,
    fst (load_cache st) = Ok (PDict d)
    /\ In "Z/old.mkv" (dict_keys d)
    /\ fst (load_cache (snd (scan_folders env_atmos ["M"] st))) = Ok (PDict d')
    /\ dict_keys d' = (dict_keys d ++ added)%list
    /\ incl added (map (path_str env_atmos) (collect_files env_atmos ["M"])).
Proof.
  cbv zeta. eexists.
  assert (Hload : fst (load_cache {| cache_file := Some (Json.dumps (PDict fresh_cache));
                                     events := [] |})
                  = Ok (Json.jsonify (PDict fresh_cache)))
    by (vm_compute; reflexivity).
  destruct (cache_keys_only_grow env_atmos ["M"] _ _ Hload) as (d' & added & H).
  exists d', added. split; [exact Hload|]. split; [simpl; auto|exact H].
Defined.

Lemma encode_items_jsonify (level : nat) (l : list pyval) :
  Forall (fun v => forall n, Json.encode n (Json.jsonify v) = Json.encode n v) l ->
  encode_items level (map Json.jsonify l) = encode_items level l.
Proof.
  induction 1 as [|y ys Hy _ IH]; [reflexivity|].
  unfold encode_items in *. cbn [map fold_right]. now rewrite Hy, IH.
Qed.

Lemma encode_members_jsonify (level : nat) (d : list (string * pyval)) :
  Forall (fun kv => forall n, Json.encode n (Json.jsonify (snd kv)) = Json.encode n (snd kv))
    d ->
  encode_members level (map (fun kv => (fst kv, Json.jsonify (snd kv))) d)
  = encode_members level d.
Proof.
  induction 1 as [|[k y] ys Hy _ IH]; [reflexivity|].
  unfold encode_members in *. cbn [map fold_right fst snd] in *. now rewrite Hy, IH.
Qed.

Lemma encode_jsonify (v : pyval) :
  forall level, Json.encode level (Json.jsonify v) = Json.encode level v.
Proof.
  induction v as [| | | | |l IH|l IH|d IH] using pyval_induction; intros level;
    try reflexivity.
  - destruct l as [|x xs]; [reflexivity|]. cbn [Json.jsonify map].
    rewrite !encode_list. inversion IH as [|? ? Hx Hxs]; subst.
    now rewrite Hx, (encode_items_jsonify _ xs Hxs).
  - rewrite encode_tuple. destruct l as [|x xs]; [reflexivity|]. cbn [Json.jsonify map].
    rewrite !encode_list. inversion IH as [|? ? Hx Hxs]; subst.
    now rewrite Hx, (encode_items_jsonify _ xs Hxs).
  - destruct d as [|[k x] xs]; [reflexivity|]. cbn [Json.jsonify map fst snd].
    rewrite !encode_dict. inversion IH as [|? ? Hx Hxs]; subst. simpl in Hx.
    now rewrite Hx, (encode_members_jsonify _ xs Hxs).
Qed.

(** X7. A cache file that [save_cache] wrote is stable: loading it and saving
    what was loaded writes the same text again, although the tuples of the
    saved value come back as lists. *)
Theorem saved_file_is_stable (c : pyval) (st : State) :
  storable c ->
  let st1 := snd (save_cache c st) in
  load_cache st1 = (Ok (Json.jsonify c), st1)
  /\ cache_file (snd (save_cache (Json.jsonify c) st1)) = cache_file st1.
Proof.
  intros Hc st1. subst st1. split; [now apply save_then_load|].
  unfold save_cache. cbn [snd cache_file]. unfold Json.dumps.
  now rewrite encode_jsonify.
Qed.

Lemma saved_file_is_stable_witness :
  let c := PDict [("M/a.mkv", entry_of "10_1.5" [atmos_track])] in
  let st1 := snd (save_cache c st0) in
  Json.jsonify c <> c
  /\ load_cache st1 = (Ok (Json.jsonify c), st1)
  /\ cache_file (snd (save_cache (Json.jsonify c) st1)) = cache_file st1.
Proof.
  cbv zeta. split; [vm_compute; discriminate|].
  apply (saved_file_is_stable (PDict [("M/a.mkv", entry_of "10_1.5" [atmos_track])]) st0).
  repeat constructor; simpl; intuition discriminate.
Defined.

(** ** The tracks a probe output gives *)

Lemma classify_no_profile (codec : string) : classify codec "" = None.
Proof.
  unfold classify. simpl. now rewrite !andb_false_r.
Qed.

Lemma scan_stream_fields (s t : pyval) :
  scan_stream s = Ok (Some t) ->
  exists d p l lang codec,
    s = PDict d
    /\ dict_get "profile" d = Some (PStr p)
    /\ p <> ""
    /\ PyStr.lower codec = codec
    /\ classify codec (PyStr.lower p) = Some l
    /\ t = track_of l lang codec (PyStr.lower p).
Proof.
  unfold scan_stream. destruct s as [| | | | | | |d]; try discriminate.
  cbn [Py.get rbind].
  destruct (match dict_get "codec_name" d with Some v => v | None => PStr "" end)
    as [| | | |c0| | |]; try discriminate.
  cbn [Py.lower rbind].
  destruct (dict_get "profile" d) as [[| | | |p| | |]|] eqn:Hp; try discriminate.
  - cbn [Py.lower rbind].
    destruct (match dict_get "tags" d with Some v => v | None => PDict [] end)
      as [| | | | | | |tags]; try discriminate.
    cbn [Py.get rbind].
    destruct (classify (PyStr.lower c0) (PyStr.lower p)) as [l|] eqn:Hl; [|discriminate].
    intros [= <-].
    exists d, p, l,
      (match dict_get "language" tags with Some v => v | None => PStr "unknown" end),
      (PyStr.lower c0).
    repeat split; try assumption.
    + intros ->. simpl in Hl. now rewrite classify_no_profile in Hl.
    + apply lower_idem.
  - cbn [Py.lower rbind]. change (PyStr.lower "") with "".
    rewrite classify_no_profile.
    destruct (match dict_get "tags" d with Some v => v | None => PDict [] end)
      as [| | | | | | |tags]; discriminate.
Qed.

(** X8. What [scan_video] reports for a stream: only a dict that carries a
    [profile] string which is not empty is ever reported; the codec and the
    profile of the reported tuple are in lower case, the profile being that
    of the stream, and the label is what the decision rule gives on them. *)
Theorem reported_track_fields (s t : pyval) :
  scan_stream s = Ok (Some t) ->
  exists d p l lang codec,
    s = PDict d
    /\ dict_get "profile" d = Some (PStr p)
    /\ p <> ""
    /\ PyStr.lower codec = codec
    /\ classify codec (PyStr.lower p) = Some l
    /\ t = track_of l lang codec (PyStr.lower p).
Proof. apply scan_stream_fields. Qed.

Lemma reported_track_fields_witness :
  let s := PDict [("codec_name", PStr "EAC3"); ("profile", PStr "DDP + JOC")] in
  let t := track_of DolbyAtmos (PStr "unknown") "eac3" "ddp + joc" in
  scan_stream s = Ok (Some t)
  /\ exists d p l lang codec,
       s = PDict d
       /\ dict_get "profile" d = Some (PStr p)
       /\ p <> ""
       /\ PyStr.lower codec = codec
       /\ classify codec (PyStr.lower p) = Some l
       /\ t = track_of l lang codec (PyStr.lower p).
Proof.
  cbv zeta. split; [reflexivity|].
  apply (reported_track_fields
           (PDict [("codec_name", PStr "EAC3"); ("profile", PStr "DDP + JOC")])).
  reflexivity.
Defined.

(* ================================================================== *)
(** * The window *)
(* ================================================================== *)

(** ** The folder list *)

Lemma delete_length {A : Type} (idx : nat) (l : list A) :
  idx < List.length l -> S (List.length (ScannerGUI.delete idx l)) = List.length l.
Proof.
  revert idx. induction l as [|x l IH]; intros [|i] H; simpl in *; try lia.
  rewrite IH; lia.
Qed.

Lemma delete_incl {A : Type} (idx : nat) (l : list A) :
  incl (ScannerGUI.delete idx l) l.
Proof.
  revert idx. induction l as [|x l IH]; intros [|i]; simpl.
  - apply incl_refl.
  - apply incl_refl.
  - apply incl_tl, incl_refl.
  - intros y [<-|H]; [now left|right; now apply (IH i)].
Qed.

Lemma delete_nodup {A : Type} (idx : nat) (l : list A) :
  NoDup l -> NoDup (ScannerGUI.delete idx l).
Proof.
  revert idx. induction l as [|x l IH]; intros [|i] H; simpl; try assumption.
  - now inversion H.
  - inversion H as [|? ? Hx Hl]; subst. constructor; [|now apply IH].
    intros Hin. apply Hx. now apply (delete_incl i l).
Qed.

Lemma existsb_eqb_in (x : string) (l : list string) :
  existsb (String.eqb x) l = true <-> In x l.
Proof.
  rewrite existsb_exists. split.
  - intros (y & Hy & He). apply String.eqb_eq in He. now subst.
  - intros H. exists x. split; [assumption|apply String.eqb_refl].
Qed.

(** The folders the scan is given, and the rows the user sees. *)
Definition folders_ok (g : ScannerGUI.Folders) : Prop :=
  ScannerGUI.folder_list g = ScannerGUI.folders g
  /\ NoDup (ScannerGUI.folders g)
  /\ ~ In "" (ScannerGUI.folders g).

Lemma add_folder_ok (choice : string) (g : ScannerGUI.Folders) :
  folders_ok g -> folders_ok (ScannerGUI.add_folder choice g).
Proof.
  intros (Hl & Hn & He). unfold ScannerGUI.add_folder.
  destruct (String.eqb_spec choice "") as [->|Hne]; simpl; [now split|].
  destruct (existsb (String.eqb choice) (ScannerGUI.folders g)) eqn:Hin; simpl;
    [now split|].
  assert (Hnot : ~ In choice (ScannerGUI.folders g)).
  { intros H. apply existsb_eqb_in in H. congruence. }
  split; [now rewrite Hl|]. split.
  - apply NoDup_app; [assumption|repeat constructor; intros []|].
    intros x Hx [<-|[]]. contradiction.
  - intros H. apply in_app_or in H. destruct H as [H|[H|[]]]; [contradiction|].
    now apply Hne.
Qed.

Lemma remove_folder_ok (sel : list nat) (g : ScannerGUI.Folders) :
  folders_ok g -> ScannerGUI.selection_of sel g ->
  fst (ScannerGUI.remove_folder sel g) = ScannerGUI.Returned
  /\ folders_ok (snd (ScannerGUI.remove_folder sel g)).
Proof.
  intros (Hl & Hn & He) Hsel. unfold ScannerGUI.remove_folder.
  destruct sel as [|idx sel]; [now repeat split|].
  inversion Hsel as [|? ? Hidx _]; subst. rewrite Hl in Hidx.
  apply Nat.ltb_lt in Hidx. rewrite Hidx. simpl. split; [reflexivity|].
  split; [now rewrite Hl|]. split; [now apply delete_nodup|].
  intros H. apply He. now apply (delete_incl idx).
Qed.

(** X10. The folder list of the window.  In every state the two buttons lead
    to, the list box shows exactly [self.folders], no folder is listed
    twice, the empty answer of a cancelled dialog is not listed, and removing
    the selected row does not raise. *)
Theorem folder_list_invariant (g : ScannerGUI.Folders) :
  ScannerGUI.reachable g ->
  ScannerGUI.folder_list g = ScannerGUI.folders g
  /\ NoDup (ScannerGUI.folders g)
  /\ ~ In "" (ScannerGUI.folders g)
  /\ forall sel, ScannerGUI.selection_of sel g ->
                 fst (ScannerGUI.remove_folder sel g) = ScannerGUI.Returned.
Proof.
  intros H.
  assert (Hok : folders_ok g).
  { induction H as [|choice g _ IH|sel g _ IH Hsel].
    - repeat split; [constructor|intros []].
    - now apply add_folder_ok.
    - now apply remove_folder_ok. }
  destruct Hok as (Hl & Hn & He). repeat split; try assumption.
  intros sel Hsel. now apply remove_folder_ok.
Qed.

(** Folder [A] is added, then [B], then [A] again, then a cancelled dialog;
    then the first row is removed. *)
Lemma folder_list_invariant_witness :
  let g := snd (ScannerGUI.remove_folder [0]
                  (ScannerGUI.add_folder ""
                     (ScannerGUI.add_folder "A"
                        (ScannerGUI.add_folder "B"
                           (ScannerGUI.add_folder "A" ScannerGUI.no_folders))))) in
  ScannerGUI.folders g = ["B"]
  /\ ScannerGUI.folder_list g = ScannerGUI.folders g
  /\ NoDup (ScannerGUI.folders g)
  /\ ~ In "" (ScannerGUI.folders g)
  /\ forall sel, ScannerGUI.selection_of sel g ->
                 fst (ScannerGUI.remove_folder sel g) = ScannerGUI.Returned.
Proof.
  cbv zeta. split; [reflexivity|].
  apply folder_list_invariant.
  apply ScannerGUI.reach_remove.
  - repeat apply ScannerGUI.reach_add. apply ScannerGUI.reach_init.
  - constructor; [simpl; lia|constructor].
Defined.

(** ** The result table *)

Lemma populate_rows_shown (lf : string) (rs : list pyval) :
  forall (tree : list pyval) (count : nat),
  lf = "" \/ Forall (fun r => exists l, ScannerGUI.language_of r = inl l) rs ->
  ScannerGUI.populate_rows lf rs tree count
  = (ScannerGUI.Returned,
     ((tree ++ filter (ScannerGUI.row_shown lf) rs)%list,
      count + List.length (filter (ScannerGUI.row_shown lf) rs))).
Proof.
  induction rs as [|r rs IH]; intros tree count H.
  - simpl. now rewrite app_nil_r, Nat.add_0_r.
  - cbn [ScannerGUI.populate_rows filter].
    assert (Hs : ScannerGUI.row_shown lf r
                 = (lf =? "")
                   || match ScannerGUI.language_of r with
                      | inl l => l =? lf
                      | inr _ => false
                      end) by reflexivity.
    rewrite Hs. clear Hs.
    destruct (String.eqb_spec lf "") as [Hlf|Hlf].
    + rewrite IH by (now left). cbn [orb List.length]. rewrite <- app_assoc.
      simpl. now rewrite Nat.add_succ_r.
    + destruct H as [H|H]; [contradiction|].
      inversion H as [|? ? (l & Hl) Hrest]; subst. rewrite Hl. cbn [orb].
      destruct (l =? lf); cbn [negb List.length]; rewrite IH by (now right);
        [|reflexivity].
      rewrite <- app_assoc. simpl. now rewrite Nat.add_succ_r.
Qed.

Lemma populate_rows_app (lf : string) (pre post : list pyval) :
  forall (tree : list pyval) (count : nat),
  ScannerGUI.populate_rows lf (pre ++ post) tree count
  = match ScannerGUI.populate_rows lf pre tree count with
    | (ScannerGUI.Returned, (t, c)) => ScannerGUI.populate_rows lf post t c
    | r => r
    end.
Proof.
  induction pre as [|r pre IH]; intros tree count; [reflexivity|].
  cbn [app ScannerGUI.populate_rows].
  destruct (lf =? ""); [apply IH|].
  destruct (ScannerGUI.language_of r) as [l|e]; [|reflexivity].
  destruct (negb (l =? lf)); apply IH.
Qed.

(** X11. What [populate] puts in the table.  With a blank filter, or when
    the third field of every result is a string, the rows appended to the
    tree view are the results the filter keeps, in their order, and the
    status shows their number; the rows already in the tree view stay.  With
    a filter that is not blank, the first result without a string in third
    place stops [populate] with that exception, the rows kept before it
    already appended and the status as it was. *)
Theorem populate_appends_matching_rows (trans : pyval) (lang_filter : string)
    (results : list pyval) (w : ScannerGUI.Table) :
  let lf := ScannerGUI.strip (PyStr.lower lang_filter) in
  (lf = "" \/ Forall (fun r => exists l, ScannerGUI.language_of r = inl l) results ->
   let rows := filter (ScannerGUI.row_shown lf) results in
   ScannerGUI.populate trans lang_filter results w
   = match ScannerGUI.tr trans "done" with
     | Ok done =>
         (ScannerGUI.Returned,
          {| ScannerGUI.tree := (ScannerGUI.tree w ++ rows)%list;
             ScannerGUI.status := ScannerGUI.LabelCount done (List.length rows) |})
     | Raise e =>
         (ScannerGUI.Raised (ScannerGUI.PyExn e),
          {| ScannerGUI.tree := (ScannerGUI.tree w ++ rows)%list;
             ScannerGUI.status := ScannerGUI.status w |})
     end)
  /\ (forall pre bad post e,
        results = (pre ++ bad :: post)%list ->
        lf <> "" ->
        Forall (fun r => exists l, ScannerGUI.language_of r = inl l) pre ->
        ScannerGUI.language_of bad = inr e ->
        ScannerGUI.populate trans lang_filter results w
        = (ScannerGUI.Raised e,
           {| ScannerGUI.tree :=
                (ScannerGUI.tree w ++ filter (ScannerGUI.row_shown lf) pre)%list;
              ScannerGUI.status := ScannerGUI.status w |})).
Proof.
  cbv zeta. split.
  - intros H. unfold ScannerGUI.populate. rewrite populate_rows_shown by exact H.
    reflexivity.
  - intros pre bad post e -> Hlf Hpre Hbad. unfold ScannerGUI.populate.
    rewrite populate_rows_app, populate_rows_shown by (now right).
    cbn [ScannerGUI.populate_rows]. rewrite Hbad.
    destruct (String.eqb_spec (ScannerGUI.strip (PyStr.lower lang_filter)) "");
      [contradiction|reflexivity].
Qed.

(** The filter [" ENG "] keeps the row whose language is [eng]; the row that
    follows it has no third field. *)
Lemma populate_appends_matching_rows_witness :
  let row l := PTuple [PStr "M/a.mkv"; PStr "Dolby Atmos"; PStr l; PStr "truehd";
                       PStr "atmos"] in
  let w := {| ScannerGUI.tree := []; ScannerGUI.status := ScannerGUI.Label (PStr "Ready") |} in
  ScannerGUI.populate (PDict []) " ENG " [row "fre"; row "Eng"] w
  = (ScannerGUI.Returned,
     {| ScannerGUI.tree := [row "Eng"];
        ScannerGUI.status := ScannerGUI.LabelCount (PStr "done") 1 |})
  /\ ScannerGUI.populate (PDict []) " ENG " [row "eng"; PTuple [PStr "M/b.mkv"]; row "eng"] w
     = (ScannerGUI.Raised ScannerGUI.IndexError,
        {| ScannerGUI.tree := [row "eng"];
           ScannerGUI.status := ScannerGUI.Label (PStr "Ready") |}).
Proof.
  intros row w. split.
  - refine (proj1 (populate_appends_matching_rows (PDict []) " ENG "
                     [row "fre"; row "Eng"] w) _).
    right. repeat constructor; eexists; reflexivity.
  - refine (proj2 (populate_appends_matching_rows (PDict []) " ENG "
                     [row "eng"; PTuple [PStr "M/b.mkv"]; row "eng"] w)
              [row "eng"] (PTuple [PStr "M/b.mkv"]) [row "eng"] ScannerGUI.IndexError
              eq_refl _ _ eq_refl).
    + vm_compute. discriminate.
    + repeat constructor. eexists; reflexivity.
Defined.

Lemma rstrip_idem (s : string) : ScannerGUI.rstrip (ScannerGUI.rstrip s) = ScannerGUI.rstrip s.
Proof.
  induction s as [|c r IH]; [reflexivity|]. cbn [ScannerGUI.rstrip].
  destruct (ScannerGUI.rstrip r) as [|c' r'] eqn:E.
  - destruct (ScannerGUI.is_space c) eqn:Ec; [reflexivity|].
    simpl. now rewrite Ec.
  - cbn [ScannerGUI.rstrip] in IH |- *.
    change (match ScannerGUI.rstrip r' with
            | "" => if ScannerGUI.is_space c' then "" else String c' ""
            | String a s0 => String c' (String a s0)
            end) with (ScannerGUI.rstrip (String c' r')) in IH |- *.
    now rewrite IH.
Qed.

Lemma lstrip_head (s : string) :
  ScannerGUI.lstrip s = ""
  \/ exists c r, ScannerGUI.lstrip s = String c r /\ ScannerGUI.is_space c = false.
Proof.
  induction s as [|c r IH]; [now left|]. simpl.
  destruct (ScannerGUI.is_space c) eqn:E; [exact IH|].
  right. now exists c, r.
Qed.

Lemma rstrip_head (c : ascii) (r : string) :
  ScannerGUI.is_space c = false ->
  exists r', ScannerGUI.rstrip (String c r) = String c r'.
Proof.
  intros E. cbn [ScannerGUI.rstrip]. destruct (ScannerGUI.rstrip r) as [|c' r'].
  - rewrite E. now exists "".
  - now exists (String c' r').
Qed.

Lemma strip_idem (s : string) : ScannerGUI.strip (ScannerGUI.strip s) = ScannerGUI.strip s.
Proof.
  unfold ScannerGUI.strip. destruct (lstrip_head s) as [->|(c & r & -> & Ec)];
    [reflexivity|].
  destruct (rstrip_head c r Ec) as (r' & Hr).
  assert (Hl : ScannerGUI.lstrip (ScannerGUI.rstrip (String c r))
               = ScannerGUI.rstrip (String c r)).
  { rewrite Hr. simpl. now rewrite Ec. }
  rewrite Hl. apply rstrip_idem.
Qed.

(** X12. The filter is stripped, the language of a row is not: under a filter
    that is not blank, [populate] never shows a row whose language starts or
    ends with white space, whatever the filter says; letter case is ignored
    on both sides. *)
Theorem padded_language_is_never_shown (lang_filter : string) (r : pyval) (l : string) :
  let lf := ScannerGUI.strip (PyStr.lower lang_filter) in
  ScannerGUI.language_of r = inl l ->
  lf <> "" ->
  (ScannerGUI.strip l <> l -> ScannerGUI.row_shown lf r = false)
  /\ PyStr.lower l = l
  /\ ScannerGUI.row_shown (ScannerGUI.strip (PyStr.lower (PyStr.lower lang_filter))) r
     = ScannerGUI.row_shown lf r.
Proof.
  cbv zeta. intros Hl Hlf. split; [|split].
  - intros Hpad. unfold ScannerGUI.row_shown. rewrite Hl.
    destruct (String.eqb_spec (ScannerGUI.strip (PyStr.lower lang_filter)) "");
      [contradiction|]. simpl.
    destruct (String.eqb_spec l (ScannerGUI.strip (PyStr.lower lang_filter))) as [->|];
      [|reflexivity].
    exfalso. apply Hpad. apply strip_idem.
  - unfold ScannerGUI.language_of in Hl.
    destruct (ScannerGUI.index r 2) as [x|e]; [|discriminate].
    destruct x; try discriminate. simpl in Hl. injection Hl as <-. apply lower_idem.
  - now rewrite lower_idem.
Qed.

(** A language tag with a trailing space is not found by the same text typed
    in the filter entry. *)
Lemma padded_language_is_never_shown_witness :
  let r := PTuple [PStr "M/a.mkv"; PStr "Dolby Atmos"; PStr "eng "; PStr "truehd";
                   PStr "atmos"] in
  ScannerGUI.row_shown (ScannerGUI.strip (PyStr.lower "eng ")) r = false.
Proof.
  cbv zeta.
  apply (proj1 (padded_language_is_never_shown "eng "
                  (PTuple [PStr "M/a.mkv"; PStr "Dolby Atmos"; PStr "eng "; PStr "truehd";
                           PStr "atmos"]) "eng " eq_refl
                  ltac:(vm_compute; discriminate))).
  vm_compute. discriminate.
Defined.

(** ** Durations *)

Lemma format_time_seconds (s : Z) :
  (s < 60)%Z -> ScannerGUI.format_time s = PyStr.of_Z s ++ String "s" "".
Proof.
  intros H. unfold ScannerGUI.format_time.
  now destruct (Z.ltb_spec s 60); [|lia].
Qed.

Lemma format_time_minutes (s : Z) :
  (60 <= s < 3600)%Z ->
  ScannerGUI.format_time s
  = PyStr.of_Z (s / 60) ++ String "m" (String " " (PyStr.of_Z (s mod 60) ++ String "s" "")).
Proof.
  intros H. unfold ScannerGUI.format_time.
  destruct (Z.ltb_spec s 60); [lia|]. now destruct (Z.ltb_spec s 3600); [|lia].
Qed.

Lemma format_time_hours (s : Z) :
  (3600 <= s)%Z ->
  ScannerGUI.format_time s
  = PyStr.of_Z (s / 3600)
    ++ String "h" (String " " (PyStr.of_Z ((s mod 3600) / 60) ++ String "m" "")).
Proof.
  intros H. unfold ScannerGUI.format_time.
  destruct (Z.ltb_spec s 60); [lia|]. now destruct (Z.ltb_spec s 3600); [lia|].
Qed.

Ltac split_number H :=
  apply split_after_number in H;
  [|apply of_Z_number_text|apply of_Z_number_text|reflexivity|reflexivity].

(** X13. What the remaining-time text tells apart, for whole seconds.  Two
    durations print the same text exactly when they are equal or when both
    are of an hour or more and fall in the same minute: below an hour every
    second shows (a negative duration prints as seconds, with its sign),
    from an hour on the seconds are dropped, never rounded. *)
Theorem format_time_distinguishes (s1 s2 : Z) :
  ScannerGUI.format_time s1 = ScannerGUI.format_time s2
  <-> s1 = s2 \/ (3600 <= s1 /\ 3600 <= s2 /\ s1 / 60 = s2 / 60)%Z.
Proof.
  split.
  - intros H.
    destruct (Z.lt_ge_cases s1 60) as [A1|A1]; destruct (Z.lt_ge_cases s2 60) as [A2|A2];
      [|destruct (Z.lt_ge_cases s2 3600) as [B2|B2]
       |destruct (Z.lt_ge_cases s1 3600) as [B1|B1]
       |destruct (Z.lt_ge_cases s1 3600) as [B1|B1];
        destruct (Z.lt_ge_cases s2 3600) as [B2|B2]];
      repeat match goal with
             | Hs : (?s < 60)%Z |- _ =>
                 rewrite (format_time_seconds s Hs) in H; clear Hs
             | Hl : (60 <= ?s)%Z, Hu : (?s < 3600)%Z |- _ =>
                 rewrite (format_time_minutes s (conj Hl Hu)) in H; revert Hl Hu
             | Hl : (60 <= ?s)%Z, Hu : (3600 <= ?s)%Z |- _ =>
                 rewrite (format_time_hours s Hu) in H; revert Hl Hu
             end; intros;
      split_number H; destruct H as (Ha & Hc & Hr); try discriminate Hc.
    + left. now apply of_Z_inj.
    + left. injection Hr as Hr. split_number Hr. destruct Hr as (Hb & _).
      apply of_Z_inj in Ha, Hb.
      rewrite (Z.div_mod s1 60), (Z.div_mod s2 60) by lia. now rewrite Ha, Hb.
    + right. injection Hr as Hr. split_number Hr. destruct Hr as (Hb & _).
      apply of_Z_inj in Ha, Hb. split; [lia|]. split; [lia|].
      revert Ha Hb. Z.div_mod_to_equations. lia.
  - intros [->|(H1 & H2 & H)]; [reflexivity|].
    rewrite (format_time_hours s1 H1), (format_time_hours s2 H2).
    assert (Hh : (s1 / 3600 = s2 / 3600)%Z).
    { revert H. Z.div_mod_to_equations. lia. }
    assert (Hm : ((s1 mod 3600) / 60 = (s2 mod 3600) / 60)%Z).
    { revert H Hh. Z.div_mod_to_equations. lia. }
    now rewrite Hh, Hm.
Qed.

(* ================================================================== *)
(** * Which names are videos *)
(* ================================================================== *)

Lemma lower_char_dot (c : ascii) :
  Ascii.eqb (PyStr.lower_char c) "." = Ascii.eqb c ".".
Proof. destruct c as [[] [] [] [] [] [] [] []]; reflexivity. Qed.

Lemma dotless_lower (s : string) : dotless (PyStr.lower s) = dotless s.
Proof.
  induction s as [|c r IH]; [reflexivity|]. simpl. now rewrite lower_char_dot, IH.
Qed.

Lemma extension_shape_lower (s : string) :
  extension_shape (PyStr.lower s) = extension_shape s.
Proof.
  destruct s as [|c e]; [reflexivity|]. simpl.
  rewrite lower_char_dot, dotless_lower. now destruct e.
Qed.

Lemma video_extension_shape (ext : string) :
  In (PyStr.lower ext) VIDEO_EXTENSIONS -> extension_shape ext = true.
Proof.
  intros H. rewrite <- extension_shape_lower.
  repeat (destruct H as [<-|H]; [reflexivity|]). destruct H.
Qed.

Lemma rfind_dotless (s : string) : dotless s = true -> PyStr.rfind "." s = None.
Proof.
  induction s as [|c r IH]; [reflexivity|]. simpl. intros H.
  apply andb_true_iff in H. destruct H as (Hc & Hr). rewrite (IH Hr).
  now destruct (Ascii.eqb c ".").
Qed.

Lemma rfind_app (c : ascii) (a b : string) (i : nat) :
  PyStr.rfind c b = Some i -> PyStr.rfind c (a ++ b) = Some (String.length a + i).
Proof.
  intros H. induction a as [|x a IH]; [exact H|]. simpl. now rewrite IH.
Qed.

Lemma substring_all (s : string) : substring 0 (String.length s) s = s.
Proof. induction s as [|c r IH]; [reflexivity|]. simpl. now rewrite IH. Qed.

Lemma substring_skip (a b : string) (m : nat) :
  substring (String.length a) m (a ++ b) = substring 0 m b.
Proof. induction a as [|x a IH]; [reflexivity|]. simpl. exact IH. Qed.

Lemma substring_split (i : nat) :
  forall s, i <= String.length s ->
  s = substring 0 i s ++ substring i (String.length s - i) s.
Proof.
  induction i as [|i IH]; intros s H.
  - rewrite Nat.sub_0_r, substring_all. now destruct s.
  - destruct s as [|c r]; [simpl in H; lia|]. simpl in H |- *.
    f_equal. apply IH. lia.
Qed.

Lemma substring_prefix_length (i : nat) :
  forall s, i <= String.length s -> String.length (substring 0 i s) = i.
Proof.
  induction i as [|i IH]; intros s H.
  - now destruct s.
  - destruct s as [|c r]; [simpl in H; lia|]. simpl in H |- *.
    f_equal. apply IH. lia.
Qed.

Lemma suffix_of_name (p : Path) (stem ext : string) :
  name p = stem ++ ext -> stem <> "" -> extension_shape ext = true ->
  suffix p = ext.
Proof.
  intros Hn Hstem Hext. unfold suffix. rewrite Hn.
  destruct ext as [|c e]; [discriminate|]. simpl in Hext.
  apply andb_true_iff in Hext. destruct Hext as (Hext & He).
  apply andb_true_iff in Hext. destruct Hext as (Hc & Hd).
  apply Ascii.eqb_eq in Hc. subst c.
  assert (Hr : PyStr.rfind "." (String "." e) = Some 0).
  { simpl. now rewrite (rfind_dotless e Hd). }
  rewrite (rfind_app "." stem _ 0 Hr), Nat.add_0_r, str_length_app.
  assert (Hs : 0 < String.length stem) by (destruct stem; [congruence|simpl; lia]).
  assert (Hl : 0 < String.length e) by (destruct e; [discriminate|simpl; lia]).
  cbn [String.length].
  destruct (Nat.ltb_spec 0 (String.length stem)); [|lia].
  destruct (Nat.ltb_spec (String.length stem)
              (String.length stem + S (String.length e) - 1)); [|lia].
  cbn [andb]. rewrite substring_skip.
  replace (String.length stem + S (String.length e) - String.length stem)
    with (String.length (String "." e)) by (simpl; lia).
  apply substring_all.
Qed.

(** X14. Which names the folder walk takes for videos: exactly those made of
    a stem that is not empty followed by one of the six extensions, in any
    letter case.  A file named [.mkv] alone is not enumerated; only the
    last extension of a name counts. *)
Theorem video_names (p : Path) :
  is_video p = true
  <-> exists stem ext,
        name p = stem ++ ext /\ stem <> ""
        /\ In (PyStr.lower ext) VIDEO_EXTENSIONS.
Proof.
  rewrite is_video_iff. split.
  - intros H. unfold suffix in H |- *.
    destruct (PyStr.rfind "." (name p)) as [i|]; [|simpl in H; intuition discriminate].
    destruct (Nat.ltb_spec 0 i) as [Hi|]; [|simpl in H; intuition discriminate].
    destruct (Nat.ltb_spec i (String.length (name p) - 1)) as [Hlt|];
      [|simpl in H; intuition discriminate].
    cbn [andb] in H.
    exists (substring 0 i (name p)),
           (substring i (String.length (name p) - i) (name p)).
    split; [apply substring_split; lia|]. split; [|exact H].
    intros He. apply (f_equal String.length) in He.
    rewrite substring_prefix_length in He by lia. simpl in He. lia.
  - intros (stem & ext & Hn & Hstem & Hext).
    now rewrite (suffix_of_name p stem ext Hn Hstem (video_extension_shape ext Hext)).
Qed.

(* ================================================================== *)
(** * The shape of tracks, entries and rows *)
(* ================================================================== *)

Lemma scan_streams_shape (ss tracks : list pyval) :
  scan_streams ss = Ok tracks -> Forall track_shape tracks.
Proof.
  revert tracks. induction ss as [|s ss IH]; intros tracks; simpl.
  - intros [= <-]. constructor.
  - destruct (scan_stream s) as [t|e] eqn:Es; [|discriminate]. simpl.
    destruct (scan_streams ss) as [ts|e]; [|discriminate]. simpl.
    intros [= <-]. destruct t as [t|]; [|now apply IH].
    constructor; [|now apply IH].
    destruct (scan_stream_fields s t Es) as (d & p & l & lang & codec & _ & _ & _ & _ & _ & ->).
    exists l, lang, codec, (PyStr.lower p). now left.
Qed.

Lemma tracks_of_data_shape (data : pyval) (tracks : list pyval) :
  tracks_of_data data = Ok tracks -> Forall track_shape tracks.
Proof.
  unfold tracks_of_data.
  destruct (Py.get data "streams" (PList [])) as [streams|e]; [|discriminate]. simpl.
  destruct (Py.iter streams) as [ss|e]; [|discriminate]. simpl.
  apply scan_streams_shape.
Qed.

Lemma dict_get_forall {A : Type} (P : A -> Prop) (k : string) (d : list (string * A))
    (v : A) :
  Forall (fun kv => P (snd kv)) d -> dict_get k d = Some v -> P v.
Proof.
  induction 1 as [|[k' v'] d Hv _ IH]; simpl; [discriminate|].
  destruct (k' =? k); [now intros [= <-]|exact IH].
Qed.

Lemma scan_video_shapes (env : Env) (p : Path) (c : pyval) (st : State)
    (t c' : pyval) :
  cache_shape c ->
  fst (scan_video env p c st) = Ok (t, c') ->
  cache_shape c' /\ exists ts, t = PList ts /\ Forall track_shape ts.
Proof.
  intros (d & -> & Hd). destruct (os_stat env (path_str env p)) as [s|] eqn:Hs.
  - rewrite (scan_video_run env p (PDict d) st s Hs). cbv zeta.
    destruct (cache_hit (PDict d) (path_str env p) (signature_of s)) as [[|]|e];
      cbn [fst]; [| |discriminate].
    + unfold hit_result. simpl.
      destruct (dict_get (path_str env p) d) as [v|] eqn:Hv; [|discriminate].
      destruct (dict_get_forall entry_shape _ d v Hd Hv) as (sig & ts & -> & Hts).
      simpl. intros [= <- <-]. split; [now exists d|now exists ts].
    + intros H. apply miss_result_tracks in H.
      destruct H as [(_ & -> & ->) | (data & tracks & _ & Ht & -> & Hset)].
      * split; [now exists d|]. exists []. split; [reflexivity|constructor].
      * apply tracks_of_data_shape in Ht. simpl in Hset. injection Hset as <-.
        split; [|now exists tracks].
        eexists. split; [reflexivity|].
        apply dict_set_forall; [assumption|]. now exists (signature_of s), tracks.
  - rewrite (scan_video_stat_fails env p (PDict d) st Hs). discriminate.
Qed.

Lemma rows_of_shapes (k : string) (ts : list pyval) :
  Forall track_shape ts ->
  exists rows, rows_of k ts = Ok rows /\ Forall row_shape rows.
Proof.
  induction 1 as [|t ts (l & lang & codec & profile & Ht) _ (rows & Hr & Hrows)].
  - exists []. split; [reflexivity|constructor].
  - exists (PTuple [PStr k; PStr (label_text l); lang; PStr codec; PStr profile] :: rows).
    split.
    + simpl. rewrite Hr. now destruct Ht as [-> | ->].
    + constructor; [|assumption]. now exists k, l, lang, codec, profile.
Qed.

Lemma scan_loop_shapes (env : Env) (total : nat) (files : list Path) :
  forall (i : nat) (c : pyval) (results : list pyval) (st : State)
         (c' : pyval) (res : list pyval),
  cache_shape c -> Forall row_shape results ->
  fst (scan_loop env total i files c results st) = Ok (c', res) ->
  cache_shape c' /\ Forall row_shape res.
Proof.
  induction files as [|f files IH]; intros i c results st c' res Hc Hres.
  - simpl. now intros [= <- <-].
  - rewrite scan_loop_cons.
    pose proof (scan_video_shapes env f c st) as Hv.
    destruct (scan_video env f c st) as [[[t c1]|e] st1]; [|discriminate].
    destruct (Hv t c1 Hc eq_refl) as (Hc1 & ts & -> & Hts). cbn [fst snd].
    destruct (rows_of_shapes (path_str env f) ts Hts) as (rows & Hr & Hrows).
    change (ts0 <~ Py.iter (PList ts);; rows_of (path_str env f) ts0)
      with (rows_of (path_str env f) ts).
    rewrite Hr. apply IH; [assumption|].
    apply Forall_app. now split.
Qed.

Lemma track_shape_jsonify (t : pyval) : track_shape t -> track_shape (Json.jsonify t).
Proof.
  intros (l & lang & codec & profile & [-> | ->]);
    exists l, (Json.jsonify lang), codec, profile; now right.
Qed.

Lemma cache_shape_jsonify (c : pyval) : cache_shape c -> cache_shape (Json.jsonify c).
Proof.
  intros (d & -> & Hd). eexists. split; [reflexivity|].
  induction Hd as [|[k v] d (sig & ts & Hv & Hts) _ IH]; [constructor|].
  simpl in Hv. subst v. constructor; [|exact IH].
  exists sig, (map Json.jsonify ts). split; [reflexivity|].
  clear IH. induction Hts as [|t ts Ht _ IHts]; constructor;
    [now apply track_shape_jsonify|assumption].
Qed.

(** X16. The shape of the data is an invariant of scanning.  When every
    entry of the loaded cache is one that [scan_video] made (as it is when
    there is no cache file yet), every row a scan returns has five fields,
    the path, the label, the language, the codec and the profile, all but
    the language being strings; and the cache file the scan leaves loads
    again as a cache of such entries, whether the scan returned or raised.
    The language is whatever value the prober gave under that tag. *)
Theorem scan_rows_have_five_fields (env : Env) (folders : list string) (st : State) :
  (exists c, fst (load_cache st) = Ok c /\ cache_shape c) ->
  let r := scan_folders env folders st in
  (exists c', fst (load_cache (snd r)) = Ok c' /\ cache_shape c')
  /\ (forall rows, fst r = Ok rows -> Forall row_shape rows).
Proof.
  intros (c & Hload & Hc) r. subst r. rewrite scan_folders_run, Hload. cbv zeta.
  pose proof (scan_loop_shapes env (List.length (collect_files env folders))
                (collect_files env folders) 1 c [] st) as H.
  pose proof (scan_loop_storable env (List.length (collect_files env folders))
                (collect_files env folders) 1 c [] st) as Hst.
  pose proof (scan_loop_cache_file env (List.length (collect_files env folders)) 1
                (collect_files env folders) c [] st) as Hfile.
  destruct (scan_loop env _ 1 _ c [] st) as [[[c1 res]|e] st1]; cbn [fst snd] in *.
  - destruct (H c1 res Hc (Forall_nil _) eq_refl) as (Hc1 & Hres). split.
    + exists (Json.jsonify c1). split; [|now apply cache_shape_jsonify].
      unfold load_cache. cbn [cache_file]. rewrite loads_dumps; [reflexivity|].
      apply (Hst c1 res); [|reflexivity].
      apply (load_cache_json_value st _ Hload).
    + now intros rows [= <-].
  - split; [|discriminate]. exists c. split; [|assumption].
    now rewrite (load_cache_same_file st1 st Hfile).
Qed.

(** With no cache file the premise holds; the scan of folder [M] returns
    one row of five fields. *)
Lemma scan_rows_have_five_fields_witness :
  let r := scan_folders env_atmos ["M"] st0 in
  fst r = Ok [PTuple [PStr "M/a.mkv"; PStr "Dolby Atmos"; PStr "eng"; PStr "truehd";
                      PStr "dolby truehd + dolby atmos"]]
  /\ (exists c', fst (load_cache (snd r)) = Ok c' /\ cache_shape c')
  /\ (forall rows, fst r = Ok rows -> Forall row_shape rows).
Proof.
  cbv zeta. split; [vm_compute; reflexivity|].
  apply (scan_rows_have_five_fields env_atmos ["M"] st0).
  exists (PDict []). split; [reflexivity|].
  exists []. split; [reflexivity|constructor].
Defined.

Lemma language_of_row (k label : string) (lang : pyval) (codec profile : string) :
  ScannerGUI.language_of (PTuple [PStr k; PStr label; lang; PStr codec; PStr profile])
  = match lang with
    | PStr s => inl (PyStr.lower s)
    | _ => inr (ScannerGUI.PyExn AttributeError)
    end.
Proof. now destruct lang. Qed.

Lemma populate_rows_raises (lf : string) (rs : list pyval) :
  Forall row_shape rs ->
  forall (tree : list pyval) (count : nat) (e : ScannerGUI.error),
  fst (ScannerGUI.populate_rows lf rs tree count) = ScannerGUI.Raised e ->
  e = ScannerGUI.PyExn AttributeError
  /\ lf <> ""
  /\ exists k l lang codec profile,
       In (PTuple [PStr k; PStr (label_text l); lang; PStr codec; PStr profile]) rs
       /\ forall s, lang <> PStr s.
Proof.
  induction 1 as [|r rs (k & l & lang & codec & profile & ->) _ IH];
    intros tree count e; [discriminate|].
  cbn [ScannerGUI.populate_rows].
  assert (Hstep : forall t c,
            fst (ScannerGUI.populate_rows lf rs t c) = ScannerGUI.Raised e ->
            e = ScannerGUI.PyExn AttributeError /\ lf <> ""
            /\ exists k0 l0 lang0 codec0 profile0,
                 In (PTuple [PStr k0; PStr (label_text l0); lang0; PStr codec0;
                             PStr profile0])
                    (PTuple [PStr k; PStr (label_text l); lang; PStr codec; PStr profile]
                     :: rs)
                 /\ forall s, lang0 <> PStr s).
  { intros t c H. destruct (IH t c e H) as (He & Hlf & k0 & l0 & lang0 & c0 & p0 & Hin & Hs).
    split; [assumption|]. split; [assumption|].
    exists k0, l0, lang0, c0, p0. split; [now right|assumption]. }
  destruct (String.eqb_spec lf "") as [Hlf|Hlf]; [apply Hstep|].
  rewrite language_of_row.
  destruct lang as [| | | |s| | |];
    try (cbn [fst]; intros [= <-]; split; [reflexivity|]; split; [assumption|];
         eexists k, l, _, codec, profile; split; [now left|intros s; discriminate]).
  destruct (negb (PyStr.lower s =? lf)); apply Hstep.
Qed.

(** X17. What can go wrong when the rows of a scan are shown.  On rows of
    five fields, as a scan over a cache of its own making returns them,
    [populate] raises nothing but [AttributeError], and only in two cases:
    the translations are not an object, or the filter is not blank and the
    language of some row is not a string; [IndexError] does not occur. *)
Theorem populate_fails_only_on_attribute (trans : pyval) (lang_filter : string)
    (results : list pyval) (w : ScannerGUI.Table) (e : ScannerGUI.error) :
  Forall row_shape results ->
  fst (ScannerGUI.populate trans lang_filter results w) = ScannerGUI.Raised e ->
  e = ScannerGUI.PyExn AttributeError
  /\ ((forall d, trans <> PDict d)
      \/ (ScannerGUI.strip (PyStr.lower lang_filter) <> ""
          /\ exists k l lang codec profile,
               In (PTuple [PStr k; PStr (label_text l); lang; PStr codec; PStr profile])
                  results
               /\ forall s, lang <> PStr s)).
Proof.
  intros Hrows. unfold ScannerGUI.populate.
  pose proof (populate_rows_raises (ScannerGUI.strip (PyStr.lower lang_filter))
                results Hrows (ScannerGUI.tree w) 0) as H.
  destruct (ScannerGUI.populate_rows _ results (ScannerGUI.tree w) 0)
    as [[|e'] [t count]]; cbn [fst] in H |- *.
  - unfold ScannerGUI.tr. destruct trans; simpl; try discriminate;
      intros [= <-]; (split; [reflexivity|]); left; intros d; discriminate.
  - intros [= <-]. destruct (H e' eq_refl) as (He & Hlf & Hbad).
    split; [assumption|]. right. now split.
Qed.

(** The prober gave the number 2 as a language: the row passes the scan and
    stops [populate] under the filter [eng]. *)
Lemma populate_fails_only_on_attribute_witness :
  let rows := [PTuple [PStr "M/a.mkv"; PStr (label_text DolbyAtmos); PInt 2;
                       PStr "truehd"; PStr "atmos"]] in
  let w := {| ScannerGUI.tree := []; ScannerGUI.status := ScannerGUI.Label (PStr "Ready") |} in
  fst (ScannerGUI.populate (PDict []) "eng" rows w)
  = ScannerGUI.Raised (ScannerGUI.PyExn AttributeError)
  /\ (ScannerGUI.PyExn AttributeError = ScannerGUI.PyExn AttributeError
      /\ ((forall d, PDict [] <> PDict d)
          \/ (ScannerGUI.strip (PyStr.lower "eng") <> ""
              /\ exists k l lang codec profile,
                   In (PTuple [PStr k; PStr (label_text l); lang; PStr codec;
                               PStr profile]) rows
                   /\ forall s, lang <> PStr s))).
Proof.
  intros rows w. split; [reflexivity|].
  apply (populate_fails_only_on_attribute (PDict []) "eng" rows w).
  - repeat constructor. now exists "M/a.mkv", DolbyAtmos, (PInt 2), "truehd", "atmos".
  - reflexivity.
Defined.

(* ================================================================== *)
(** * The order of the calls *)
(* ================================================================== *)

(** X2. The calls of a scan, in order.  When the cache file loads: for each
    enumerated file in turn one [os.stat] of it, then at most one probe of
    that same file, then the progress call with the file's index; a scan
    that returns went through all the files, a scan that raises stops right
    after the stat, or the probe, of the file it raised on.  When the cache
    file does not load the scan raises what [load_cache] raised and makes no
    call at all: the state is as it was. *)
Theorem scan_trace_grammar (env : Env) (folders : list string) (st : State) :
  let r := scan_folders env folders st in
  let keys := map (path_str env) (collect_files env folders) in
  let N := List.length keys in
  match fst (load_cache st) with
  | Ok _ =>
      exists probed : list bool,
        if is_ok (fst r)
        then List.length probed = N
             /\ events (snd r) = (events st ++ loop_events keys probed 1 N)%list
        else List.length probed < N
             /\ exists b,
                  events (snd r)
                  = (events st ++ loop_events keys probed 1 N
                     ++ aborted_events (nth (List.length probed) keys "") b)%list
  | Raise e => r = (Raise e, st)
  end
  /\ (forall text,
        cache_file st = Some text -> Json.loads text = None ->
        r = (Raise JSONDecodeError, st)).
Proof.
  cbv zeta. split.
  - rewrite scan_folders_run, length_map.
    destruct (fst (load_cache st)) as [c0|e]; [|reflexivity]. cbv zeta.
    destruct (scan_loop_trace env (List.length (collect_files env folders))
                (collect_files env folders) 1 c0 [] st) as (probed & H).
    cbv zeta in H. rewrite length_map in H. exists probed.
    destruct (scan_loop env _ 1 _ c0 [] st) as [[cr|e] st1];
      cbn [fst snd is_ok] in H |- *; exact H.
  - intros text Hfile Hbad. rewrite scan_folders_run.
    unfold load_cache at 1. now rewrite Hfile, Hbad.
Qed.

(** A cache file that holds [{] alone: the scan of folder [M] makes no call.
    With no cache file, the calls on the three entries of [M]. *)
Lemma scan_trace_grammar_witness :
  let st := {| cache_file := Some "{"; events := [] |} in
  scan_folders env_atmos ["M"] st = (Raise JSONDecodeError, st)
  /\ events (snd (scan_folders env_atmos ["M"] st0))
     = loop_events ["M/a.mkv"; "M/x.mkv"; "M/x.mkv/B.MP4"] [true; true; true] 1 3.
Proof.
  cbv zeta. split; [|reflexivity].
  exact (proj2 (scan_trace_grammar env_atmos ["M"]
                  {| cache_file := Some "{"; events := [] |}) "{" eq_refl eq_refl).
Defined.

(** ** Progress calls *)

Lemma progress_after_aborted (seen : list string) (k : string) (b : bool) :
  progress_after seen (aborted_events k b) = [].
Proof. now destruct b. Qed.

Lemma progress_after_loop (N : nat) (tail : list event) :
  (forall seen, progress_after seen tail = []) ->
  forall (keys : list string) (probed : list bool) (i : nat) (seen : list string),
  List.length probed <= List.length keys ->
  progress_after seen (loop_events keys probed i N ++ tail)
  = map (fun j => (i + j, N, (seen ++ firstn (S j) keys)%list))
        (seq 0 (List.length probed)).
Proof.
  intros Htail. induction keys as [|k0 ks IH]; intros [|b bs] i seen Hlen;
    simpl in Hlen; try lia; try (simpl; apply Htail).
  cbn [loop_events List.length seq map]. unfold file_events.
  rewrite <- seq_shift, map_map.
  assert (Hgo : progress_after (seen ++ [k0])
                  (([EvProgress i N] ++ loop_events ks bs (S i) N) ++ tail)
                = (i + 0, N, (seen ++ firstn 1 (k0 :: ks))%list)
                  :: map (fun j => (i + S j, N, (seen ++ firstn (S (S j)) (k0 :: ks))%list))
                       (seq 0 (List.length bs))).
  { cbn [app progress_after]. f_equal; [now rewrite Nat.add_0_r|].
    rewrite (IH bs (S i) (seen ++ [k0])%list) by lia.
    apply map_ext. intros j. rewrite <- app_assoc.
    change (firstn (S (S j)) (k0 :: ks)) with (k0 :: firstn (S j) ks).
    cbn [app]. now rewrite Nat.add_succ_r. }
  destruct b; cbn [app progress_after]; rewrite <- Hgo; now rewrite <- ?app_assoc.
Qed.

Lemma progress_of_after (evs : list event) :
  forall seen,
  map (fun x => (fst (fst x), snd (fst x))) (progress_after seen evs) = progress_of evs.
Proof.
  induction evs as [|[p|p|c t] evs IH]; intros seen; simpl; auto.
  now rewrite IH.
Qed.

Lemma stats_of_app (l1 l2 : list event) :
  stats_of (l1 ++ l2) = (stats_of l1 ++ stats_of l2)%list.
Proof.
  induction l1 as [|[p|p|c t] l1 IH]; simpl; auto. now rewrite IH.
Qed.

Lemma stats_of_loop (N : nat) :
  forall (keys : list string) (probed : list bool) (i : nat),
  List.length probed <= List.length keys ->
  stats_of (loop_events keys probed i N) = firstn (List.length probed) keys.
Proof.
  induction keys as [|k0 ks IH]; intros [|b bs] i Hlen; simpl in Hlen; try lia;
    try reflexivity.
  cbn [loop_events List.length firstn]. unfold file_events.
  destruct b; cbn [app stats_of]; now rewrite IH by lia.
Qed.

Lemma firstn_succ_nth {A : Type} (d : A) (l : list A) (n : nat) :
  n < List.length l -> firstn (S n) l = (firstn n l ++ [nth n l d])%list.
Proof.
  revert n. induction l as [|x l IH]; intros [|n] H; simpl in *; try lia;
    [reflexivity|]. now rewrite <- IH by lia.
Qed.

Lemma scan_video_returns (env : Env) (p : Path) (c : pyval) (st : State) :
  cache_shape c ->
  os_stat env (path_str env p) <> None ->
  (forall data, probe_output env (path_str env p) = Some data ->
                is_ok (tracks_of_data data) = true) ->
  is_ok (fst (scan_video env p c st)) = true.
Proof.
  intros (d & -> & Hd) Hs Hprobe.
  destruct (os_stat env (path_str env p)) as [s|] eqn:Es; [|congruence].
  rewrite (scan_video_run env p (PDict d) st s Es). cbv zeta.
  assert (Hmiss : is_ok (miss_result (probe_output env (path_str env p)) (PDict d)
                           (path_str env p) (signature_of s)) = true).
  { destruct (probe_output env (path_str env p)) as [data|] eqn:Eo; [|reflexivity].
    specialize (Hprobe data eq_refl).
    destruct (tracks_of_data data) as [tracks|e] eqn:Et; [|discriminate].
    now rewrite (miss_result_parsed data d _ _ tracks Et). }
  unfold cache_hit. simpl.
  destruct (dict_get (path_str env p) d) as [v|] eqn:Ev; simpl; [|exact Hmiss].
  destruct (dict_get_forall entry_shape _ d v Hd Ev) as (sg & ts & -> & _). simpl.
  destruct (sg =? signature_of s); [|exact Hmiss].
  unfold hit_result. simpl. now rewrite Ev.
Qed.

Lemma scan_loop_returns (env : Env) (total : nat) (files : list Path) :
  scannable env files ->
  forall (i : nat) (c : pyval) (results : list pyval) (st : State),
  cache_shape c ->
  is_ok (fst (scan_loop env total i files c results st)) = true.
Proof.
  induction files as [|f files IH]; intros Hfiles i c results st Hc; [reflexivity|].
  rewrite scan_loop_cons.
  destruct (Hfiles f (or_introl eq_refl)) as (Hs & Hp).
  pose proof (scan_video_returns env f c st Hc Hs Hp) as Hok.
  pose proof (scan_video_shapes env f c st) as Hv.
  destruct (scan_video env f c st) as [[[t c1]|e] st1]; [|discriminate].
  destruct (Hv t c1 Hc eq_refl) as (Hc1 & ts & -> & Hts). cbn [fst snd].
  destruct (rows_of_shapes (path_str env f) ts Hts) as (rows & Hr & _).
  change (ts0 <~ Py.iter (PList ts);; rows_of (path_str env f) ts0)
    with (rows_of (path_str env f) ts).
  rewrite Hr. apply IH; [|assumption].
  intros f0 Hin. apply Hfiles. now right.
Qed.

(** C6, as stated, fails: the scan below is over three enumerated files; the
    second cannot be stat-ed, the scan raises, and the callback was called
    once, with (1, 3): it never gets the total as first argument, and no call
    follows the second and the third file. *)
Lemma progress_stops_short_of_total :
  List.length (collect_files env_gone ["M"]) = 3
  /\ fst (scan_folders env_gone ["M"] st0) = Raise OSError
  /\ progress_of (events (snd (scan_folders env_gone ["M"] st0))) = [(1, 3)].
Proof. repeat split; reflexivity. Qed.

(** C6, amended.  In a scan over N enumerated files the calls of the
    progress callback are (1, N), (2, N), ..., (k, N), in this order, where
    [k <= N] is the number of files the loop completed: the second argument
    is always N, the first goes up by one, and when the call (j, N) is made
    exactly the first j files have been stat-ed, so that each call follows
    its file and precedes the next one.  [k = N] exactly when the scan
    returns (or N = 0), so the first argument is N exactly once, in the last
    call, for a scan over at least one file that returns, and never for a
    scan that raises: such a scan, when its cache file loaded, stopped on
    file [k + 1], after its stat, with [k < N].  When the cache file does not
    load there is no call.  A scan returns, and so makes all N calls,
    whenever its cache holds entries of [scan_video]'s making (as with no
    cache file), every file can be stat-ed and every probe output that
    parses holds streams the loop goes through: probes that fail and files
    without tracks do not stop the calls. *)
Theorem progress_callback_invariant (env : Env) (folders : list string) (st : State) :
  let r := scan_folders env folders st in
  let keys := map (path_str env) (collect_files env folders) in
  let N := List.length keys in
  exists (new : list event) (k : nat),
    events (snd r) = (events st ++ new)%list
    /\ k <= N
    /\ progress_after [] new = map (fun j => (j, N, firstn j keys)) (seq 1 k)
    /\ progress_of new = map (fun j => (j, N)) (seq 1 k)
    /\ (k = N <-> is_ok (fst r) = true \/ N = 0)
    /\ count_occ Nat.eq_dec (map fst (progress_of new)) N
       = (if is_ok (fst r) && negb (N =? 0)%nat then 1 else 0)
    /\ (is_ok (fst r) = false -> is_ok (fst (load_cache st)) = true ->
        k < N /\ stats_of new = firstn (S k) keys)
    /\ (is_ok (fst (load_cache st)) = false -> new = [])
    /\ (forall c0, fst (load_cache st) = Ok c0 -> cache_shape c0 ->
        scannable env (collect_files env folders) ->
        is_ok (fst r) = true).
Proof.
  cbv zeta. set (keys := map (path_str env) (collect_files env folders)).
  set (N := List.length keys).
  assert (HN : List.length (collect_files env folders) = N)
    by (unfold N, keys; now rewrite length_map).
  assert (Hcalls : forall (new : list event) (k : nat),
            progress_after [] new = map (fun j => (j, N, firstn j keys)) (seq 1 k) ->
            progress_of new = map (fun j => (j, N)) (seq 1 k)).
  { intros new k H. rewrite <- (progress_of_after new []), H, map_map. reflexivity. }
  assert (Hcount : forall k ok, k <= N -> (k = N <-> ok = true \/ N = 0) ->
            count_occ Nat.eq_dec (map fst (map (fun j => (j, N)) (seq 1 k))) N
            = (if ok && negb (N =? 0)%nat then 1 else 0)).
  { intros k ok Hk Hiff. rewrite map_map. cbn [fst]. rewrite map_id.
    destruct (Nat.eq_dec k N) as [->|Hne].
    - rewrite seq_count_last. destruct (N =? 0)%nat eqn:E0;
        [now rewrite andb_false_r|].
      apply Nat.eqb_neq in E0. destruct (proj1 Hiff eq_refl) as [->|]; [reflexivity|lia].
    - assert (Hnot : ~ In N (seq 1 k)) by (rewrite in_seq; lia).
      rewrite (proj1 (count_occ_not_In Nat.eq_dec _ _) Hnot).
      destruct ok; [destruct Hne; apply Hiff; now left|reflexivity]. }
  rewrite scan_folders_run.
  destruct (fst (load_cache st)) as [c0|e] eqn:Hload.
  - cbv zeta. rewrite HN.
    destruct (scan_loop_trace env N (collect_files env folders) 1 c0 [] st)
      as (probed & H).
    cbv zeta in H. fold keys in H. fold N in H.
    pose proof (fun Hc Hg => scan_loop_returns env N (collect_files env folders)
                               Hg 1 c0 [] st Hc) as Hret.
    destruct (scan_loop env N 1 (collect_files env folders) c0 [] st)
      as [[cr|e] st1]; cbn [fst snd is_ok] in H, Hret |- *.
    + destruct H as (Hlen & Hev).
      assert (Hpa : progress_after [] (loop_events keys probed 1 N)
                    = map (fun j => (j, N, firstn j keys)) (seq 1 N)).
      { rewrite <- (app_nil_r (loop_events keys probed 1 N)).
        rewrite (progress_after_loop N [] (fun _ => eq_refl) keys probed 1 []) by lia.
        rewrite Hlen, <- seq_shift, map_map. reflexivity. }
      exists (loop_events keys probed 1 N), N.
      split; [exact Hev|]. split; [lia|]. split; [exact Hpa|].
      split; [now apply Hcalls|]. split; [split; auto|].
      split; [rewrite (Hcalls _ _ Hpa); apply Hcount; [lia|split; auto]|].
      split; [discriminate|]. split; [discriminate|]. reflexivity.
    + destruct H as (Hlen & b & Hev).
      set (k := List.length probed) in *.
      assert (Hpa : progress_after []
                      (loop_events keys probed 1 N ++ aborted_events (nth k keys "") b)
                    = map (fun j => (j, N, firstn j keys)) (seq 1 k)).
      { rewrite (progress_after_loop N _ (fun seen => progress_after_aborted seen _ b)
                   keys probed 1 []) by (fold k; lia).
        fold k. rewrite <- seq_shift, map_map. reflexivity. }
      assert (Hiff : k = N <-> false = true \/ N = 0) by (split; [lia|intros [|]; [discriminate|lia]]).
      exists (loop_events keys probed 1 N ++ aborted_events (nth k keys "") b)%list, k.
      split; [exact Hev|]. split; [lia|]. split; [exact Hpa|].
      split; [now apply Hcalls|]. split; [exact Hiff|].
      split; [rewrite (Hcalls _ _ Hpa); apply Hcount; [lia|exact Hiff]|].
      split; [|split; [discriminate|]].
      * intros _ _. split; [assumption|].
        rewrite stats_of_app, (stats_of_loop N keys probed 1) by (fold k; lia).
        fold k. rewrite (firstn_succ_nth "" keys k Hlen). now destruct b.
      * intros c Hc Hshape Hgood. injection Hc as <-. exact (Hret Hshape Hgood).
  - exists [], 0. cbn [fst snd is_ok]. rewrite app_nil_r.
    assert (Hiff : 0 = N <-> false = true \/ N = 0)
      by (split; [now right|intros [|]; [discriminate|lia]]).
    split; [reflexivity|]. split; [lia|]. split; [reflexivity|].
    split; [reflexivity|]. split; [exact Hiff|].
    split; [apply (Hcount 0 false); [lia|exact Hiff]|].
    split; [discriminate|]. split; [reflexivity|]. discriminate.
Qed.

(** The prober is missing: the one file of [M] gives no track, the scan
    returns and the call (1, 1) was made, after the stat and the probe of the
    file. *)
Lemma progress_callback_invariant_witness :
  is_ok (fst (scan_folders env_noprobe ["M"] st0)) = true
  /\ events (snd (scan_folders env_noprobe ["M"] st0))
     = [EvStat "M/a.mkv"; EvProbe "M/a.mkv"; EvProgress 1 1]
  /\ progress_after [] (events (snd (scan_folders env_noprobe ["M"] st0)))
     = [(1, 1, ["M/a.mkv"])].
Proof.
  split; [|split; reflexivity].
  destruct (progress_callback_invariant env_noprobe ["M"] st0)
    as (new & k & _ & _ & _ & _ & _ & _ & _ & _ & Hreturns).
  apply (Hreturns (PDict [])).
  - reflexivity.
  - exists []. split; [reflexivity|constructor].
  - intros f [<-|[]]. split; [discriminate|]. intros data. discriminate.
Defined.

(** ** Entries that are not regular files *)




(** ** Reuse between two scans *)







